(** * Auto text corrector: a shallow embedding of [autocorrect/corrector.py]
      and [autocorrect/corpus.py], of the nearest-word search of
      [main_corrector.py] and of the tallies of [autocorrect/evaluation.py],
      with the properties of the correction engine proved over it.

    Conventions of the embedding.
    - A Python [str] is a [string]; a character is a code point below 256
      (the Latin-1 range), on which [lower], [isspace], [isdigit] and
      [isalpha] are written out as CPython computes them.
    - A Python [int] is a [Z]; list lengths and edit distances are [nat].
    - A Python [set] of words is a [gset string]; the order in which
      CPython iterates over a set is not fixed by the language, so it is a
      parameter ([set_iter]) known only to enumerate the set.
    - A [dict] / [Counter] is a [gmap]; the small [Counter] built for the
      vote is an association list because its insertion order decides
      ties, and where a large one is sorted or cut to its first items the
      order of its items is a parameter ([dict_items]), as for sets.
    - [list.sort] is stable: it is embedded as the stable insertion sort
      [sort_by], which computes the one stable sorted arrangement.
    - The third-party collaborators (the [SpellChecker] object and NLTK's
      [word_tokenize]) are interfaces, instantiated only in examples. *)

From stdpp Require Import gmap strings list sorting.
From Stdlib Require Import ZArith Ascii String DecimalString DecimalZ DecimalPos.

Open Scope string_scope.
Open Scope nat_scope.

(** ** Characters and the [str] methods the engine calls *)

Module Py.

Definition code (c : ascii) : N := N_of_ascii c.

Definition between (lo hi : N) (c : ascii) : bool :=
  ((lo <=? code c) && (code c <=? hi))%N.

(** [str.isspace] on one character: TAB..CR, FS..US, SPACE, NEL, NBSP. *)
Definition isspace (c : ascii) : bool :=
  between 9 13 c || between 28 32 c || (code c =? 133)%N || (code c =? 160)%N.

(** [str.isdigit] on one character: 0..9 and the superscripts 2, 3, 1. *)
Definition isdigit_char (c : ascii) : bool :=
  between 48 57 c || between 178 179 c || (code c =? 185)%N.

(** [str.isalpha] on one character. *)
Definition isalpha_char (c : ascii) : bool :=
  between 65 90 c || between 97 122 c
  || (code c =? 170)%N || (code c =? 181)%N || (code c =? 186)%N
  || between 192 214 c || between 216 246 c || between 248 255 c.

(** The class [\w] of the [re] module on [str] patterns. *)
Definition isword_char (c : ascii) : bool :=
  isalpha_char c || isdigit_char c || between 188 190 c || (code c =? 95)%N.

Definition lower_char (c : ascii) : ascii :=
  if between 65 90 c || between 192 214 c || between 216 222 c
  then ascii_of_N (code c + 32)
  else c.

(** [s.lower()], on strings of code points below 256, where it maps
    each character to one character.  (On other code points Python's
    [lower] may give two for one, as for U+0130; such strings are
    outside the embedding.) *)
Fixpoint lower (s : string) : string :=
  match s with
  | "" => ""
  | String c s' => String (lower_char c) (lower s')
  end.

Fixpoint lstrip (s : string) : string :=
  match s with
  | "" => ""
  | String c s' => if isspace c then lstrip s' else s
  end.

Fixpoint rstrip (s : string) : string :=
  match s with
  | "" => ""
  | String c s' =>
      match rstrip s' with
      | "" => if isspace c then "" else String c ""
      | r => String c r
      end
  end.

(** [s.strip()] *)
Definition strip (s : string) : string := rstrip (lstrip s).

Fixpoint all_chars (p : ascii → bool) (s : string) : bool :=
  match s with
  | "" => true
  | String c s' => p c && all_chars p s'
  end.

Definition nonempty (s : string) : bool :=
  match s with "" => false | _ => true end.

(** [s.isdigit()] and [s.isalpha()]: false on the empty string. *)
Definition isdigit (s : string) : bool := nonempty s && all_chars isdigit_char s.
Definition isalpha (s : string) : bool := nonempty s && all_chars isalpha_char s.

(** [sub in s] on strings: [sub] occurs as a contiguous slice of [s]. *)
Fixpoint contains (s sub : string) : bool :=
  String.prefix sub s
  || match s with
     | "" => false
     | String _ s' => contains s' sub
     end.

(** [string.punctuation] *)
Definition punctuation : string :=
  "!" +:+ String (ascii_of_N 34) "#$%&'()*+,-./:;<=>?@[\]^_`{|}~".

(** [string.ascii_lowercase] *)
Definition ascii_lowercase : list ascii :=
  list_ascii_of_string "abcdefghijklmnopqrstuvwxyz".

(** [s.split()]: the maximal runs of non-whitespace characters.  [cur] is
    the run being read, most recent character first. *)
Fixpoint split_go (cur : list ascii) (s : string) : list string :=
  let flush := match cur with
               | [] => []
               | _ => [string_of_list_ascii (rev cur)]
               end in
  match s with
  | "" => flush
  | String c s' =>
      if isspace c then flush ++ split_go [] s' else split_go (c :: cur) s'
  end.

Definition split (s : string) : list string := split_go [] s.

(** [sep.join(l)] *)
Fixpoint join (sep : string) (l : list string) : string :=
  match l with
  | [] => ""
  | [x] => x
  | x :: l' => x +:+ sep +:+ join sep l'
  end.

(** [int(s)] on a field without surrounding whitespace: an optional sign,
    then decimal digits in which single underscores may separate digits.
    [None] stands for the [ValueError].  (The interpreter's cap on the
    number of digits is left out.) *)
Definition digit_val (c : ascii) : option Z :=
  if between 48 57 c then Some (Z.of_N (code c) - 48)%Z else None.

Fixpoint int_digits (acc : Z) (after_digit : bool) (s : string) : option Z :=
  match s with
  | "" => if after_digit then Some acc else None
  | String c s' =>
      if (code c =? 95)%N
      then if after_digit then int_digits acc false s' else None
      else match digit_val c with
           | Some d => int_digits (10 * acc + d)%Z true s'
           | None => None
           end
  end.

Definition int (s : string) : option Z :=
  match s with
  | String "+" s' => int_digits 0 false s'
  | String "-" s' => Z.opp <$> int_digits 0 false s'
  | _ => int_digits 0 false s
  end.

(** A stable sort by a "comes no later than" test, as [list.sort] is:
    [x] is placed before the first element it may precede, so elements
    that compare equal keep their order. *)
Fixpoint insert_by {A} (le : A → A → bool) (x : A) (l : list A) : list A :=
  match l with
  | [] => [x]
  | y :: l' => if le x y then x :: l else y :: insert_by le x l'
  end.

Definition sort_by {A} (le : A → A → bool) (l : list A) : list A :=
  foldr (insert_by le) [] l.

(** [Counter(l)] as its items in insertion order: a word is counted where
    it first appeared. *)
Fixpoint counter_add (x : string) (items : list (string * nat))
  : list (string * nat) :=
  match items with
  | [] => [(x, 1)]
  | (y, n) :: items' =>
      if decide (x = y) then (y, S n) :: items'
      else (y, n) :: counter_add x items'
  end.

Definition Counter (l : list string) : list (string * nat) :=
  foldl (λ items x, counter_add x items) [] l.

(** [max(items, key=count)], which keeps the first of several maxima;
    it is what [most_common(1)] reduces to. *)
Fixpoint max_count (best : string * nat) (items : list (string * nat))
  : string * nat :=
  match items with
  | [] => best
  | it :: items' =>
      max_count (if (best.2 <? it.2)%nat then it else best) items'
  end.

(** [c.most_common(1)]: a list of at most one item. *)
Definition most_common_1 (items : list (string * nat)) : list (string * nat) :=
  match items with
  | [] => []
  | it :: items' => [max_count it items']
  end.

(** [str(n)] for an [int], which is also how an f-string formats it: the
    decimal digits, after a minus sign when [n] is negative.  (The
    interpreter's cap on the number of digits is left out, as in [int].) *)
Definition str (n : Z) : string := NilZero.string_of_int (Z.to_int n).

(** [s.replace(old, new)] for a pattern [old] that is not empty: the
    occurrences of [old] are taken from the left, none overlapping the
    one before, and each becomes [new].  [skip] counts the characters of
    the occurrence just replaced that are still to be passed over. *)
Fixpoint replace_go (old new : string) (skip : nat) (s : string) : string :=
  match s with
  | "" => ""
  | String c s' =>
      match skip with
      | S skip' => replace_go old new skip' s'
      | O =>
          if String.prefix old s
          then new +:+ replace_go old new (String.length old - 1) s'
          else String c (replace_go old new 0 s')
      end
  end.

Definition replace (s old new : string) : string := replace_go old new 0 s.

End Py.

(** ** [autocorrect/corpus.py]: the frequency tables of [CorpusHandler] *)

Module corpus.
Import Py.

Record CorpusHandler := {
  word_freq : gmap string Z;
  bigram_freq : gmap string Z
}.

(** [Counter.get(k, 0)], which is also what [counter[k]] reads. *)
Definition get0 (m : gmap string Z) (k : string) : Z := default 0%Z (m !! k).

(** [counter[k] += 1] *)
Definition incr (m : gmap string Z) (k : string) : gmap string Z :=
  <[k := (get0 m k + 1)%Z]> m.

(** [nltk.bigrams(l)]: the pairs of adjacent entries. *)
Fixpoint bigrams (l : list string) : list (string * string) :=
  match l with
  | x :: ((y :: _) as l') => (x, y) :: bigrams l'
  | _ => []
  end.

(** [re.sub(r'[^\w\s]', ' ', s)] *)
Fixpoint blank_special (s : string) : string :=
  match s with
  | "" => ""
  | String c s' =>
      String (if isword_char c || isspace c then c else " "%char)
             (blank_special s')
  end.

(** What the loader obtains from the path it is given.  The [.txt]
    branch reads the whole file ([None]: [open] or [read] raised).  The
    table branches go through pandas, kept at its interface: a frame with
    [word] and [frequency] columns is the list of its rows, each as
    [str(row['word'])] and [int(row['frequency'])] ([None] where [int]
    raises); any other frame is its columns, an item being [Some s] when
    it is a [str]. *)
Inductive frame :=
  | WordFrequency (rows : list (string * option Z))
  | Columns (cols : list (list (option string))).

Inductive source :=
  | Txt (content : option string)
  | Table (df : option frame)
  | Unsupported.

Inductive report := Loaded | UnsupportedFileType | Error.

Definition count_words (h : CorpusHandler) (words : list string) : CorpusHandler :=
  foldl (λ h word,
           if isalpha word
           then {| word_freq := incr (word_freq h) word;
                   bigram_freq := bigram_freq h |}
           else h) h words.

Definition count_bigrams (h : CorpusHandler) (words : list string) : CorpusHandler :=
  foldl (λ h bg,
           {| word_freq := word_freq h;
              bigram_freq := incr (bigram_freq h) (join " " [bg.1; bg.2]) |})
        h (bigrams (List.filter isalpha words)).

(** The rows of a [word]/[frequency] frame, one at a time; a row whose
    frequency does not convert raises, which ends the loop where it is. *)
Fixpoint load_rows (h : CorpusHandler) (rows : list (string * option Z))
  : CorpusHandler * report :=
  match rows with
  | [] => (h, Loaded)
  | (w, f) :: rows' =>
      let word := lower w in
      match f with
      | None => (h, Error)
      | Some freq =>
          load_rows (if isalpha word
                     then {| word_freq := <[word := freq]> (word_freq h);
                             bigram_freq := bigram_freq h |}
                     else h) rows'
      end
  end.

Definition load_item (h : CorpusHandler) (item : option string) : CorpusHandler :=
  match item with
  | Some s => count_words h (split (blank_special (lower s)))
  | None => h
  end.

Definition load_custom_corpus (h : CorpusHandler) (src : source)
  : CorpusHandler * report :=
  match src with
  | Txt None => (h, Error)
  | Txt (Some content) =>
      let text := blank_special (lower content) in
      let words := split text in
      (count_bigrams (count_words h words) words, Loaded)
  | Table None => (h, Error)
  | Table (Some (WordFrequency rows)) => load_rows h rows
  | Table (Some (Columns cols)) =>
      (foldl (λ h col, foldl load_item h col) h cols, Loaded)
  | Unsupported => (h, UnsupportedFileType)
  end.

Definition get_word_frequency (h : CorpusHandler) (word : string) : Z :=
  get0 (word_freq h) (lower word).

Definition get_bigram_frequency (h : CorpusHandler) (word1 word2 : string) : Z :=
  get0 (bigram_freq h) (lower word1 +:+ " " +:+ lower word2).

(** The order in which a [dict] hands out its items is the order in which
    its keys were first inserted; a [gmap] keeps no record of that, so
    the order is a parameter known only to enumerate the map. *)
Class DictIter := {
  dict_items : gmap string Z → list (string * Z);
  dict_items_perm m : dict_items m ≡ₚ map_to_list m
}.

(** The order of [sorted(items, key=lambda x: x[1], reverse=True)], which
    is also that of [most_common]: descending count, equal counts keeping
    their order. *)
Definition higher_count (x y : string * Z) : bool := (y.2 <=? x.2)%Z.

(** The line written for one item; it ends with a line feed. *)
Definition export_line (item : string * Z) : string :=
  item.1 +:+ " " +:+ str item.2 +:+ String (ascii_of_N 10) "".

(** The lines [export_word_frequencies] writes to the file it opens. *)
Definition export_word_frequencies `{DictIter} (h : CorpusHandler) : list string :=
  let sorted_words := sort_by higher_count (dict_items (word_freq h)) in
  export_line <$> sorted_words.

(** [Counter.most_common(n)] is [heapq.nlargest(n, items, key=count)],
    which the library documents as
    [sorted(items, key=count, reverse=True)[:n]] and which is empty for
    [n <= 0]. *)
Definition most_common `{DictIter} (m : gmap string Z) (n : Z) : list (string * Z) :=
  take (Z.to_nat n) (sort_by higher_count (dict_items m)).

(** [dict(self.word_freq.most_common(n))], as its items in insertion
    order. *)
Definition get_top_words `{DictIter} (h : CorpusHandler) (n : Z) : list (string * Z) :=
  most_common (word_freq h) n.

Definition patterns : list (string * string) :=
  [("ei", "ie"); ("a", "e"); ("e", "a"); ("ant", "ent"); ("ent", "ant");
   ("ce", "se"); ("se", "ce"); ("able", "ible"); ("ible", "able");
   ("ary", "ery"); ("ery", "ary"); ("er", "or"); ("or", "er");
   ("mm", "m"); ("m", "mm"); ("ll", "l"); ("l", "ll");
   ("cc", "c"); ("c", "cc"); ("ss", "s"); ("s", "ss");
   ("tion", "sion"); ("sion", "tion")].

(** The loop over the patterns, for one word. *)
Definition confuse (top_words : list string) (word : string)
    (confusion_set : gmap string string) : gmap string string :=
  foldl (λ confusion_set '(orig, repl),
           if contains word orig
           then
             let misspelled := replace word orig repl in
             if bool_decide (misspelled ∈ top_words) then confusion_set
             else <[misspelled := word]> confusion_set
           else confusion_set)
        confusion_set patterns.

Definition generate_confusion_set `{DictIter} (h : CorpusHandler) (n : Z)
  : gmap string string :=
  let top_words := (get_top_words h n).*1 in
  foldl (λ confusion_set word,
           if (String.length word <=? 3)%nat then confusion_set
           else confuse top_words word confusion_set)
        ∅ top_words.

End corpus.

(** ** [autocorrect/corrector.py]: the [Corrector] class *)

Module corrector.
Import Py.

(** The order in which CPython iterates over a set of words ([for x in s],
    [list(s)]): some enumeration of the set, nothing more. *)
Class SetIter := {
  set_iter : gset string → list string;
  set_iter_perm X : set_iter X ≡ₚ elements X
}.

(** The [SpellChecker] object of the [spellchecker] package, kept at the
    two calls the engine makes: [correction(word)], which may answer
    [None], and [word_frequency.add(word)]. *)
Class SpellChecker (T : Type) := {
  correction : T → string → option string;
  word_frequency_add : T → string → T
}.

(** NLTK's [word_tokenize]. *)
Class Tokenizer := { word_tokenize : string → list string }.

(** *** Edit distance *)

(** The inner loop of [_calculate_levenshtein_distance]: the entries of
    [current_row] after the first.  [previous_row] is consumed from column
    [j]; [left] is [current_row[j]].  The previous row always has one
    entry more than [word2] has characters, so the last case is never
    reached from [levenshtein_rows]. *)
Fixpoint levenshtein_row (c1 : ascii) (word2 : string)
    (previous_row : list nat) (left : nat) : list nat :=
  match word2, previous_row with
  | String c2 word2', diag :: ((up :: _) as previous_row') =>
      let insertions := up + 1 in
      let deletions := left + 1 in
      let substitutions := diag + (if decide (c1 = c2) then 0 else 1) in
      let v := insertions `min` (deletions `min` substitutions) in
      v :: levenshtein_row c1 word2' previous_row' v
  | _, _ => []
  end.

(** The outer loop, from row [i] on. *)
Fixpoint levenshtein_rows (i : nat) (word1 word2 : string)
    (previous_row : list nat) : list nat :=
  match word1 with
  | "" => previous_row
  | String c1 word1' =>
      let current_row := (i + 1) :: levenshtein_row c1 word2 previous_row (i + 1) in
      levenshtein_rows (S i) word1' word2 current_row
  end.

(** The body once [len(word1) >= len(word2)] holds. *)
Definition levenshtein_body (word1 word2 : string) : nat :=
  if (String.length word2 =? 0)%nat then String.length word1
  else List.last (levenshtein_rows 0 word1 word2 (seq 0 (String.length word2 + 1))) 0.

Definition _calculate_levenshtein_distance (word1 word2 : string) : nat :=
  if (String.length word1 <? String.length word2)%nat
  then levenshtein_body word2 word1
  else levenshtein_body word1 word2.

(** *** The one-edit and two-edit neighbourhoods *)

(** [[(word[:i], word[i:]) for i in range(len(word) + 1)]] *)
Fixpoint splits (word : string) : list (string * string) :=
  ("", word) ::
  match word with
  | "" => []
  | String c word' => (λ LR, (String c LR.1, LR.2)) <$> splits word'
  end.

Definition deletes (word : string) : list string :=
  flat_map (λ '(L, R), match R with
                       | String _ R1 => [L +:+ R1]
                       | "" => []
                       end) (splits word).

Definition transposes (word : string) : list string :=
  flat_map (λ '(L, R), match R with
                       | String r0 (String r1 R2) => [L +:+ String r1 (String r0 R2)]
                       | _ => []
                       end) (splits word).

Definition replaces (word : string) : list string :=
  flat_map (λ '(L, R), match R with
                       | String _ R1 => (λ c, L +:+ String c R1) <$> ascii_lowercase
                       | "" => []
                       end) (splits word).

Definition inserts (word : string) : list string :=
  flat_map (λ '(L, R), (λ c, L +:+ String c R) <$> ascii_lowercase) (splits word).

Definition edits1_list (word : string) : list string :=
  deletes word ++ transposes word ++ replaces word ++ inserts word.

Definition edits1 (word : string) : gset string := list_to_set (edits1_list word).

Definition edits2 (word : string) : gset string :=
  ⋃ (edits1 <$> elements (edits1 word)).

Section Corrector.
Context `{Order : SetIter} {T : Type} `{Checker : SpellChecker T}.

Record Corrector := {
  dictionary : gset string;
  word_freq : gmap string Z;
  spell_checker : T;
  user_corrections : gmap string string
}.

(** [self.word_freq.get(w, 0)] *)
Definition freq (c : Corrector) (w : string) : Z := default 0%Z (word_freq c !! w).

(** *** Strategy A: [_get_candidates] *)

(** The order of the sort keys [(x[1], -self.word_freq.get(x[0], 0))],
    compared as tuples. *)
Definition candidate_le (c : Corrector) (x y : string * nat) : bool :=
  (x.2 <? y.2)%nat || ((x.2 =? y.2)%nat && (- freq c x.1 <=? - freq c y.1)%Z).

Definition _get_candidates (c : Corrector) (word : string) (max_distance : Z)
  : list string :=
  if decide (word ∈ dictionary c) then [word]
  else
    let candidates :=
      filter (λ x, (Z.of_nat x.2 ≤ max_distance)%Z)
             ((λ dict_word, (dict_word, _calculate_levenshtein_distance word dict_word))
                <$> set_iter (dictionary c)) in
    (sort_by (candidate_le c) candidates).*1.

(** *** Strategy B: [_get_norvig_candidates] *)

(** [e for e in X if e in self.dictionary], as the set it is added to. *)
Definition known (c : Corrector) (X : gset string) : gset string :=
  filter (λ e, e ∈ dictionary c) X.

(** The same filter run over a list of edits; it is [known] of the set of
    the list, in the form that evaluates without building that set. *)
Definition known_list (c : Corrector) (l : list string) : gset string :=
  list_to_set (List.filter (λ e, bool_decide (e ∈ dictionary c)) l).

(** The order of [sort(key=lambda x: self.word_freq.get(x, 0), reverse=True)]:
    descending frequency, equal frequencies keeping their order. *)
Definition more_frequent (c : Corrector) (x y : string) : bool :=
  (freq c y <=? freq c x)%Z.

Definition _get_norvig_candidates (c : Corrector) (word : string) (max_distance : Z)
  : list string :=
  let candidates : gset string := ∅ in
  let candidates :=
    if decide (1 ≤ max_distance)%Z then candidates ∪ known c (edits1 word)
    else candidates in
  let candidates :=
    if decide (2 ≤ max_distance)%Z
    then if decide (candidates = ∅) then candidates ∪ known c (edits2 word)
         else candidates
    else candidates in
  let candidates :=
    if decide (word ∈ dictionary c) then candidates ∪ {[word]} else candidates in
  let candidates := sort_by (more_frequent c) (set_iter candidates) in
  match candidates with
  | [] => [word]
  | _ => candidates
  end.

(** *** The vote: [correct_word] *)

(** [x or word] for an optional string [x]: [None] and [""] are false. *)
Definition or_else (x : option string) (word : string) : string :=
  match x with
  | Some (String _ _ as s) => s
  | _ => word
  end.

(** [l[0] if l else word] *)
Definition first_or (l : list string) (word : string) : string :=
  match l with
  | x :: _ => x
  | [] => word
  end.

(** The three proposals, in the order the vote lists them. *)
Definition corrections (c : Corrector) (word : string) : list string :=
  let norvig_correction := correction (spell_checker c) word in
  let levenshtein_candidates := _get_candidates c word 2 in
  let levenshtein_correction := first_or levenshtein_candidates word in
  let norvig_candidates := _get_norvig_candidates c word 2 in
  let norvig_direct_correction := first_or norvig_candidates word in
  [or_else norvig_correction word; levenshtein_correction; norvig_direct_correction].

(** [Counter(l).most_common(1)[0]], first component.  On an empty list
    Python raises; the caller's list has three entries, and the model
    answers [word] there. *)
Definition vote (l : list string) (word : string) : string :=
  match most_common_1 (Counter l) with
  | (best_correction, _) :: _ => best_correction
  | [] => word
  end.

Definition correct_word (c : Corrector) (word : string) : string :=
  if bool_decide (word = "") || bool_decide (strip word = "") then word
  else
    let word := strip (lower word) in
    if decide (word ∈ dictionary c) then word
    else match user_corrections c !! word with
         | Some corr => corr
         | None => vote (corrections c word) word
         end.

(** *** Text correction: [correct_text] *)

(** [re.sub(r'([a-z])([^\w\s])\s', r'\1 ', text)] on the lowered text: a
    letter, one character that is neither a word character nor
    whitespace, one whitespace character; the three become the letter
    and a space, and the scan resumes after them. *)
Fixpoint strip_trailing_punct (text : string) : string :=
  match text with
  | "" => ""
  | String a t =>
      match t with
      | String p (String w rest) =>
          if between 97 122 a && negb (isword_char p) && negb (isspace p) && isspace w
          then String a (String " " (strip_trailing_punct rest))
          else String a (strip_trailing_punct t)
      | _ => String a (strip_trailing_punct t)
      end
  end.

Definition _preprocess (text : string) : string :=
  strip_trailing_punct (lower text).

Definition _tokenize `{Tokenizer} (text : string) : list string :=
  word_tokenize (lower text).

(** [re.sub(r'\s+([,.!?:;])', r'\1', text)]: every run of whitespace that
    ends at one of the six marks is removed.  Read from the right, a
    whitespace character goes exactly when what remains after it starts
    with a mark. *)
Definition is_mark (c : ascii) : bool :=
  bool_decide (c ∈ list_ascii_of_string ",.!?:;").

Fixpoint fix_spacing (text : string) : string :=
  match text with
  | "" => ""
  | String c t =>
      match fix_spacing t with
      | String m _ as r => if isspace c && is_mark m then r else String c r
      | "" => String c ""
      end
  end.

(** [token in string.punctuation or token.isdigit()] *)
Definition skipped (token : string) : bool :=
  contains punctuation token || isdigit token.

(** The token loop of [correct_text]. *)
Definition correct_tokens (c : Corrector) (tokens : list string) : list string :=
  (λ token, if skipped token then token else correct_word c token) <$> tokens.

Definition correct_text `{Tokenizer} (c : Corrector) (text : string) : string :=
  if bool_decide (text = "") then text
  else
    let preprocessed_text := _preprocess text in
    let tokens := _tokenize preprocessed_text in
    let corrected_tokens := correct_tokens c tokens in
    let corrected_text := join " " corrected_tokens in
    fix_spacing corrected_text.

(** *** Context-aware correction: [correct_with_context] *)

(** [l[lo:hi]] for bounds that are not negative. *)
Definition slice {A} (l : list A) (lo hi : nat) : list A := take (hi - lo) (drop lo l).

(** [if bigram in self.word_freq: score += self.word_freq[bigram]] *)
Definition add_seen (c : Corrector) (bigram : string) (score : Z) : Z :=
  match word_freq c !! bigram with
  | Some n => (score + n)%Z
  | None => score
  end.

(** The score one candidate receives in the scoring loop. *)
Definition context_score (c : Corrector) (context_before context_after : list string)
    (candidate : string) : Z :=
  let score := 0%Z in
  let score :=
    match last context_before with
    | Some prev => add_seen c (join " " [prev; candidate]) score
    | None => score
    end in
  let score :=
    match context_after with
    | next :: _ => add_seen c (join " " [candidate; next]) score
    | [] => score
    end in
  score.

(** The scoring loop: the state is [(best_candidate, highest_score)]. *)
Definition scoring_loop (c : Corrector) (context_before context_after : list string)
    (candidates : list string) (start : string * Z) : string * Z :=
  foldl (λ st candidate,
           let score := context_score c context_before context_after candidate in
           if (st.2 <? score)%Z then (candidate, score) else st)
        start candidates.

(** The candidates the context step works with: Strategy A's, replaced
    by Strategy B's when A has none or proposes the token itself. *)
Definition context_candidates (c : Corrector) (token : string) : list string :=
  let candidates := _get_candidates c token 2 in
  if bool_decide (candidates = []) || bool_decide (head candidates = Some token)
  then _get_norvig_candidates c token 2
  else candidates.

(** One round of the loop over [range(len(tokens))]: the value
    [corrected_tokens[i]] ends with. *)
Definition correct_at (c : Corrector) (tokens : list string) (i : nat) (token : string)
  : string :=
  if skipped token then token
  else if decide (token ∈ dictionary c) then token
  else
    let candidates := context_candidates c token in
    if bool_decide (candidates = []) || bool_decide (List.length candidates = 1)
    then correct_word c token
    else
      let context_before := slice tokens (0 `max` (i - 2)) i in
      let context_after := slice tokens (i + 1) (List.length tokens `min` (i + 3)) in
      let '(best_candidate, highest_score) :=
        scoring_loop c context_before context_after candidates (token, (-1)%Z) in
      if (highest_score <=? 0)%Z then correct_word c token else best_candidate.

Definition correct_tokens_with_context (c : Corrector) (tokens : list string)
  : list string :=
  imap (correct_at c tokens) tokens.

Definition correct_with_context `{Tokenizer} (c : Corrector) (text : string) : string :=
  if bool_decide (text = "") then text
  else
    let preprocessed_text := _preprocess text in
    let tokens := _tokenize preprocessed_text in
    let corrected_tokens := correct_tokens_with_context c tokens in
    let corrected_text := join " " corrected_tokens in
    fix_spacing corrected_text.

(** *** The mutators *)

Definition add_to_dictionary (c : Corrector) (word : string) (frequency : Z) : Corrector :=
  let word := strip (lower word) in
  {| dictionary := dictionary c ∪ {[word]};
     word_freq := <[word := frequency]> (word_freq c);
     spell_checker := word_frequency_add (spell_checker c) word;
     user_corrections := user_corrections c |}.

Definition add_user_correction (c : Corrector) (misspelled_word correction : string)
  : Corrector :=
  let misspelled_word := strip (lower misspelled_word) in
  let correction := strip (lower correction) in
  let c := {| dictionary := dictionary c;
              word_freq := word_freq c;
              spell_checker := spell_checker c;
              user_corrections := <[misspelled_word := correction]> (user_corrections c) |} in
  if decide (correction ∈ dictionary c) then c
  else add_to_dictionary c correction 1.

(** *** [load_custom_dictionary] *)

(** The exception the [try] block caught and printed, if any. *)
Inductive caught := OSError | ValueError.

(** One round of the loop over the lines; [None] when [int] raises. *)
Definition load_line (c : Corrector) (line : string) : option Corrector :=
  match split (strip line) with
  | p0 :: p1 :: _ =>
      let word := lower p0 in
      freq ← int p1;
      Some {| dictionary := dictionary c ∪ {[word]};
              word_freq := <[word := freq]> (word_freq c);
              spell_checker := spell_checker c;
              user_corrections := user_corrections c |}
  | _ => Some c
  end.

(** The loop: an exception leaves it at once, with what the earlier
    lines did. *)
Fixpoint load_lines (c : Corrector) (lines : list string) : Corrector * option caught :=
  match lines with
  | [] => (c, None)
  | line :: lines' =>
      match load_line c line with
      | Some c' => load_lines c' lines'
      | None => (c, Some ValueError)
      end
  end.

(** What reading the file at [file_path] gives.  [open] may raise:
    [Unopenable].  Otherwise [for line in f] hands out the lines of
    [lines] and then either ends ([ends = None]) or raises ([ends] is the
    exception: a read error, or a decoding error, which is a
    [ValueError]); the whole iteration runs inside the [try]. *)
Inductive dictionary_file :=
  | Unopenable
  | Lines (lines : list string) (ends : option caught).

Definition load_custom_dictionary (c : Corrector) (file : dictionary_file)
  : Corrector * option caught :=
  match file with
  | Unopenable => (c, Some OSError)
  | Lines lines ends =>
      match load_lines c lines with
      | (c', None) => (c', ends)
      | stopped => stopped
      end
  end.

(** *** The constructor *)

(** [Corrector(custom_dict_path)].  The word list of NLTK and the
    [SpellChecker] object are what the environment provides; the
    dictionary is the set of the listed words as they are listed.  (The
    source creates the suggester and the empty user corrections after
    the load, which touches neither.) *)
Definition __init__ (nltk_words : list string)
    (custom_dict_path : option dictionary_file) (checker : T)
  : Corrector * option caught :=
  let c := {| dictionary := list_to_set nltk_words;
              word_freq := ∅;
              spell_checker := checker;
              user_corrections := ∅ |} in
  match custom_dict_path with
  | Some file => load_custom_dictionary c file
  | None => (c, None)
  end.

End Corrector.

Arguments Corrector : clear implicits.

End corrector.

(** ** [main_corrector.py]: the nearest-word search of [SimpleCorrector] *)

Module main_corrector.
Import Py corrector.

Record SimpleCorrector := { words : gset string }.

(** [_levenshtein] has the body of [_calculate_levenshtein_distance]. *)
Definition _levenshtein (s1 s2 : string) : nat :=
  if (String.length s1 <? String.length s2)%nat
  then levenshtein_body s2 s1
  else levenshtein_body s1 s2.

(** The loop of [_get_best_match] over the words still to visit.
    [min_dist] is [None] while it is [float('inf')]; the [break] returns
    at once. *)
Fixpoint best_match_loop (word : string) (rest : list string)
    (min_dist : option nat) (best_word : string) : string :=
  match rest with
  | [] => best_word
  | w :: rest' =>
      let dist := _levenshtein word w in
      let '(min_dist, best_word) :=
        if match min_dist with
           | None => true
           | Some m => (dist <? m)%nat
           end
        then (Some dist, w)
        else (min_dist, best_word) in
      if bool_decide (min_dist = Some 1) then best_word
      else best_match_loop word rest' min_dist best_word
  end.

Definition _get_best_match `{SetIter} (sc : SimpleCorrector) (word : string) : string :=
  if bool_decide (words sc = ∅) then word
  else best_match_loop word (set_iter (words sc)) None word.

End main_corrector.

(** ** [autocorrect/evaluation.py]: the tallies of [evaluate_word_correction] *)

Module evaluation.
Import Py corrector.

(** The integer counters of the loop, and [total].  The metrics returned
    are quotients of these. *)
Record tallies := {
  correct_predictions : Z;
  true_positives : Z;
  false_positives : Z;
  false_negatives : Z
}.

Section Evaluator.
Context `{Order : SetIter} {T : Type} `{Checker : SpellChecker T}.

(** One round of the loop over [test_data]. *)
Definition tally (c : Corrector T) (t : tallies) (pair : string * string) : tallies :=
  let '(misspelled, original) := pair in
  if bool_decide (misspelled = original) then t
  else
    let prediction := correct_word c misspelled in
    let t :=
      if bool_decide (lower prediction = lower original)
      then {| correct_predictions := correct_predictions t + 1;
              true_positives := true_positives t;
              false_positives := false_positives t;
              false_negatives := false_negatives t |}
      else t in
    if bool_decide (misspelled ≠ original)
    then
      if bool_decide (lower prediction = lower original)
      then {| correct_predictions := correct_predictions t;
              true_positives := true_positives t + 1;
              false_positives := false_positives t;
              false_negatives := false_negatives t |}
      else {| correct_predictions := correct_predictions t;
              true_positives := true_positives t;
              false_positives := false_positives t + 1;
              false_negatives := false_negatives t + 1 |}
    else t.

(** The counters after the loop, and [total = len(test_data)].  Test data
    that is empty (or not given) is replaced by data drawn at random,
    which is not modelled: [None]. *)
Definition evaluate_word_correction (c : Corrector T) (test_data : list (string * string))
  : option (tallies * Z) :=
  match test_data with
  | [] => None
  | _ =>
      Some (foldl (tally c)
                  {| correct_predictions := 0; true_positives := 0;
                     false_positives := 0; false_negatives := 0 |}
                  test_data,
            Z.of_nat (List.length test_data))
  end.

End Evaluator.

End evaluation.

(** ** Notions the statements use *)

Module notions.
Import Py corrector.

(** The number of votes a word has among the proposals. *)
Definition votes_for (x : string) (l : list string) : nat :=
  List.length (filter (λ y, y = x) l).

(** A token [correct_word] hands back at once. *)
Definition blank (token : string) : Prop := token = "" ∨ strip token = "".

(** [x] stands before [y] in the ranking [l]. *)
Definition ranked_before (x y : string) (l : list string) : Prop :=
  ∃ i j, l !! i = Some x ∧ l !! j = Some y ∧ i < j.


(** Strategy A's order on words, read off the spec: nearer words first,
    and among words equally near the more frequent first, a word without
    a recorded frequency counting as frequency 0. *)
Definition ranks_no_later {T} (c : Corrector T) (w x y : string) : Prop :=
  _calculate_levenshtein_distance w x < _calculate_levenshtein_distance w y
  ∨ (_calculate_levenshtein_distance w x = _calculate_levenshtein_distance w y
     ∧ (freq c y ≤ freq c x)%Z).

(** The single-edit neighbourhood, read off the spec: delete one
    character, transpose two adjacent characters, substitute one
    character by a letter of the working alphabet, or insert such a
    letter, at any position. *)
Inductive one_edit : string → string → Prop :=
  | edit_delete L a R :
      one_edit (L +:+ String a R) (L +:+ R)
  | edit_transpose L a b R :
      one_edit (L +:+ String a (String b R)) (L +:+ String b (String a R))
  | edit_substitute L a R l :
      l ∈ ascii_lowercase →
      one_edit (L +:+ String a R) (L +:+ String l R)
  | edit_insert L R l :
      l ∈ ascii_lowercase →
      one_edit (L +:+ R) (L +:+ String l R).

(** The two-edit neighbourhood: the single edits of the single edits. *)
Definition two_edits (w x : string) : Prop := ∃ e, one_edit w e ∧ one_edit e x.

(** The count the corrector has on record for the pair of words [w1 w2],
    0 when it has none. *)
Definition pair_count {T} (c : Corrector T) (w1 w2 : string) : Z :=
  freq c (w1 +:+ " " +:+ w2).

(** The context score of the spec: the count of (left neighbour,
    candidate) when token [i] has a token before it, plus the count of
    (candidate, right neighbour) when it has a token after it. *)
Definition neighbour_score {T} (c : Corrector T) (tokens : list string) (i : nat)
    (candidate : string) : Z :=
  (match i with
   | O => 0
   | S j => match tokens !! j with
            | Some left_neighbour => pair_count c left_neighbour candidate
            | None => 0
            end
   end
   + match tokens !! S i with
     | Some right_neighbour => pair_count c candidate right_neighbour
     | None => 0
     end)%Z.

(** No key of the corrector's frequency table holds a space: the table
    has single words on record, no pairs. *)
Definition no_pair_keys {T} (c : Corrector T) : Prop :=
  ∀ k, contains k " " = true → word_freq c !! k = None.

(** [best] is the earliest entry of [l] with the highest score. *)
Definition first_best (score : string → Z) (l : list string) (best : string) : Prop :=
  ∃ k, l !! k = Some best
       ∧ (∀ x, x ∈ l → (score x ≤ score best)%Z)
       ∧ (∀ j x, j < k → l !! j = Some x → (score x < score best)%Z).

(** One round of the scoring loop, over any score: the state changes
    only for a strictly higher score. *)
Definition improve (score : string → Z) (st : string * Z) (candidate : string)
  : string * Z :=
  if (st.2 <? score candidate)%Z then (candidate, score candidate) else st.

(** A token made of punctuation characters only. *)
Definition solely_punctuation (token : string) : bool :=
  nonempty token
  && all_chars (λ ch, bool_decide (ch ∈ list_ascii_of_string punctuation)) token.

(** The cost of aligning character [i] of [a] with character [j] of [b]. *)
Definition mismatch (a b : string) (i j : nat) : nat :=
  if decide (String.get i a = String.get j b) then 0 else 1.

(** The Levenshtein table of the spec: entry [(i, j)] is the distance
    between the first [i] characters of [a] and the first [j] of [b];
    an insertion, a deletion and a substitution cost 1, a match 0. *)
Fixpoint levenshtein_table (a b : string) (i : nat) {struct i} : nat → nat :=
  match i with
  | 0 => λ j, j
  | S i' =>
      fix row (j : nat) : nat :=
        match j with
        | 0 => S i'
        | S j' =>
            (levenshtein_table a b i' j + 1)
              `min` ((row j' + 1)
              `min` (levenshtein_table a b i' j' + mismatch a b i' j'))
        end
  end.

Definition levenshtein (a b : string) : nat :=
  levenshtein_table a b (String.length a) (String.length b).

(** The list the scan of the dictionary collects in [_get_candidates],
    before it is sorted. *)
Definition scanned `{SetIter} {T} (c : Corrector T) (w : string) (md : Z)
  : list (string * nat) :=
  filter (λ p, (Z.of_nat p.2 ≤ md)%Z)
         ((λ d, (d, _calculate_levenshtein_distance w d)) <$> set_iter (dictionary c)).

(** [x] occurs in [l] before any occurrence of [y]. *)
Definition occurs_first (x y : string) (l : list string) : Prop :=
  ∃ i, l !! i = Some x ∧ ∀ j, l !! j = Some y → i < j.

(** [res] is the first item of [l] with the highest count. *)
Definition first_most (l : list (string * nat)) (res : string * nat) : Prop :=
  ∃ k, l !! k = Some res
       ∧ (∀ p, p ∈ l → p.2 ≤ res.2)
       ∧ (∀ k' p, k' < k → l !! k' = Some p → p.2 < res.2).

(** Every dictionary word is in normal form: lower case, no surrounding
    whitespace. *)
Definition normal_dictionary {T} (c : Corrector T) : Prop :=
  ∀ w, w ∈ dictionary c → strip (lower w) = w.

(** Some whitespace character of [s] stands directly before one of the
    six marks. *)
Fixpoint space_before_mark (s : string) : bool :=
  match s with
  | String a (String m _ as t) => (isspace a && is_mark m) || space_before_mark t
  | _ => false
  end.

(** The characters of [s] that are not whitespace, in order. *)
Fixpoint visible (s : string) : list ascii :=
  match s with
  | "" => []
  | String a t => if isspace a then visible t else a :: visible t
  end.

(** How often [x] is directly followed by [y] in the list [l]. *)
Definition pair_occurrences (x y : string) (l : list string) : nat :=
  List.length (filter (λ bg, bg = (x, y)) (corpus.bigrams l)).

(** The rows of a word/frequency table that are about the word [x]. *)
Definition rows_for (x : string) (rows : list (string * option Z))
  : list (string * option Z) :=
  filter (λ row, lower row.1 = x) rows.

(** What a corpus load may do to the two tables: no key is lost, and a
    key that is new is a lower-case alphabetic word, or two such words
    with a space between them. *)
Definition grows_alphabetically (h h' : corpus.CorpusHandler) : Prop :=
  (∀ k, is_Some (corpus.word_freq h !! k) → is_Some (corpus.word_freq h' !! k))
  ∧ (∀ k, is_Some (corpus.bigram_freq h !! k) → is_Some (corpus.bigram_freq h' !! k))
  ∧ (∀ k, is_Some (corpus.word_freq h' !! k) →
          is_Some (corpus.word_freq h !! k) ∨ (isalpha k = true ∧ lower k = k))
  ∧ (∀ k, is_Some (corpus.bigram_freq h' !! k) →
          is_Some (corpus.bigram_freq h !! k)
          ∨ ∃ x y, k = x +:+ " " +:+ y
                   ∧ isalpha x = true ∧ lower x = x
                   ∧ isalpha y = true ∧ lower y = y).

(** A character [lower] leaves as it is. *)
Definition unchanged_by_lower (a : ascii) : bool := bool_decide (lower_char a = a).

(** What holds of every entry of a confusion set built over
    [top_words]. *)
Definition confusion_entry (top_words : list string) (misspelled word : string) : Prop :=
  word ∈ top_words ∧ 3 < String.length word ∧ (misspelled ∉ top_words)
  ∧ ∃ orig repl, (orig, repl) ∈ corpus.patterns ∧ contains word orig = true
                 ∧ misspelled = replace word orig repl.

End notions.

(** ** Concrete collaborators and states for the examples *)

Module examples.
Import Py corrector.

(** Two iteration orders a set may show. *)
Definition ascending : SetIter :=
  {| set_iter := elements; set_iter_perm X := reflexivity _ |}.

Definition descending : SetIter :=
  {| set_iter X := reverse (elements X);
     set_iter_perm X := reverse_Permutation _ |}.

(** A suggester that never has a suggestion and learns nothing from
    [word_frequency.add]. *)
Definition silent : SpellChecker unit :=
  {| correction _ _ := None; word_frequency_add s _ := s |}.

(** A suggester that answers from a table of (word, suggestion) pairs
    and learns nothing from [word_frequency.add]. *)
Definition from_table : SpellChecker (list (string * string)) :=
  {| correction table w := (list_to_map table : gmap string string) !! w;
     word_frequency_add table _ := table |}.

(** A tokenizer that cuts at whitespace only. *)
Definition whitespace : Tokenizer := {| word_tokenize := split |}.

Definition new_corrector {T} (s : T) (words : list string) : Corrector T :=
  {| dictionary := list_to_set words;
     word_freq := ∅;
     spell_checker := s;
     user_corrections := ∅ |}.

(** A corrector holding the given (entry, frequency) pairs, each entry in
    the dictionary and in the frequency table as [add_to_dictionary]
    records it. *)
Definition with_frequencies {T} (s : T) (entries : list (string * Z)) : Corrector T :=
  {| dictionary := list_to_set entries.*1;
     word_freq := list_to_map entries;
     spell_checker := s;
     user_corrections := ∅ |}.

Definition empty_handler : corpus.CorpusHandler :=
  {| corpus.word_freq := ∅; corpus.bigram_freq := ∅ |}.

(** An order a dict may hand out its items in. *)
Definition in_key_order : corpus.DictIter :=
  {| corpus.dict_items := map_to_list;
     corpus.dict_items_perm m := reflexivity _ |}.

End examples.

(** * Properties *)

Import Py corrector.

(** ** The stable sort *)

Section Sorting.
Context {A : Type} (le : A → A → bool).

Lemma insert_by_perm x l : insert_by le x l ≡ₚ x :: l.
Proof.
  induction l as [|y l IH]; simpl; [done|].
  destruct (le x y); [done|].
  rewrite IH. apply Permutation_swap.
Qed.

Lemma sort_by_perm l : sort_by le l ≡ₚ l.
Proof.
  induction l as [|x l IH]; simpl; [done|].
  fold (sort_by le l). by rewrite insert_by_perm, IH.
Qed.

Hypothesis le_total : ∀ x y, le x y = true ∨ le y x = true.
Hypothesis le_trans : ∀ x y z, le x y = true → le y z = true → le x z = true.

Lemma insert_by_sorted x l :
  StronglySorted (λ a b, le a b = true) l →
  StronglySorted (λ a b, le a b = true) (insert_by le x l).
Proof.
  induction 1 as [|y l Hs IH Hy]; simpl.
  - repeat constructor.
  - destruct (le x y) eqn:Hxy.
    + constructor; [by constructor|].
      constructor; [done|].
      eapply Forall_impl; [exact Hy|]. intros z Hz. by eapply le_trans.
    + constructor; [done|].
      rewrite insert_by_perm. constructor; [|done].
      destruct (le_total x y); congruence.
Qed.

Lemma sort_by_sorted l : StronglySorted (λ a b, le a b = true) (sort_by le l).
Proof.
  induction l as [|x l IH]; simpl; [constructor|].
  by apply insert_by_sorted.
Qed.

End Sorting.

Lemma sort_by_nil_inv {A} (le : A → A → bool) l : sort_by le l = [] → l = [].
Proof.
  intros E. apply Permutation_nil_r. rewrite <- E. symmetry. apply sort_by_perm.
Qed.

Lemma sort_by_singleton {A} (le : A → A → bool) x : sort_by le [x] = [x].
Proof. reflexivity. Qed.

(** ** The vote over three proposals *)

Lemma vote_three (x y z w : string) :
  vote [x; y; z] w = if decide (y = z ∧ x ≠ y) then y else x.
Proof.
  unfold vote, Counter; simpl.
  destruct (decide (y = x)) as [->|Hyx]; simpl.
  - destruct (decide (z = x)) as [->|Hzx]; simpl;
      destruct (decide (_ ∧ _)); intuition congruence.
  - destruct (decide (z = x)) as [->|Hzx]; simpl.
    + destruct (decide (_ ∧ _)); intuition congruence.
    + destruct (decide (z = y)) as [->|Hzy]; simpl;
        destruct (decide (_ ∧ _)); intuition congruence.
Qed.

Import notions.

(** ** [correct_word] *)

Section CorrectWord.
Context `{Order : SetIter} {T : Type} `{Checker : SpellChecker T}.
Implicit Types (c : Corrector T) (token w : string).

Lemma correct_word_blank c token : blank token → correct_word c token = token.
Proof.
  intros [->|E]; [done|]. unfold correct_word.
  rewrite (bool_decide_eq_true_2 (strip token = "")) by done.
  by rewrite orb_true_r.
Qed.

Lemma correct_word_unfold c token :
  ¬ blank token →
  correct_word c token =
    let w := strip (lower token) in
    if decide (w ∈ dictionary c) then w
    else match user_corrections c !! w with
         | Some corr => corr
         | None => vote (corrections c w) w
         end.
Proof.
  intros Hb. unfold correct_word.
  rewrite !bool_decide_eq_false_2; [done| |]; intros E; apply Hb; [by right|by left].
Qed.

Lemma correct_word_known c token :
  ¬ blank token → strip (lower token) ∈ dictionary c →
  correct_word c token = strip (lower token).
Proof. intros Hb Hin. rewrite correct_word_unfold by done. simpl. by rewrite decide_True. Qed.

Lemma correct_word_user c token corr :
  ¬ blank token → strip (lower token) ∉ dictionary c →
  user_corrections c !! strip (lower token) = Some corr →
  correct_word c token = corr.
Proof.
  intros Hb Hin Hu. rewrite correct_word_unfold by done. simpl.
  by rewrite decide_False, Hu.
Qed.

Lemma correct_word_voted c token :
  ¬ blank token → strip (lower token) ∉ dictionary c →
  user_corrections c !! strip (lower token) = None →
  correct_word c token = vote (corrections c (strip (lower token))) (strip (lower token)).
Proof.
  intros Hb Hin Hu. rewrite correct_word_unfold by done. simpl.
  by rewrite decide_False, Hu.
Qed.

(** C1: a token that is not blank and whose normal form is neither a
    dictionary word nor a key of the user corrections gets three
    proposals, in this order: the suggester's answer for the normal form
    when it gives one that is not empty and the normal form itself when
    it gives none, Strategy A's first candidate, Strategy B's first
    candidate.  The result is the proposal with most votes; three
    different proposals give the suggester's, and A and B agreeing
    against the suggester win. *)
Theorem correct_word_plurality c token :
  ¬ blank token →
  let w := strip (lower token) in
  w ∉ dictionary c →
  user_corrections c !! w = None →
  let ext := match correction (spell_checker c) w with
             | Some suggestion => if decide (suggestion = "") then w else suggestion
             | None => w
             end in
  let a := first_or (_get_candidates c w 2) w in
  let b := first_or (_get_norvig_candidates c w 2) w in
  let r := correct_word c token in
  corrections c w = [ext; a; b]
  ∧ r ∈ [ext; a; b]
  ∧ (∀ x, votes_for x [ext; a; b] ≤ votes_for r [ext; a; b])
  ∧ (ext ≠ a → ext ≠ b → a ≠ b → r = ext)
  ∧ (a = b → ext ≠ a → r = a).
Proof.
  intros Hb w Hd Hu ext a b r.
  assert (Hext : ext = or_else (correction (spell_checker c) w) w).
  { unfold ext. by destruct (correction (spell_checker c) w) as [[|ch s]|]. }
  clearbody ext. subst ext.
  set (ext := or_else (correction (spell_checker c) w) w).
  assert (Hr : r = if decide (a = b ∧ ext ≠ a) then a else ext).
  { unfold r. rewrite correct_word_voted by done. apply vote_three. }
  split; [done|]. rewrite Hr. clear Hr r.
  destruct (decide (a = b ∧ ext ≠ a)) as [[-> Hne]|Hn].
  - repeat split.
    + right. left.
    + intros x. unfold votes_for. rewrite !filter_cons, filter_nil.
      repeat case_decide; simpl; try lia; congruence.
    + congruence.
  - repeat split.
    + left.
    + intros x. unfold votes_for. rewrite !filter_cons, filter_nil.
      repeat case_decide; simpl; try lia; subst; naive_solver.
    + intros ? ?. naive_solver.
Qed.

End CorrectWord.

(** ** Evaluating the neighbourhood filters on lists *)

Section Known.
Context `{Order : SetIter} {T : Type} `{Checker : SpellChecker T}.
Implicit Types (c : Corrector T) (token w : string).

Lemma elem_of_known c X x : x ∈ known c X ↔ x ∈ dictionary c ∧ x ∈ X.
Proof. unfold known. rewrite elem_of_filter. done. Qed.

Lemma elem_of_known_list c l x : x ∈ known_list c l ↔ x ∈ dictionary c ∧ x ∈ l.
Proof.
  unfold known_list. rewrite elem_of_list_to_set, list_elem_of_In, filter_In.
  rewrite bool_decide_eq_true, <- list_elem_of_In. tauto.
Qed.

Lemma elem_of_edits2 w x : x ∈ edits2 w ↔ x ∈ flat_map edits1_list (edits1_list w).
Proof.
  unfold edits2. rewrite elem_of_union_list, list_elem_of_In, in_flat_map. split.
  - intros (X & HX & Hx). apply list_elem_of_fmap in HX as (e1 & -> & He1).
    exists e1. rewrite <- !list_elem_of_In. split.
    + apply elem_of_elements in He1. unfold edits1 in He1.
      by apply elem_of_list_to_set in He1.
    + unfold edits1 in Hx. by apply elem_of_list_to_set in Hx.
  - intros (e1 & He1 & Hx). rewrite <- !list_elem_of_In in *.
    exists (edits1 e1). split.
    + apply list_elem_of_fmap. exists e1. split; [done|].
      apply elem_of_elements. unfold edits1. by apply elem_of_list_to_set.
    + unfold edits1. by apply elem_of_list_to_set.
Qed.

Lemma known_edits1 c w : known c (edits1 w) = known_list c (edits1_list w).
Proof.
  apply set_eq. intros x. rewrite elem_of_known, elem_of_known_list.
  unfold edits1. by rewrite elem_of_list_to_set.
Qed.

Lemma known_edits2 c w :
  known c (edits2 w) = known_list c (flat_map edits1_list (edits1_list w)).
Proof.
  apply set_eq. intros x. rewrite elem_of_known, elem_of_known_list.
  by rewrite elem_of_edits2.
Qed.

End Known.

(** Bring a closed call of Strategy B into a form that evaluates fast. *)
Ltac eval_norvig :=
  unfold _get_norvig_candidates; rewrite ?known_edits1, ?known_edits2.

(** Decide a closed proposition by evaluation. *)
Ltac by_eval := apply (bool_decide_unpack _); vm_compute; exact I.

(** ** Normalising a word: [w.lower().strip()] *)

Lemma lower_char_idem a : lower_char (lower_char a) = lower_char a.
Proof. by destruct a as [[] [] [] [] [] [] [] []]. Qed.

Lemma isspace_lower_char a : isspace (lower_char a) = isspace a.
Proof. by destruct a as [[] [] [] [] [] [] [] []]. Qed.

Lemma lower_idem s : lower (lower s) = lower s.
Proof. induction s as [|a s IH]; simpl; [done|]. by rewrite lower_char_idem, IH. Qed.

Lemma lower_lstrip s : lower (lstrip s) = lstrip (lower s).
Proof.
  induction s as [|a s IH]; simpl; [done|].
  rewrite isspace_lower_char. by destruct (isspace a).
Qed.

Lemma lower_rstrip s : lower (rstrip s) = rstrip (lower s).
Proof.
  induction s as [|a s IH]; simpl; [done|].
  rewrite <- IH, isspace_lower_char.
  destruct (rstrip s); simpl; [by destruct (isspace a)|done].
Qed.

Lemma lower_strip s : lower (strip s) = strip (lower s).
Proof. unfold strip. by rewrite lower_rstrip, lower_lstrip. Qed.

Lemma rstrip_idem s : rstrip (rstrip s) = rstrip s.
Proof.
  induction s as [|a s IH]; simpl; [done|].
  destruct (rstrip s) as [|b r] eqn:E.
  - destruct (isspace a) eqn:Ea; simpl; [done|]. by rewrite Ea.
  - simpl in *. by rewrite IH.
Qed.

Lemma rstrip_cons a s : isspace a = false → rstrip (String a s) = String a (rstrip s).
Proof. intros Ea. simpl. rewrite Ea. by destruct (rstrip s). Qed.

Lemma lstrip_cases s :
  lstrip s = "" ∨ ∃ a r, lstrip s = String a r ∧ isspace a = false.
Proof.
  induction s as [|a s IH]; simpl; [by left|].
  destruct (isspace a) eqn:Ea; [done|]. right. by exists a, s.
Qed.

Lemma strip_idem s : strip (strip s) = strip s.
Proof.
  unfold strip. destruct (lstrip_cases s) as [->|(a & r & -> & Ea)]; [done|].
  rewrite rstrip_cons by done. simpl. rewrite Ea.
  rewrite <- rstrip_cons by done. apply rstrip_idem.
Qed.

(** Normalising twice is normalising once. *)
Lemma normalise_idem s : strip (lower (strip (lower s))) = strip (lower s).
Proof. by rewrite lower_strip, lower_idem, strip_idem. Qed.

Lemma strip_nonempty s : strip s ≠ "" → s ≠ "".
Proof. by intros Hs ->. Qed.

Lemma lower_eq_empty s : lower s = "" → s = "".
Proof. by destruct s. Qed.

(** A word that is not blank does not become blank when normalised. *)
Lemma strip_lower_nonempty s : strip s ≠ "" → strip (lower s) ≠ "".
Proof. rewrite <- lower_strip. intros Hs E. by apply Hs, lower_eq_empty. Qed.

Section Overrides.
Context `{Order : SetIter} {T : Type} `{Checker : SpellChecker T}.
Implicit Types (c : Corrector T) (token w : string).

(** A dictionary word that is its own normal form (lower case, no
    surrounding whitespace) is returned as it is, whatever the user
    corrections, the suggester and the frequencies hold. *)
Lemma correct_word_fixed_point c w :
  w ∈ dictionary c → strip (lower w) = w → correct_word c w = w.
Proof.
  intros Hin Hn. destruct (decide (blank w)) as [Hb|Hb].
  - by apply correct_word_blank.
  - rewrite correct_word_known; [done..|]. by rewrite Hn.
Qed.

Lemma add_user_correction_entry c m corr :
  user_corrections (add_user_correction c m corr) !! strip (lower m)
  = Some (strip (lower corr)).
Proof.
  unfold add_user_correction. simpl.
  destruct (decide _); simpl; apply lookup_insert_eq.
Qed.

Lemma add_user_correction_dictionary c m corr :
  dictionary (add_user_correction c m corr) = dictionary c ∪ {[strip (lower corr)]}.
Proof.
  unfold add_user_correction. simpl.
  destruct (decide _) as [Hin|Hin]; simpl.
  - apply set_eq. intros x. rewrite elem_of_union, elem_of_singleton.
    split; [tauto|]. by intros [?| ->].
  - by rewrite normalise_idem.
Qed.


Lemma elem_of_set_iter (X : gset string) x : x ∈ set_iter X ↔ x ∈ X.
Proof. by rewrite set_iter_perm, elem_of_elements. Qed.

Lemma NoDup_set_iter (X : gset string) : NoDup (set_iter X).
Proof. rewrite set_iter_perm. apply NoDup_elements. Qed.

End Overrides.

(** ** The edit distance is the Levenshtein distance *)

Lemma levenshtein_table_0_r a b i : levenshtein_table a b i 0 = i.
Proof. by destruct i. Qed.

Lemma levenshtein_table_step a b i j :
  levenshtein_table a b (S i) (S j)
  = (levenshtein_table a b i (S j) + 1)
      `min` ((levenshtein_table a b (S i) j + 1)
      `min` (levenshtein_table a b i j + mismatch a b i j)).
Proof. reflexivity. Qed.

Lemma mismatch_sym a b i j : mismatch a b i j = mismatch b a j i.
Proof. unfold mismatch. repeat case_decide; congruence. Qed.

Lemma levenshtein_table_sym a b i j :
  levenshtein_table a b i j = levenshtein_table b a j i.
Proof.
  revert j. induction i as [|i IHi]; intros j.
  - by rewrite levenshtein_table_0_r.
  - induction j as [|j IHj].
    + by rewrite levenshtein_table_0_r.
    + rewrite !levenshtein_table_step, IHj, !IHi, (mismatch_sym a b). lia.
Qed.

Lemma get_mismatch a b i j c1 c2 :
  String.get i a = Some c1 → String.get j b = Some c2 →
  mismatch a b i j = if decide (c1 = c2) then 0 else 1.
Proof.
  intros Ha Hb. unfold mismatch. rewrite Ha, Hb.
  repeat case_decide; congruence.
Qed.

(** The inner loop fills row [i + 1] from column [j + 1] on. *)
Lemma levenshtein_row_table a b i c1 :
  String.get i a = Some c1 →
  ∀ s2 j previous_row left,
    (∀ k, String.get (j + k) b = String.get k s2) →
    previous_row = levenshtein_table a b i <$> seq j (String.length s2 + 1) →
    left = levenshtein_table a b (S i) j →
    levenshtein_row c1 s2 previous_row left
    = levenshtein_table a b (S i) <$> seq (S j) (String.length s2).
Proof.
  intros Ha. induction s2 as [|c2 s2 IH]; intros j previous_row left Hb -> ->.
  - reflexivity.
  - assert (Hc2 : String.get j b = Some c2).
    { specialize (Hb 0). by rewrite Nat.add_0_r in Hb. }
    simpl String.length.
    replace (S (String.length s2) + 1) with (S (S (String.length s2))) by lia.
    cbn [levenshtein_row seq fmap list_fmap]. f_equal.
    + rewrite levenshtein_table_step, (get_mismatch a b i j c1 c2) by done. done.
    + apply IH.
      * intros k. specialize (Hb (S k)). simpl in Hb. rewrite <- Hb. f_equal. lia.
      * by replace (String.length s2 + 1) with (S (String.length s2)) by lia.
      * rewrite levenshtein_table_step, (get_mismatch a b i j c1 c2) by done. done.
Qed.

(** The outer loop ends with the last row of the table. *)
Lemma levenshtein_rows_table a b :
  ∀ s1 i previous_row,
    (∀ k, String.get (i + k) a = String.get k s1) →
    String.length a = i + String.length s1 →
    previous_row = levenshtein_table a b i <$> seq 0 (String.length b + 1) →
    levenshtein_rows i s1 b previous_row
    = levenshtein_table a b (String.length a) <$> seq 0 (String.length b + 1).
Proof.
  induction s1 as [|c1 s1 IH]; intros i previous_row Ha Hlen ->.
  - simpl in *. by replace i with (String.length a) by lia.
  - assert (Hc1 : String.get i a = Some c1).
    { specialize (Ha 0). by rewrite Nat.add_0_r in Ha. }
    simpl. apply IH.
    + intros k. specialize (Ha (S k)). simpl in Ha. rewrite <- Ha. f_equal. lia.
    + simpl in Hlen. lia.
    + rewrite (levenshtein_row_table a b i c1 Hc1 b 0 _ (i + 1)); try done.
      * replace (String.length b + 1) with (S (String.length b)) by lia.
        simpl. f_equal. lia.
      * simpl. lia.
Qed.

Lemma last_table_row (f : nat → nat) n : List.last (f <$> seq 0 (n + 1)) 0 = f n.
Proof.
  replace (n + 1) with (S n) by lia. rewrite seq_S, fmap_app. simpl.
  apply last_last.
Qed.

Lemma levenshtein_body_table a b : levenshtein_body a b = levenshtein a b.
Proof.
  unfold levenshtein_body, levenshtein.
  destruct (Nat.eqb_spec (String.length b) 0) as [E|E].
  - by rewrite E, levenshtein_table_0_r.
  - rewrite (levenshtein_rows_table a b a 0 (seq 0 (String.length b + 1))).
    + apply last_table_row.
    + done.
    + done.
    + exact (eq_sym (list_fmap_id _)).
Qed.

(** The distance the code computes is the Levenshtein distance. *)
Lemma calculate_levenshtein_distance_table a b :
  _calculate_levenshtein_distance a b = levenshtein a b.
Proof.
  unfold _calculate_levenshtein_distance.
  destruct (_ <? _); rewrite levenshtein_body_table; [|done].
  unfold levenshtein. apply levenshtein_table_sym.
Qed.

Lemma calculate_levenshtein_distance_sym a b :
  _calculate_levenshtein_distance a b = _calculate_levenshtein_distance b a.
Proof.
  rewrite !calculate_levenshtein_distance_table. unfold levenshtein.
  apply levenshtein_table_sym.
Qed.

(** *** The sort is stable *)

Section Stable.
Context {A : Type} (le : A → A → bool).

Lemma insert_by_sublist x l : l `sublist_of` insert_by le x l.
Proof.
  induction l as [|z l IH]; simpl; [apply sublist_nil_l|].
  destruct (le x z); [by apply sublist_cons|by apply sublist_skip].
Qed.

Lemma insert_by_before x y l :
  le x y = true → y ∈ l → [x; y] `sublist_of` insert_by le x l.
Proof.
  intros Hxy. induction l as [|z l IH]; [by intros ?%elem_of_nil|].
  intros Hy. simpl. destruct (le x z) eqn:Hxz.
  - apply sublist_skip. by apply singleton_sublist_l.
  - apply elem_of_cons in Hy as [->|Hy]; [congruence|].
    apply sublist_cons. by apply IH.
Qed.

(** An element that may stand before a later one does so after the
    sort; elements that compare equal keep their order. *)
Lemma sort_by_stable x y l :
  le x y = true → [x; y] `sublist_of` l → [x; y] `sublist_of` sort_by le l.
Proof.
  intros Hxy. induction l as [|z l IH]; [by intros ?%sublist_nil_r|].
  change (sort_by le (z :: l)) with (insert_by le z (sort_by le l)).
  intros [Hsub|(l' & [= <- <-] & Hy)]%sublist_cons_r.
  - etrans; [by apply IH|apply insert_by_sublist].
  - apply insert_by_before; [done|].
    rewrite sort_by_perm. by apply singleton_sublist_l.
Qed.

End Stable.

Lemma filter_sublist_mono {A} (P : A → Prop) `{!∀ x, Decision (P x)} (l1 l2 : list A) :
  l1 `sublist_of` l2 → filter P l1 `sublist_of` filter P l2.
Proof.
  induction 1 as [|x l1 l2 _ IH|x l1 l2 _ IH]; [done|..]; rewrite ?filter_cons.
  - case_decide; [by apply sublist_skip|done].
  - case_decide; [by apply sublist_cons|done].
Qed.

Lemma ranked_before_sublist x y (l : list string) :
  ranked_before x y l ↔ [x; y] `sublist_of` l.
Proof.
  split.
  - intros (i & j & Hi & Hj & Hij).
    rewrite <- (take_drop_middle l i x Hi). apply sublist_inserts_l, sublist_skip.
    apply singleton_sublist_l, list_elem_of_lookup. exists (j - S i).
    rewrite lookup_drop. by replace (S i + (j - S i)) with j by lia.
  - induction l as [|z l IH]; [by intros ?%sublist_nil_r|].
    intros [Hsub|(l' & [= <- <-] & Hy)]%sublist_cons_r.
    + destruct (IH Hsub) as (i & j & Hi & Hj & Hij). exists (S i), (S j).
      split; [done|]. split; [done|lia].
    + apply singleton_sublist_l, list_elem_of_lookup in Hy as [j Hj].
      exists 0, (S j). split; [done|]. split; [done|lia].
Qed.

(** ** Strategy A *)

Lemma StronglySorted_with {A} (R : relation A) (P : A → Prop) l :
  StronglySorted R l → Forall P l →
  StronglySorted (λ x y, R x y ∧ P x ∧ P y) l.
Proof.
  induction 1 as [|x l Hs IH Hx]; intros HP; [constructor|].
  apply Forall_cons in HP as [Px HP].
  constructor; [by apply IH|].
  rewrite Forall_forall in *. intros y Hy. eauto.
Qed.

Lemma StronglySorted_ranked {A} (R : relation A) l x y i j :
  StronglySorted R l → l !! i = Some x → l !! j = Some y → i < j → R x y.
Proof.
  intros Hs. revert i j. induction Hs as [|a l Hs IH Ha]; intros i j Hi Hj Hij.
  - done.
  - destruct j as [|j]; [lia|]. destruct i as [|i]; simpl in *.
    + simplify_eq. rewrite Forall_forall in Ha. apply Ha.
      by eapply list_elem_of_lookup_2.
    + eapply IH; eauto with lia.
Qed.

Section StrategyA.
Context `{Order : SetIter} {T : Type} `{Checker : SpellChecker T}.
Implicit Types (c : Corrector T) (w x y : string) (md : Z).

Local Abbreviation lev := _calculate_levenshtein_distance.

Lemma get_candidates_known c w md : w ∈ dictionary c → _get_candidates c w md = [w].
Proof. intros Hin. unfold _get_candidates. by rewrite decide_True. Qed.

Lemma get_candidates_scan c w md :
  w ∉ dictionary c →
  _get_candidates c w md = (sort_by (candidate_le c) (scanned c w md)).*1.
Proof. intros Hin. unfold _get_candidates. by rewrite decide_False. Qed.

Lemma scanned_words c w md :
  (scanned c w md).*1 = filter (λ d, (Z.of_nat (lev w d) ≤ md)%Z) (set_iter (dictionary c)).
Proof.
  unfold scanned. induction (set_iter (dictionary c)) as [|d l IH]; [done|].
  rewrite fmap_cons, !filter_cons. simpl.
  destruct (decide _); [rewrite fmap_cons; simpl; f_equal|]; exact IH.
Qed.

Lemma scanned_distance c w md :
  Forall (λ p, p.2 = lev w p.1) (scanned c w md).
Proof.
  unfold scanned. apply Forall_forall. intros p Hp.
  apply list_elem_of_filter in Hp as [_ Hp].
  by apply list_elem_of_fmap in Hp as (d & -> & _).
Qed.

Lemma get_candidates_perm c w md :
  w ∉ dictionary c →
  _get_candidates c w md
  ≡ₚ filter (λ d, (Z.of_nat (lev w d) ≤ md)%Z) (set_iter (dictionary c)).
Proof.
  intros Hin. rewrite get_candidates_scan by done.
  by rewrite sort_by_perm, scanned_words.
Qed.

Lemma elem_of_get_candidates c w md x :
  w ∉ dictionary c →
  x ∈ _get_candidates c w md ↔ x ∈ dictionary c ∧ (Z.of_nat (lev w x) ≤ md)%Z.
Proof.
  intros Hin. rewrite get_candidates_perm by done.
  rewrite list_elem_of_filter, elem_of_set_iter. tauto.
Qed.

Lemma NoDup_get_candidates c w md : NoDup (_get_candidates c w md).
Proof.
  destruct (decide (w ∈ dictionary c)).
  - rewrite get_candidates_known by done. apply NoDup_singleton.
  - rewrite get_candidates_perm by done. apply NoDup_filter, NoDup_set_iter.
Qed.

Lemma candidate_le_total c (p q : string * nat) :
  candidate_le c p q = true ∨ candidate_le c q p = true.
Proof.
  unfold candidate_le.
  destruct (Nat.ltb_spec p.2 q.2), (Nat.ltb_spec q.2 p.2); simpl; auto; try lia.
  rewrite !(proj2 (Nat.eqb_eq _ _)) by lia. simpl.
  destruct (Z.leb_spec (- freq c p.1) (- freq c q.1)); [by left|].
  right. apply Z.leb_le. lia.
Qed.

Lemma candidate_le_spec c (p q : string * nat) :
  candidate_le c p q = true ↔ p.2 < q.2 ∨ (p.2 = q.2 ∧ (freq c q.1 ≤ freq c p.1)%Z).
Proof.
  unfold candidate_le.
  rewrite orb_true_iff, andb_true_iff, Nat.ltb_lt, Nat.eqb_eq, Z.leb_le. lia.
Qed.

Lemma candidate_le_trans c (p q r : string * nat) :
  candidate_le c p q = true → candidate_le c q r = true → candidate_le c p r = true.
Proof. rewrite !candidate_le_spec. lia. Qed.

Lemma get_candidates_sorted c w md :
  w ∉ dictionary c → StronglySorted (ranks_no_later c w) (_get_candidates c w md).
Proof.
  intros Hin. rewrite get_candidates_scan by done.
  eapply (StronglySorted_fmap fst
            (λ p q, candidate_le c p q = true ∧ p.2 = lev w p.1 ∧ q.2 = lev w q.1)).
  - intros p q (Hle & Hp & Hq). apply candidate_le_spec in Hle.
    unfold ranks_no_later. rewrite <- Hp, <- Hq. done.
  - apply StronglySorted_with.
    + apply sort_by_sorted; [apply candidate_le_total|apply candidate_le_trans].
    + rewrite sort_by_perm. apply scanned_distance.
Qed.

Lemma get_candidates_nil c w md :
  _get_candidates c w md = [] ↔
  (w ∉ dictionary c) ∧ (∀ d, d ∈ dictionary c → (md < Z.of_nat (lev w d))%Z).
Proof.
  split.
  - intros E. destruct (decide (w ∈ dictionary c)) as [Hin|Hin].
    { by rewrite get_candidates_known in E. }
    split; [done|]. intros d Hd.
    destruct (decide (md < Z.of_nat (lev w d))%Z); [done|].
    assert (d ∈ _get_candidates c w md) as Hd'.
    { apply elem_of_get_candidates; [done|]. split; [done|lia]. }
    rewrite E in Hd'. by apply elem_of_nil in Hd'.
  - intros [Hin Hfar]. destruct (_get_candidates c w md) as [|x l] eqn:E; [done|].
    assert (x ∈ _get_candidates c w md) as Hx by (rewrite E; left).
    apply elem_of_get_candidates in Hx as [Hx Hle]; [|done].
    apply Hfar in Hx. lia.
Qed.

(** A word that ranks no later than one the scan meets after it stands
    before that one in the result. *)
Lemma get_candidates_stable c w md x y :
  w ∉ dictionary c →
  x ∈ _get_candidates c w md → y ∈ _get_candidates c w md →
  ranks_no_later c w x y →
  ranked_before x y (set_iter (dictionary c)) →
  ranked_before x y (_get_candidates c w md).
Proof.
  intros Hd Hx Hy Hrank Hbefore.
  apply elem_of_get_candidates in Hx as [_ Hx]; [|done].
  apply elem_of_get_candidates in Hy as [_ Hy]; [|done].
  apply ranked_before_sublist. apply ranked_before_sublist in Hbefore.
  unfold _get_candidates. rewrite decide_False by done. cbv zeta.
  set (f := λ d : string, (d, lev w d)).
  change [x; y] with ((f <$> [x; y]).*1)%list. apply fmap_sublist.
  apply sort_by_stable.
  - apply candidate_le_spec. exact Hrank.
  - assert (Hfil : filter (λ p : string * nat, (Z.of_nat p.2 ≤ md)%Z) [f x; f y]
                   = [f x; f y]).
    { rewrite !filter_cons, filter_nil. unfold f. cbn [snd].
      by rewrite !decide_True by done. }
    cbn [fmap list_fmap]. rewrite <- Hfil. apply filter_sublist_mono.
    change [f x; f y] with (f <$> [x; y]). by apply fmap_sublist.
Qed.

Lemma ranked_before_asym (l : list string) x y :
  NoDup l → ranked_before x y l → ranked_before y x l → False.
Proof.
  intros Hnd (i & j & Hi & Hj & Hij) (i' & j' & Hi' & Hj' & Hij').
  pose proof (NoDup_lookup _ _ _ _ Hnd Hi Hj').
  pose proof (NoDup_lookup _ _ _ _ Hnd Hj Hi'). lia.
Qed.

Lemma ranked_before_total (l : list string) x y :
  x ∈ l → y ∈ l → x ≠ y → ranked_before x y l ∨ ranked_before y x l.
Proof.
  intros [i Hi]%list_elem_of_lookup [j Hj]%list_elem_of_lookup Hne.
  destruct (Nat.lt_total i j) as [Hlt|[->|Hgt]].
  - left. by exists i, j.
  - congruence.
  - right. by exists j, i.
Qed.

(** Words equal in distance and frequency stand in the order in which
    the scan met them. *)
Lemma get_candidates_ties c w md x y :
  w ∉ dictionary c →
  x ∈ _get_candidates c w md → y ∈ _get_candidates c w md →
  lev w x = lev w y → freq c x = freq c y →
  ranked_before x y (_get_candidates c w md)
  ↔ ranked_before x y (set_iter (dictionary c)).
Proof.
  intros Hd Hx Hy Hlev Hfreq. split.
  - intros Hr.
    assert (Hne : x ≠ y).
    { intros ->.
      apply (ranked_before_asym (_get_candidates c w md) y y);
        [apply NoDup_get_candidates|done|done]. }
    pose proof Hx as Hx'. pose proof Hy as Hy'.
    apply elem_of_get_candidates in Hx' as [Hx' _]; [|done].
    apply elem_of_get_candidates in Hy' as [Hy' _]; [|done].
    destruct (ranked_before_total (set_iter (dictionary c)) x y) as [?|Hyx];
      [by apply elem_of_set_iter..|done|done|].
    exfalso. apply (ranked_before_asym (_get_candidates c w md) x y);
      [apply NoDup_get_candidates|exact Hr|].
    apply get_candidates_stable; [done..| |done].
    right. split; [done|lia].
  - apply get_candidates_stable; [done..|]. right. split; [done|lia].
Qed.

(** C5, as the code has it.  The distance computed is the Levenshtein
    distance of the standard recurrence.  A dictionary word is its own
    single candidate.  For any other word Strategy A returns, each once,
    the dictionary words within the threshold, nearer words first and,
    among words equally near, in descending frequency, a word without a
    recorded frequency counting as frequency 0: in its tier it stands
    after the words of positive frequency and before those of negative
    frequency.  Words equal in distance and frequency stand in the order
    in which the set hands them out.  For the dictionary of hello, help
    and hold and the word helo at threshold 2, hello and help are both
    at distance 1 and stand before hold; hello is first when it is the
    more frequent, and at equal frequency exactly when the set hands it
    out first. *)
Theorem strategy_a_ranking :
  (∀ a b, lev a b = levenshtein a b)
  ∧ (∀ c w md, w ∈ dictionary c → _get_candidates c w md = [w])
  ∧ (∀ c w md, w ∉ dictionary c →
       let r := _get_candidates c w md in
       NoDup r
       ∧ (∀ x, x ∈ r ↔ x ∈ dictionary c ∧ (Z.of_nat (lev w x) ≤ md)%Z)
       ∧ StronglySorted (ranks_no_later c w) r
       ∧ (∀ x y, lev w x = lev w y → word_freq c !! x = None →
                 (ranked_before x y r → (freq c y ≤ 0)%Z)
                 ∧ (ranked_before y x r → (0 ≤ freq c y)%Z))
       ∧ (∀ x y, x ∈ r → y ∈ r → lev w x = lev w y → freq c x = freq c y →
                 (ranked_before x y r ↔ ranked_before x y (set_iter (dictionary c)))))
  ∧ (∀ c, dictionary c = list_to_set ["hello"; "help"; "hold"] →
       let r := _get_candidates c "helo" 2 in
       lev "helo" "hello" = 1 ∧ lev "helo" "help" = 1 ∧ lev "helo" "hold" = 2
       ∧ (r = ["hello"; "help"; "hold"] ∨ r = ["help"; "hello"; "hold"])
       ∧ ((freq c "help" < freq c "hello")%Z → r = ["hello"; "help"; "hold"])
       ∧ (freq c "help" = freq c "hello" →
          (r = ["hello"; "help"; "hold"]
           ↔ ranked_before "hello" "help" (set_iter (dictionary c))))).
Proof.
  split; [exact calculate_levenshtein_distance_table|].
  split; [exact get_candidates_known|].
  assert (General : ∀ c w md, w ∉ dictionary c →
       let r := _get_candidates c w md in
       NoDup r
       ∧ (∀ x, x ∈ r ↔ x ∈ dictionary c ∧ (Z.of_nat (lev w x) ≤ md)%Z)
       ∧ StronglySorted (ranks_no_later c w) r
       ∧ (∀ x y, lev w x = lev w y → word_freq c !! x = None →
                 (ranked_before x y r → (freq c y ≤ 0)%Z)
                 ∧ (ranked_before y x r → (0 ≤ freq c y)%Z))
       ∧ (∀ x y, x ∈ r → y ∈ r → lev w x = lev w y → freq c x = freq c y →
                 (ranked_before x y r ↔ ranked_before x y (set_iter (dictionary c))))).
  { intros c w md Hin r. split; [apply NoDup_get_candidates|].
    split; [intros x; by apply elem_of_get_candidates|].
    split; [by apply get_candidates_sorted|]. split.
    - intros x y Hxy Hx.
      assert (Hfx : freq c x = 0%Z) by (unfold freq; by rewrite Hx).
      split; intros (i & j & Hi & Hj & Hij);
        pose proof (StronglySorted_ranked _ _ _ _ _ _
                      (get_candidates_sorted c w md Hin) Hi Hj Hij) as [Hlt|[_ Hle]]; lia.
    - intros x y Hx Hy Hlev Hfreq. by apply get_candidates_ties. }
  split; [exact General|].
  intros c Hd r.
  assert (Hin : "helo" ∉ dictionary c) by (rewrite Hd; by_eval).
  assert (D1 : lev "helo" "hello" = 1) by reflexivity.
  assert (D2 : lev "helo" "help" = 1) by reflexivity.
  assert (D3 : lev "helo" "hold" = 2) by reflexivity.
  assert (Hperm : r ≡ₚ ["hello"; "help"; "hold"]).
  { apply NoDup_Permutation.
    - apply NoDup_get_candidates.
    - by_eval.
    - intros x. unfold r. rewrite elem_of_get_candidates by done.
      rewrite Hd, elem_of_list_to_set. split; [tauto|].
      intros Hx. split; [done|].
      repeat (apply elem_of_cons in Hx as [->|Hx]; [by vm_compute|]).
      by apply elem_of_nil in Hx. }
  destruct (General c "helo" 2%Z Hin) as (_ & _ & Hs & _ & Hties). fold r in Hs, Hties.
  assert (Hhello : "hello" ∈ r) by (rewrite Hperm; left).
  assert (Hhelp : "help" ∈ r) by (rewrite Hperm; right; left).
  pose proof (λ x y i j, StronglySorted_ranked _ _ x y i j Hs) as Hr.
  pose proof (λ Hf, Hties "hello" "help" Hhello Hhelp (eq_trans D1 (eq_sym D2)) Hf) as Htie.
  clearbody r. clear Hs Hties Hhello Hhelp General.
  split; [done|]. split; [done|]. split; [done|].
  assert (Hcases : r = ["hello"; "help"; "hold"] ∨ r = ["help"; "hello"; "hold"]).
  { symmetry in Hperm. apply permutations_Permutation in Hperm.
    unfold ranks_no_later in Hr.
    repeat (apply elem_of_cons in Hperm as [->|Hperm]);
      [..|by apply elem_of_nil in Hperm];
      pose proof (Hr _ _ 0 1 eq_refl eq_refl) as H01;
      pose proof (Hr _ _ 0 2 eq_refl eq_refl) as H02;
      pose proof (Hr _ _ 1 2 eq_refl eq_refl) as H12;
      rewrite ?D1, ?D2, ?D3 in H01, H02, H12;
      try (exfalso; lia); tauto. }
  split; [exact Hcases|]. split.
  - intros Hf. destruct Hcases as [->| ->]; [done|]. exfalso.
    unfold ranks_no_later in Hr.
    pose proof (Hr _ _ 0 1 eq_refl eq_refl) as H01.
    rewrite ?D1, ?D2 in H01. lia.
  - intros Hf. symmetry in Hf. rewrite <- (Htie Hf). clear Htie Hr.
    destruct Hcases as [->| ->].
    + split; [intros _|done]. exists 0, 1. split; [done|]. split; [done|lia].
    + split; [discriminate|]. intros (i & j & Hi & Hj & Hij). exfalso.
      destruct i as [|[|[|i]]]; try discriminate Hi.
      destruct j as [|[|[|j]]]; try discriminate Hj. lia.
Qed.

End StrategyA.

(** ** Strategy B *)

Lemma append_nil_l (R : string) : "" +:+ R = R.
Proof. reflexivity. Qed.

Lemma append_cons a (L R : string) : String a L +:+ R = String a (L +:+ R).
Proof. reflexivity. Qed.

Lemma elem_of_splits w L R : (L, R) ∈ splits w ↔ w = L +:+ R.
Proof.
  revert L R. induction w as [|a w IH]; intros L R; simpl.
  - rewrite list_elem_of_singleton. split.
    + by intros [= -> ->].
    + destruct L; [rewrite append_nil_l; by intros <-|by rewrite append_cons].
  - rewrite elem_of_cons, list_elem_of_fmap. split.
    + intros [[= -> ->]|([L' R'] & [= -> ->] & Hin)]; [done|].
      apply IH in Hin as ->. done.
    + destruct L as [|b L].
      * rewrite append_nil_l. intros <-. by left.
      * rewrite append_cons. intros [= <- ->]. right. exists (L, R).
        split; [done|]. by apply IH.
Qed.

Lemma elem_of_edits1_list w x : x ∈ edits1_list w ↔ one_edit w x.
Proof.
  unfold edits1_list, deletes, transposes, replaces, inserts.
  rewrite !elem_of_app, !list_elem_of_In, !in_flat_map. split.
  - intros [H|[H|[H|H]]]; destruct H as ([L R] & HLR & Hx);
      apply list_elem_of_In, elem_of_splits in HLR as ->;
      apply list_elem_of_In in Hx.
    + destruct R as [|a R]; [by apply elem_of_nil in Hx|].
      apply list_elem_of_singleton in Hx as ->. constructor.
    + destruct R as [|a [|b R]]; try by apply elem_of_nil in Hx.
      apply list_elem_of_singleton in Hx as ->. constructor.
    + destruct R as [|a R]; [by apply elem_of_nil in Hx|].
      apply list_elem_of_fmap in Hx as (l & -> & Hl). by constructor.
    + apply list_elem_of_fmap in Hx as (l & -> & Hl). by constructor.
  - intros Hx. destruct Hx as [L a R|L a b R|L a R l Hl|L R l Hl].
    + left. exists (L, String a R). rewrite <- !list_elem_of_In.
      split; [by apply elem_of_splits|]. by apply list_elem_of_singleton.
    + right; left. exists (L, String a (String b R)). rewrite <- !list_elem_of_In.
      split; [by apply elem_of_splits|]. by apply list_elem_of_singleton.
    + right; right; left. exists (L, String a R). rewrite <- !list_elem_of_In.
      split; [by apply elem_of_splits|]. apply list_elem_of_fmap. by exists l.
    + right; right; right. exists (L, R). rewrite <- !list_elem_of_In.
      split; [by apply elem_of_splits|]. apply list_elem_of_fmap. by exists l.
Qed.

Lemma elem_of_edits1 w x : x ∈ edits1 w ↔ one_edit w x.
Proof. unfold edits1. by rewrite elem_of_list_to_set, elem_of_edits1_list. Qed.

Lemma elem_of_edits2_spec w x : x ∈ edits2 w ↔ two_edits w x.
Proof.
  rewrite elem_of_edits2, list_elem_of_In, in_flat_map. unfold two_edits.
  split; intros (e & He & Hx); exists e;
    rewrite <- ?list_elem_of_In, ?elem_of_edits1_list in *; done.
Qed.

Section StrategyB.
Context `{Order : SetIter} {T : Type} `{Checker : SpellChecker T}.
Implicit Types (c : Corrector T) (w x y : string).

Lemma norvig_candidates_unfold c w :
  w ∉ dictionary c →
  _get_norvig_candidates c w 2 =
    let near := known c (edits1 w) in
    let found := if decide (near = ∅) then known c (edits2 w) else near in
    let l := sort_by (more_frequent c) (set_iter found) in
    match l with
    | [] => [w]
    | _ => l
    end.
Proof.
  intros Hin. unfold _get_norvig_candidates.
  rewrite (decide_True (P := (1 ≤ 2)%Z)) by lia.
  rewrite (decide_True (P := (2 ≤ 2)%Z)) by lia.
  rewrite (decide_False (P := w ∈ dictionary c)) by done.
  rewrite !(left_id_L ∅ (∪)). simpl.
  destruct (decide (known c (edits1 w) = ∅)) as [->|?]; [|done].
  by rewrite (left_id_L ∅ (∪)).
Qed.

Lemma set_iter_nil (X : gset string) : set_iter X = [] ↔ X = ∅.
Proof.
  split.
  - intros E. apply set_eq. intros x. rewrite <- elem_of_set_iter, E. set_solver.
  - intros ->. apply Permutation_nil_r. by rewrite set_iter_perm, elements_empty.
Qed.

Lemma norvig_candidates_near c w :
  w ∉ dictionary c → known c (edits1 w) ≠ ∅ →
  _get_norvig_candidates c w 2
  = sort_by (more_frequent c) (set_iter (known c (edits1 w))).
Proof.
  intros Hin Hne. rewrite norvig_candidates_unfold by done. simpl.
  rewrite decide_False by done.
  destruct (sort_by _ _) eqn:E; [|done].
  by apply sort_by_nil_inv, set_iter_nil in E.
Qed.

Lemma norvig_candidates_far c w :
  w ∉ dictionary c → known c (edits1 w) = ∅ → known c (edits2 w) ≠ ∅ →
  _get_norvig_candidates c w 2
  = sort_by (more_frequent c) (set_iter (known c (edits2 w))).
Proof.
  intros Hin He Hne. rewrite norvig_candidates_unfold by done. simpl.
  rewrite decide_True by done.
  destruct (sort_by _ _) eqn:E; [|done].
  by apply sort_by_nil_inv, set_iter_nil in E.
Qed.

Lemma norvig_candidates_none c w :
  w ∉ dictionary c → known c (edits1 w) = ∅ → known c (edits2 w) = ∅ →
  _get_norvig_candidates c w 2 = [w].
Proof.
  intros Hin He1 He2. rewrite norvig_candidates_unfold by done. simpl.
  rewrite decide_True, He2 by done.
  by rewrite (proj2 (set_iter_nil ∅)).
Qed.

Lemma set_iter_singleton x : set_iter {[x]} = [x].
Proof. apply Permutation_singleton_r. by rewrite set_iter_perm, elements_singleton. Qed.

(** C3: [edits1] is the single-edit neighbourhood and [edits2] the
    two-edit neighbourhood; for a word outside the dictionary Strategy B
    returns the dictionary words of the first, by descending frequency,
    when there are any, and only when there are none those of the
    second; when both are empty it returns the word alone.  With the
    dictionary holding just the word the, the word teh has the one near
    candidate the, which is the whole result. *)
Theorem strategy_b_radius :
  (∀ w x, (x ∈ edits1 w ↔ one_edit w x) ∧ (x ∈ edits2 w ↔ two_edits w x))
  ∧ (∀ c w, w ∉ dictionary c → known c (edits1 w) ≠ ∅ →
       _get_norvig_candidates c w 2
       = sort_by (more_frequent c) (set_iter (known c (edits1 w))))
  ∧ (∀ c w, w ∉ dictionary c → known c (edits1 w) = ∅ → known c (edits2 w) ≠ ∅ →
       _get_norvig_candidates c w 2
       = sort_by (more_frequent c) (set_iter (known c (edits2 w))))
  ∧ (∀ c w, w ∉ dictionary c → known c (edits1 w) = ∅ → known c (edits2 w) = ∅ →
       _get_norvig_candidates c w 2 = [w])
  ∧ (∀ c, dictionary c = {["the"]} →
       known c (edits1 "teh") = {["the"]}
       ∧ _get_norvig_candidates c "teh" 2 = ["the"]).
Proof.
  split; [intros w x; split; [apply elem_of_edits1|apply elem_of_edits2_spec]|].
  split; [exact norvig_candidates_near|].
  split; [exact norvig_candidates_far|].
  split; [exact norvig_candidates_none|].
  intros c Hd.
  assert (Hnear : known c (edits1 "teh") = {["the"]}).
  { apply set_eq. intros x. rewrite elem_of_known, Hd, !elem_of_singleton.
    split; [tauto|]. intros ->. split; [done|]. by_eval. }
  split; [done|].
  rewrite norvig_candidates_near, Hnear.
  - by rewrite set_iter_singleton.
  - rewrite Hd. by_eval.
  - rewrite Hnear. by_eval.
Qed.

End StrategyB.

(** ** The vote when Strategy A finds nothing *)

Section NoCandidates.
Context `{Order : SetIter} {T : Type} `{Checker : SpellChecker T}.
Implicit Types (c : Corrector T) (token w : string).

(** C10: when the normalised token is outside the dictionary and no
    dictionary word is within distance 2 of it, Strategy A's list is
    empty, the token itself stands in as Strategy A's proposal, and
    [correct_word] answers as usual: the user's correction if there is
    one, the winner of the vote over the three proposals otherwise. *)
Theorem correct_word_without_candidates c token :
  ¬ blank token →
  let w := strip (lower token) in
  w ∉ dictionary c →
  (∀ d, d ∈ dictionary c → 2 < _calculate_levenshtein_distance w d) →
  let ext := or_else (correction (spell_checker c) w) w in
  let b := first_or (_get_norvig_candidates c w 2) w in
  _get_candidates c w 2 = []
  ∧ corrections c w = [ext; w; b]
  ∧ correct_word c token
    = match user_corrections c !! w with
      | Some corr => corr
      | None => if decide (w = b ∧ ext ≠ w) then w else ext
      end.
Proof.
  intros Hb w Hd Hfar ext b.
  assert (E : _get_candidates c w 2 = []).
  { apply get_candidates_nil. split; [done|]. intros d Hin. apply Hfar in Hin. lia. }
  split; [done|].
  assert (Ec : corrections c w = [ext; w; b]).
  { unfold corrections. by rewrite E. }
  split; [done|].
  rewrite correct_word_unfold by done. simpl. fold w.
  rewrite decide_False by done.
  destruct (user_corrections c !! w); [done|].
  rewrite Ec. apply vote_three.
Qed.

End NoCandidates.

(** ** Correction in context *)

Lemma join_pair (a b : string) : join " " [a; b] = a +:+ " " +:+ b.
Proof. reflexivity. Qed.

Lemma last_slice_before {A} (l : list A) i :
  i ≤ List.length l →
  last (slice l (0 `max` (i - 2)) i)
  = match i with 0 => None | S j => l !! j end.
Proof.
  intros Hi. unfold slice. rewrite last_lookup, length_take, length_drop.
  destruct i as [|j]; [done|].
  rewrite lookup_take_lt, lookup_drop by lia. f_equal. lia.
Qed.

Lemma head_slice_after {A} (l : list A) i :
  head (slice l (i + 1) (List.length l `min` (i + 3))) = l !! S i.
Proof.
  unfold slice. replace (i + 1) with (S i) by lia.
  destruct (l !! S i) as [x|] eqn:E.
  - pose proof (lookup_lt_Some _ _ _ E) as Hlt.
    rewrite (drop_S _ _ _ E).
    set (n := _ - _). assert (Hn : n = S (pred n)) by (unfold n; lia).
    by rewrite Hn.
  - apply lookup_ge_None in E. rewrite drop_ge by lia. by rewrite take_nil.
Qed.

Lemma foldl_same {A B} (f g : A → B → A) (a : A) (l : list B) :
  (∀ a x, f a x = g a x) → foldl f a l = foldl g a l.
Proof.
  intros E. revert a. induction l as [|x l IH]; intros a; [done|].
  simpl. by rewrite E, IH.
Qed.

Section InContext.
Context `{Order : SetIter} {T : Type} `{Checker : SpellChecker T}.
Implicit Types (c : Corrector T) (token w : string) (tokens : list string).

Lemma add_seen_freq c bigram score : add_seen c bigram score = (score + freq c bigram)%Z.
Proof. unfold add_seen, freq. destruct (word_freq c !! bigram); simpl; lia. Qed.

Lemma context_score_neighbours c tokens i candidate :
  i < List.length tokens →
  context_score c (slice tokens (0 `max` (i - 2)) i)
                  (slice tokens (i + 1) (List.length tokens `min` (i + 3))) candidate
  = neighbour_score c tokens i candidate.
Proof.
  intros Hi. unfold context_score, neighbour_score, pair_count.
  rewrite last_slice_before by lia.
  pose proof (head_slice_after tokens i) as Hh.
  destruct (slice tokens (i + 1) _) as [|next rest]; simpl in Hh; rewrite <- Hh.
  - destruct i as [|j]; [done|].
    destruct (tokens !! j); [|done]. rewrite add_seen_freq, join_pair. lia.
  - rewrite !add_seen_freq, join_pair.
    destruct i as [|j]; [done|].
    destruct (tokens !! j); [|done]. rewrite add_seen_freq, join_pair. lia.
Qed.

Lemma scoring_loop_improve c before after l st :
  scoring_loop c before after l st = foldl (improve (context_score c before after)) st l.
Proof. reflexivity. Qed.

Lemma improve_settled score l b0 s0 :
  (∀ x, x ∈ l → (score x ≤ s0)%Z) → foldl (improve score) (b0, s0) l = (b0, s0).
Proof.
  induction l as [|x l IH]; intros Hle; [done|]. simpl.
  unfold improve at 2. simpl.
  rewrite (proj2 (Z.ltb_ge _ _)) by (apply Hle; left).
  apply IH. intros y Hy. apply Hle. by right.
Qed.

Lemma improve_first_best score l best b0 s0 :
  first_best score l best → (s0 < score best)%Z →
  foldl (improve score) (b0, s0) l = (best, score best).
Proof.
  intros (k & Hk & Hmax & Hbefore). revert l b0 s0 Hk Hmax Hbefore.
  induction k as [|k IH]; intros [|x l] b0 s0 Hk Hmax Hbefore Hs0; try done.
  - simpl in Hk. simplify_eq. simpl. unfold improve at 2. simpl.
    rewrite (proj2 (Z.ltb_lt _ _)) by done.
    apply improve_settled. intros y Hy. apply Hmax. by right.
  - simpl in Hk. simpl.
    assert (Hx : (score x < score best)%Z) by (apply (Hbefore 0 x); [lia|done]).
    assert (Hmax' : ∀ y, y ∈ l → (score y ≤ score best)%Z).
    { intros y Hy. apply Hmax. by right. }
    assert (Hbefore' : ∀ j y, j < k → l !! j = Some y → (score y < score best)%Z).
    { intros j y Hj Hy. apply (Hbefore (S j) y); [lia|done]. }
    unfold improve at 2. simpl.
    destruct (s0 <? score x)%Z; by apply IH.
Qed.

Lemma improve_bounded score l b0 s0 m :
  (∀ x, x ∈ l → (score x ≤ m)%Z) → (s0 ≤ m)%Z →
  ((foldl (improve score) (b0, s0) l).2 ≤ m)%Z.
Proof.
  revert b0 s0. induction l as [|x l IH]; intros b0 s0 Hle Hs0; [done|]. simpl.
  unfold improve at 2. simpl.
  destruct (s0 <? score x)%Z; apply IH; try done;
    try (intros y Hy; apply Hle; by right).
  apply Hle. by left.
Qed.

Lemma first_best_exists score l : l ≠ [] → ∃ best, first_best score l best.
Proof.
  induction l as [|x l IH]; [done|]. intros _.
  destruct l as [|y l].
  { exists x, 0. split; [done|]. split; [|intros; lia].
    intros z Hz. apply list_elem_of_singleton in Hz as ->. lia. }
  destruct IH as (b & k & Hk & Hmax & Hbefore); [done|].
  destruct (decide (score b ≤ score x)%Z) as [Hle|Hgt].
  - exists x, 0. split; [done|]. split; [|intros; lia].
    intros z Hz. apply elem_of_cons in Hz as [->|Hz]; [lia|].
    apply Hmax in Hz. lia.
  - exists b, (S k). split; [done|]. split.
    + intros z Hz. apply elem_of_cons in Hz as [->|Hz]; [lia|]. by apply Hmax.
    + intros [|j] z Hj Hz; simpl in Hz.
      * simplify_eq. lia.
      * apply (Hbefore j z); [lia|done].
Qed.

Lemma NoDup_sort_by {A} (le : A → A → bool) (l : list A) : NoDup l → NoDup (sort_by le l).
Proof. by rewrite sort_by_perm. Qed.

Lemma NoDup_norvig_candidates c w : NoDup (_get_norvig_candidates c w 2).
Proof.
  unfold _get_norvig_candidates.
  match goal with |- context [set_iter ?X] => generalize X end. intros X.
  pose proof (NoDup_sort_by (more_frequent c) _ (NoDup_set_iter X)) as Hn.
  destruct (sort_by _ _); [apply NoDup_singleton|done].
Qed.

Lemma NoDup_context_candidates c token : NoDup (context_candidates c token).
Proof.
  unfold context_candidates.
  destruct (_ || _); [apply NoDup_norvig_candidates|apply NoDup_get_candidates].
Qed.

Lemma lookup_correct_tokens c tokens i token :
  tokens !! i = Some token →
  correct_tokens c tokens !! i
  = Some (if skipped token then token else correct_word c token).
Proof. intros Hi. unfold correct_tokens. by rewrite list_lookup_fmap, Hi. Qed.

Lemma lookup_correct_tokens_with_context c tokens i token :
  tokens !! i = Some token →
  correct_tokens_with_context c tokens !! i = Some (correct_at c tokens i token).
Proof. intros Hi. unfold correct_tokens_with_context. by rewrite list_lookup_imap, Hi. Qed.

(** What [correct_at] does once the token has at least two candidates. *)
Lemma correct_at_scored c tokens i token :
  tokens !! i = Some token → skipped token = false → token ∉ dictionary c →
  2 ≤ List.length (context_candidates c token) →
  correct_at c tokens i token
  = let st := foldl (improve (neighbour_score c tokens i)) (token, (-1)%Z)
                    (context_candidates c token) in
    if (st.2 <=? 0)%Z then correct_word c token else st.1.
Proof.
  intros Hi Hs Hd Hlen. unfold correct_at. rewrite Hs, decide_False by done.
  rewrite !bool_decide_eq_false_2; simpl.
  - rewrite scoring_loop_improve.
    rewrite (foldl_same _ (improve (neighbour_score c tokens i))).
    + by destruct (foldl _ _ _).
    + intros st x. unfold improve. change (i - 2) with (0 `max` (i - 2)).
      rewrite context_score_neighbours; [done|].
      by eapply lookup_lt_Some.
  - lia.
  - intros E. rewrite E in Hlen. simpl in Hlen. lia.
Qed.

(** The selection rule of the context step.  For a token outside the
    dictionary with at least two candidates (they are pairwise
    different), a candidate's score is what the frequency table holds
    under the key of the pair (left neighbour, candidate), when a token
    precedes, plus what it holds under the key of the pair (candidate,
    right neighbour), when one follows.  The earliest candidate with the
    highest score is selected when that score is positive; otherwise
    the token goes to [correct_word]. *)
Lemma context_selection :
  (∀ c tokens i token,
     tokens !! i = Some token → skipped token = false → token ∉ dictionary c →
     let candidates := context_candidates c token in
     2 ≤ List.length candidates →
     NoDup candidates
     ∧ (∀ candidate,
          context_score c (slice tokens (0 `max` (i - 2)) i)
                          (slice tokens (i + 1) (List.length tokens `min` (i + 3)))
                          candidate
          = neighbour_score c tokens i candidate)
     ∧ (∃ best, first_best (neighbour_score c tokens i) candidates best)
     ∧ (∀ best, first_best (neighbour_score c tokens i) candidates best →
          correct_tokens_with_context c tokens !! i
          = Some (if (0 <? neighbour_score c tokens i best)%Z then best
                  else correct_word c token)))
  ∧ (∀ c,
       let tokens := ["how"; "arr"; "you"] in
       let candidates := context_candidates c "arr" in
       let score x := (pair_count c "how" x + pair_count c x "you")%Z in
       "arr" ∉ dictionary c →
       2 ≤ List.length candidates →
       "are" ∈ candidates →
       (0 < score "are")%Z →
       (∀ x, x ∈ candidates → x ≠ "are" → (score x < score "are")%Z) →
       correct_tokens_with_context c tokens !! 1 = Some "are").
Proof.
  assert (General : ∀ c tokens i token best,
     tokens !! i = Some token → skipped token = false → token ∉ dictionary c →
     2 ≤ List.length (context_candidates c token) →
     first_best (neighbour_score c tokens i) (context_candidates c token) best →
     correct_tokens_with_context c tokens !! i
     = Some (if (0 <? neighbour_score c tokens i best)%Z then best
             else correct_word c token)).
  { intros c tokens i token best Hi Hs Hd Hlen Hbest.
    rewrite (lookup_correct_tokens_with_context _ _ _ token) by done.
    rewrite correct_at_scored by done. simpl. f_equal.
    destruct (Z.ltb_spec 0 (neighbour_score c tokens i best)) as [Hpos|Hnpos].
    - rewrite (improve_first_best _ _ best) by (done || lia). simpl.
      by rewrite (proj2 (Z.leb_gt _ _)).
    - rewrite (proj2 (Z.leb_le _ _)); [done|].
      apply improve_bounded; [|lia].
      intros x Hx. destruct Hbest as (k & _ & Hmax & _). apply Hmax in Hx. lia. }
  split.
  - intros c tokens i token Hi Hs Hd candidates Hlen.
    split; [apply NoDup_context_candidates|].
    split; [intros candidate; apply context_score_neighbours; by eapply lookup_lt_Some|].
    split.
    { apply first_best_exists. intros E. subst candidates.
      rewrite E in Hlen. simpl in Hlen. lia. }
    intros best Hbest. by apply General.
  - intros c tokens candidates score Hd Hlen Hin Hpos Hothers.
    assert (Hscore : ∀ x, neighbour_score c tokens 1 x = score x) by done.
    clearbody score.
    assert (Hbest : first_best (neighbour_score c tokens 1) candidates "are").
    { apply list_elem_of_lookup in Hin as [k Hk]. exists k.
      split; [done|]. split.
      - intros x Hx. rewrite !Hscore.
        destruct (decide (x = "are")) as [->|Hne]; [lia|].
        specialize (Hothers x Hx Hne). lia.
      - intros j x Hj Hx. rewrite !Hscore. apply Hothers.
        + by eapply list_elem_of_lookup_2.
        + intros ->. pose proof (NoDup_context_candidates c "arr") as Hnd.
          pose proof (NoDup_lookup _ _ _ _ Hnd Hx Hk). lia. }
    rewrite (General c tokens 1 "arr" "are"); try done.
    by rewrite Hscore, (proj2 (Z.ltb_lt _ _)).
Qed.

(** Without a positive score the token goes to [correct_word]. *)
Lemma correct_at_without_evidence c tokens i token :
  tokens !! i = Some token → skipped token = false → token ∉ dictionary c →
  (∀ candidate, candidate ∈ context_candidates c token →
                neighbour_score c tokens i candidate = 0%Z) →
  correct_at c tokens i token = correct_word c token.
Proof.
  intros Hi Hs Hd Hzero.
  destruct (decide (2 ≤ List.length (context_candidates c token))) as [Hlen|Hlen].
  - rewrite correct_at_scored by done. simpl.
    rewrite (proj2 (Z.leb_le _ _)); [done|].
    apply improve_bounded; [|lia]. intros x Hx. by rewrite Hzero.
  - unfold correct_at. rewrite Hs, decide_False by done.
    destruct (context_candidates c token) as [|x [|y l]]; simpl in *; try done. lia.
Qed.

Lemma same_token_without_evidence c tokens i token :
  tokens !! i = Some token → token ∉ dictionary c →
  (∀ candidate, candidate ∈ context_candidates c token →
                neighbour_score c tokens i candidate = 0%Z) →
  correct_tokens_with_context c tokens !! i = correct_tokens c tokens !! i.
Proof.
  intros Hi Hd Hzero.
  rewrite (lookup_correct_tokens_with_context _ _ _ token) by done.
  rewrite (lookup_correct_tokens _ _ _ token) by done.
  destruct (skipped token) eqn:Hs.
  - unfold correct_at. by rewrite Hs.
  - by rewrite correct_at_without_evidence.
Qed.

(** C6: when every candidate of a token outside the dictionary has
    context score 0, the context-aware mode leaves the token to
    [correct_word], and so yields what [correct_text] yields for it. *)
Theorem no_evidence_falls_back c tokens i token :
  tokens !! i = Some token →
  token ∉ dictionary c →
  (∀ candidate, candidate ∈ context_candidates c token →
                neighbour_score c tokens i candidate = 0%Z) →
  correct_tokens_with_context c tokens !! i = correct_tokens c tokens !! i
  ∧ (skipped token = false →
     correct_tokens_with_context c tokens !! i = Some (correct_word c token)).
Proof.
  intros Hi Hd Hzero. split; [by apply (same_token_without_evidence c tokens i token)|].
  intros Hs. rewrite (lookup_correct_tokens_with_context _ _ _ token) by done.
  by rewrite correct_at_without_evidence.
Qed.

(** A key under which a pair is looked up holds a space. *)
Lemma pair_key_has_space (w1 w2 : string) : contains (w1 +:+ " " +:+ w2) " " = true.
Proof.
  induction w1 as [|a w1 IH].
  - rewrite append_nil_l, append_cons, append_nil_l. by destruct w2.
  - rewrite append_cons. simpl. rewrite IH. apply orb_true_r.
Qed.

(** With a frequency table in which no key holds a space no candidate
    ever scores, and the context-aware mode is [correct_text] on every
    token outside the dictionary. *)
Lemma no_pair_keys_no_score c tokens i candidate :
  no_pair_keys c → neighbour_score c tokens i candidate = 0%Z.
Proof.
  intros Hkeys. unfold neighbour_score, pair_count, freq.
  assert (Hz : ∀ w1 w2, default 0%Z (word_freq c !! (w1 +:+ " " +:+ w2)) = 0%Z).
  { intros w1 w2. by rewrite Hkeys by apply pair_key_has_space. }
  destruct i as [|j]; [|destruct (tokens !! j)];
    destruct (tokens !! _); by rewrite ?Hz.
Qed.

Lemma no_pair_keys_no_context c tokens i token :
  no_pair_keys c →
  tokens !! i = Some token → token ∉ dictionary c →
  correct_tokens_with_context c tokens !! i = correct_tokens c tokens !! i.
Proof.
  intros Hkeys Hi Hd. apply (same_token_without_evidence c tokens i token Hi Hd).
  intros candidate _. by apply no_pair_keys_no_score.
Qed.

End InContext.

(** ** Tokens that are left alone *)

Section PassThrough.
Context `{Order : SetIter} {T : Type} `{Checker : SpellChecker T}.
Implicit Types (c : Corrector T) (token : string) (tokens : list string).

Lemma skipped_token_kept c tokens i token :
  tokens !! i = Some token → skipped token = true →
  correct_tokens c tokens !! i = Some token
  ∧ correct_tokens_with_context c tokens !! i = Some token.
Proof.
  intros Hi Hs. rewrite (lookup_correct_tokens _ _ _ token) by done.
  rewrite (lookup_correct_tokens_with_context _ _ _ token) by done.
  unfold correct_at. by rewrite Hs.
Qed.

Lemma digits_skipped token : isdigit token = true → skipped token = true.
Proof. intros Hd. unfold skipped. rewrite Hd. apply orb_true_r. Qed.

Lemma single_mark_skipped ch :
  ch ∈ list_ascii_of_string punctuation → skipped (String ch "") = true.
Proof.
  intros Hch. vm_compute in Hch.
  repeat (apply elem_of_cons in Hch as [->|Hch]; [reflexivity|]).
  by apply elem_of_nil in Hch.
Qed.

Lemma dictionary_word_kept c tokens i token :
  tokens !! i = Some token → token ∈ dictionary c →
  correct_tokens_with_context c tokens !! i = Some token.
Proof.
  intros Hi Hd. rewrite (lookup_correct_tokens_with_context _ _ _ token) by done.
  unfold correct_at. destruct (skipped token); [done|]. by rewrite decide_True.
Qed.

End PassThrough.

(** ** Loading a custom dictionary or corpus *)

Section Loading.
Context `{Order : SetIter} {T : Type} `{Checker : SpellChecker T}.
Implicit Types (c : Corrector T) (line : string) (lines : list string).

Lemma load_lines_app c lines1 lines2 :
  load_lines c (lines1 ++ lines2)%list
  = match load_lines c lines1 with
    | (c1, None) => load_lines c1 lines2
    | stopped => stopped
    end.
Proof.
  revert c. induction lines1 as [|line lines1 IH]; intros c; simpl; [done|].
  destruct (load_line c line); [apply IH|done].
Qed.

Lemma load_line_short c line :
  List.length (split (strip line)) < 2 → load_line c line = Some c.
Proof.
  unfold load_line. destruct (split (strip line)) as [|p0 [|p1 parts]]; simpl; [done..|lia].
Qed.

Lemma load_line_bad_frequency c line p0 p1 parts :
  split (strip line) = p0 :: p1 :: parts → int p1 = None → load_line c line = None.
Proof. intros E Hint. unfold load_line. by rewrite E, Hint. Qed.

Lemma load_rows_app h rows1 rows2 :
  corpus.load_rows h (rows1 ++ rows2)%list
  = match corpus.load_rows h rows1 with
    | (h1, corpus.Loaded) => corpus.load_rows h1 rows2
    | stopped => stopped
    end.
Proof.
  revert h. induction rows1 as [|[w [f|]] rows1 IH]; intros h; simpl; [done| |done].
  apply IH.
Qed.

(** The state a load leaves does not depend on how the iteration ends. *)
Lemma load_custom_dictionary_state c lines ends :
  (load_custom_dictionary c (Lines lines ends)).1 = (load_lines c lines).1.
Proof. simpl. by destruct (load_lines c lines) as [c' [e|]]. Qed.

(** The loaders line by line.  A line of the dictionary file with fewer
    than two fields is passed over and the lines after it are still
    read; so is a row of a word/frequency table whose word is not
    alphabetic.  A file that cannot be opened leaves the corrector as
    it was, and so does a corpus file that cannot be read. *)
Lemma load_line_by_line :
  (∀ c lines1 line lines2 ends,
     List.length (split (strip line)) < 2 →
     load_custom_dictionary c (Lines (lines1 ++ line :: lines2)%list ends)
     = load_custom_dictionary c (Lines (lines1 ++ lines2)%list ends))
  ∧ (∀ c, load_custom_dictionary c Unopenable = (c, Some OSError))
  ∧ (∀ h rows1 w f rows2,
       isalpha (lower w) = false →
       corpus.load_custom_corpus h (corpus.Table (Some (corpus.WordFrequency
                                      (rows1 ++ (w, Some f) :: rows2)%list)))
       = corpus.load_custom_corpus h (corpus.Table (Some (corpus.WordFrequency
                                        (rows1 ++ rows2)%list))))
  ∧ (∀ h, corpus.load_custom_corpus h (corpus.Txt None) = (h, corpus.Error)
          ∧ corpus.load_custom_corpus h (corpus.Table None) = (h, corpus.Error)).
Proof.
  split; [|split; [done|split; [|done]]].
  - intros c lines1 line lines2 ends Hshort. simpl. rewrite !load_lines_app.
    destruct (load_lines c lines1) as [c1 [e|]]; [done|].
    simpl. by rewrite load_line_short.
  - intros h rows1 w f rows2 Hw. simpl. rewrite !load_rows_app.
    destruct (corpus.load_rows h rows1) as [h1 []]; try done.
    simpl. by rewrite Hw.
Qed.

(** C7: the code does not do what the claim says.  A line of the
    dictionary file whose second field is not an integer is not passed
    over: the [ValueError] of [int] leaves the loop, which stands inside
    the [try], so the lines after it are never read, whatever they hold,
    while the lines before it stay loaded; a table row whose frequency
    does not convert ends a corpus load the same way.  And a file that
    fails while it is being read leaves the lines already read on
    record, so the state is not the one before the load.  With the lines
    alpha 1, beta x, gamma 3 the word gamma is not loaded, though the
    same file without its second line loads it. *)
Theorem bad_frequency_ends_the_load :
  (∀ c c1 lines1 line lines2 ends p0 p1 parts,
     load_lines c lines1 = (c1, None) →
     split (strip line) = p0 :: p1 :: parts → int p1 = None →
     load_custom_dictionary c (Lines (lines1 ++ line :: lines2)%list ends)
     = (c1, Some ValueError))
  ∧ (∀ h h1 rows1 w rows2,
       corpus.load_rows h rows1 = (h1, corpus.Loaded) →
       corpus.load_custom_corpus h (corpus.Table (Some (corpus.WordFrequency
                                      (rows1 ++ (w, None) :: rows2)%list)))
       = (h1, corpus.Error))
  ∧ (∀ c c1 lines e,
       load_lines c lines = (c1, None) →
       load_custom_dictionary c (Lines lines (Some e)) = (c1, Some e))
  ∧ (∀ (checker : T),
       let c := (__init__ [] None checker).1 in
       let stopped := load_custom_dictionary c (Lines ["alpha 1"; "beta x"; "gamma 3"] None) in
       let skipped_over := load_custom_dictionary c (Lines ["alpha 1"; "gamma 3"] None) in
       let cut_short := load_custom_dictionary c (Lines ["alpha 1"] (Some OSError)) in
       stopped.2 = Some ValueError
       ∧ "alpha" ∈ dictionary stopped.1
       ∧ ("gamma" ∉ dictionary stopped.1)
       ∧ skipped_over.2 = None
       ∧ "gamma" ∈ dictionary skipped_over.1
       ∧ cut_short.2 = Some OSError
       ∧ ("alpha" ∉ dictionary c)
       ∧ "alpha" ∈ dictionary cut_short.1).
Proof.
  split; [|split; [|split; [|]]].
  - intros c c1 lines1 line lines2 ends p0 p1 parts Hload Hsplit Hint. simpl.
    rewrite load_lines_app, Hload. simpl.
    by rewrite (load_line_bad_frequency _ _ p0 p1 parts).
  - intros h h1 rows1 w rows2 Hload. simpl. by rewrite load_rows_app, Hload.
  - intros c c1 lines e Hload. simpl. by rewrite Hload.
  - intros checker c stopped skipped_over cut_short.
    split; [reflexivity|]. split; [by_eval|]. split; [by_eval|].
    split; [reflexivity|]. split; [by_eval|]. split; [reflexivity|].
    split; by_eval.
Qed.

(** *** What a dictionary file can put on record *)

Lemma all_chars_of_list p l :
  Forall (λ a, p a = true) l → all_chars p (string_of_list_ascii l) = true.
Proof. induction 1 as [|a l Ha _ IH]; simpl; [done|]. by rewrite Ha, IH. Qed.

Lemma split_go_fields cur s field :
  Forall (λ a, negb (isspace a) = true) cur →
  field ∈ split_go cur s →
  all_chars (λ a, negb (isspace a)) field = true.
Proof.
  revert cur. induction s as [|a s IH]; intros cur Hcur Hin.
  - simpl in Hin. destruct cur as [|b cur]; [by apply elem_of_nil in Hin|].
    apply list_elem_of_singleton in Hin as ->.
    by apply all_chars_of_list, List.Forall_rev.
  - simpl in Hin. destruct (isspace a) eqn:Ea.
    + apply elem_of_app in Hin as [Hin|Hin].
      * destruct cur as [|b cur]; [by apply elem_of_nil in Hin|].
        apply list_elem_of_singleton in Hin as ->.
        by apply all_chars_of_list, List.Forall_rev.
      * by apply (IH []).
    + apply (IH (a :: cur)); [|done]. constructor; [by rewrite Ea|done].
Qed.

Lemma lower_keeps_fields field :
  all_chars (λ a, negb (isspace a)) field = true →
  all_chars (λ a, negb (isspace a)) (lower field) = true.
Proof.
  induction field as [|a field IH]; simpl; [done|].
  rewrite isspace_lower_char. intros [-> Hf]%andb_true_iff. by rewrite IH.
Qed.

Lemma field_has_no_space field :
  all_chars (λ a, negb (isspace a)) field = true → contains field " " = false.
Proof.
  induction field as [|a field IH]; [done|].
  intros Hall. simpl in Hall. apply andb_true_iff in Hall as [Ha Hf].
  change (contains (String a field) " ")
    with (String.prefix " " (String a field) || contains field " ").
  rewrite IH, orb_false_r by done.
  change (String.prefix " " (String a field))
    with (if ascii_dec " " a then String.prefix "" field else false).
  destruct (ascii_dec " " a) as [<-|_]; [discriminate Ha|reflexivity].
Qed.

Lemma load_line_no_pair_keys c c' line :
  no_pair_keys c → load_line c line = Some c' → no_pair_keys c'.
Proof.
  intros Hc. unfold load_line.
  destruct (split (strip line)) as [|p0 [|p1 parts]] eqn:E; try by intros [= <-].
  destruct (int p1) as [n|]; [|done]. simpl. intros [= <-] k Hk. simpl.
  rewrite lookup_insert_ne; [by apply Hc|].
  intros <-. rewrite field_has_no_space in Hk; [done|].
  apply lower_keeps_fields, (split_go_fields [] (strip line)); [constructor|].
  unfold split in E. rewrite E. left.
Qed.

(** A dictionary file records single words only. *)
Lemma load_custom_dictionary_no_pair_keys c file :
  no_pair_keys c → no_pair_keys (load_custom_dictionary c file).1.
Proof.
  destruct file as [|lines ends]; [done|]. rewrite load_custom_dictionary_state.
  revert c. induction lines as [|line lines IH]; intros c Hc; [done|]. simpl.
  destruct (load_line c line) as [c'|] eqn:E; [|done].
  apply IH. by eapply load_line_no_pair_keys.
Qed.

End Loading.

(** ** The properties at work on concrete correctors *)

Section Concrete.
Import examples.
#[local] Existing Instance ascending.
#[local] Existing Instance silent.

Lemma three_inj {A} (x y z x' y' z' : A) :
  [x; y; z] = [x'; y'; z'] → x = x' ∧ y = y' ∧ z = z'.
Proof. by intros [= -> -> ->]. Qed.

Lemma not_blank_teh : ¬ blank "teh".
Proof. intros [E|E]; discriminate E. Defined.

(** Without any pair on record both candidates of teh score 0, ten is
    the earlier one, and the word is handed to the vote, which here
    keeps teh. *)
Lemma context_selection_all_zero :
  let c := with_frequencies () [("the", 100%Z); ("ten", 1%Z)] in
  let tokens := ["teh"] in
  skipped "teh" = false
  ∧ ("teh" ∉ dictionary c)
  ∧ context_candidates c "teh" = ["ten"; "the"]
  ∧ first_best (neighbour_score c tokens 0) ["ten"; "the"] "ten"
  ∧ correct_tokens_with_context c tokens = ["teh"].
Proof.
  intros c tokens.
  split; [reflexivity|]. split; [by_eval|].
  split; [vm_compute; reflexivity|]. split.
  - exists 0. split; [reflexivity|]. split; [|intros; lia].
    intros x Hx.
    repeat (apply elem_of_cons in Hx as [->|Hx]; [vm_compute; discriminate|]).
    apply elem_of_nil in Hx; destruct Hx.
  - vm_compute. reflexivity.
Qed.

Lemma context_selection_example :
  let c := with_frequencies ()
             [("are", 2%Z); ("arm", 1%Z); ("how", 1%Z); ("you", 1%Z);
              ("how are", 5%Z); ("how arm", 1%Z)] in
  let tokens := ["how"; "arr"; "you"] in
  ("arr" ∉ dictionary c)
  ∧ context_candidates c "arr" = ["are"; "arm"]
  ∧ neighbour_score c tokens 1 "are" = 5%Z
  ∧ neighbour_score c tokens 1 "arm" = 1%Z
  ∧ first_best (neighbour_score c tokens 1) (context_candidates c "arr") "are"
  ∧ correct_tokens_with_context c tokens !! 1 = Some "are".
Proof.
  intros c tokens.
  assert (Hd : "arr" ∉ dictionary c) by by_eval.
  assert (Hc : context_candidates c "arr" = ["are"; "arm"]) by (vm_compute; reflexivity).
  assert (Hlen : 2 ≤ List.length (context_candidates c "arr")) by (rewrite Hc; simpl; lia).
  assert (Hin : "are" ∈ context_candidates c "arr") by (rewrite Hc; left).
  assert (Hpos : (0 < pair_count c "how" "are" + pair_count c "are" "you")%Z)
    by (vm_compute; reflexivity).
  assert (Hothers : ∀ x, x ∈ context_candidates c "arr" → x ≠ "are" →
            (pair_count c "how" x + pair_count c x "you"
             < pair_count c "how" "are" + pair_count c "are" "you")%Z).
  { intros x Hx Hne. rewrite Hc in Hx.
    apply elem_of_cons in Hx as [->|Hx]; [by destruct Hne|].
    apply list_elem_of_singleton in Hx as ->. vm_compute. reflexivity. }
  assert (Hbest : first_best (neighbour_score c tokens 1) (context_candidates c "arr") "are").
  { exists 0. rewrite Hc. split; [reflexivity|]. split; [|intros; lia].
    intros x Hx.
    repeat (apply elem_of_cons in Hx as [->|Hx]; [vm_compute; discriminate|]).
    apply elem_of_nil in Hx; destruct Hx. }
  split; [exact Hd|]. split; [exact Hc|].
  split; [vm_compute; reflexivity|]. split; [vm_compute; reflexivity|].
  split; [exact Hbest|].
  destruct (proj1 (context_selection (Order := ascending) (Checker := silent)) c tokens 1 "arr" eq_refl eq_refl Hd Hlen)
    as (_ & _ & _ & Hsel).
  pose proof (Hsel "are" Hbest) as Hgeneral.
  exact (proj2 (context_selection (Order := ascending) (Checker := silent)) c Hd Hlen Hin Hpos Hothers).
Defined.

(** A text of dictionary words comes back as it is, lowered and with
    the mark drawn to the word before it. *)
Lemma correct_text_example :
  correct_text (H := whitespace) (new_corrector () ["the"; "cat"; "sat"])
               "The cat sat ."
  = "the cat sat.".
Proof. vm_compute. reflexivity. Qed.

(** The same corrector on a whole text, with a tokenizer that cuts at
    whitespace. *)
Lemma context_text_example :
  let c := with_frequencies ()
             [("are", 2%Z); ("arm", 1%Z); ("how", 1%Z); ("you", 1%Z);
              ("how are", 5%Z); ("how arm", 1%Z)] in
  correct_with_context (H := whitespace) c "How arr you ?" = "how are you?".
Proof. vm_compute. reflexivity. Qed.

(** The pair counts of a [CorpusHandler] play no part: here the corpus
    has seen how are twice and how arm once, the corrector was loaded
    with arm as the more frequent word, and arr becomes arm. *)
Lemma corpus_bigrams_not_consulted :
  let h := (corpus.load_custom_corpus empty_handler
              (corpus.Txt (Some "how are you how are you how arm"))).1 in
  let c := (load_custom_dictionary (new_corrector () [])
              (Lines ["how 10"; "are 20"; "arm 50"; "you 10"] None)).1 in
  corpus.get_bigram_frequency h "how" "are" = 2%Z
  ∧ corpus.get_bigram_frequency h "how" "arm" = 1%Z
  ∧ context_candidates c "arr" = ["arm"; "are"]
  ∧ correct_tokens_with_context c ["how"; "arr"; "you"] = ["how"; "arm"; "you"].
Proof. intros h c. repeat split; vm_compute; reflexivity. Qed.

Lemma strategy_b_radius_witness :
  let c := new_corrector () ["the"] in
  let c' := new_corrector () ["a"] in
  let c'' := new_corrector () [] in
  ("teh" ∉ dictionary c) ∧ known c (edits1 "teh") ≠ ∅
  ∧ ("--" ∉ dictionary c') ∧ known c' (edits1 "--") = ∅ ∧ known c' (edits2 "--") ≠ ∅
  ∧ ("teh" ∉ dictionary c'') ∧ known c'' (edits1 "teh") = ∅ ∧ known c'' (edits2 "teh") = ∅
  ∧ dictionary c = {["the"]}
  ∧ _get_norvig_candidates c "teh" 2 = ["the"]
  ∧ _get_norvig_candidates c' "--" 2 = ["a"]
  ∧ _get_norvig_candidates c'' "teh" 2 = ["teh"].
Proof.
  intros c c' c''.
  assert (H1 : "teh" ∉ dictionary c) by by_eval.
  assert (H2 : known c (edits1 "teh") ≠ ∅) by (rewrite known_edits1; by_eval).
  assert (H3 : "--" ∉ dictionary c') by by_eval.
  assert (H4 : known c' (edits1 "--") = ∅) by (rewrite known_edits1; by_eval).
  assert (H5 : known c' (edits2 "--") ≠ ∅) by (rewrite known_edits2; by_eval).
  assert (H6 : "teh" ∉ dictionary c'') by by_eval.
  assert (H7 : known c'' (edits1 "teh") = ∅) by (rewrite known_edits1; by_eval).
  assert (H8 : known c'' (edits2 "teh") = ∅) by (rewrite known_edits2; by_eval).
  assert (H9 : dictionary c = {["the"]}) by by_eval.
  destruct (strategy_b_radius (Order := ascending) (T := ())) as (_ & Hnear & Hfar & Hnone & Hthe).
  pose proof (Hnear c "teh" H1 H2) as Hsorted.
  split; [exact H1|]. split; [exact H2|]. split; [exact H3|]. split; [exact H4|].
  split; [exact H5|]. split; [exact H6|]. split; [exact H7|]. split; [exact H8|].
  split; [exact H9|]. split; [exact (proj2 (Hthe c H9))|]. split.
  - rewrite (Hfar c' "--" H3 H4 H5), known_edits2. vm_compute. reflexivity.
  - exact (Hnone c'' "teh" H6 H7 H8).
Defined.



(** C5 as written fails: help is as near to helo as hello is, so with
    equal frequencies the order of the two is the set's iteration
    order, and hello need not come first.  Nor does a word without a
    recorded frequency come last in its tier: it counts as 0, and once
    help is on record with a negative frequency hello, which has none,
    stands before it, whatever the set's order. *)
Lemma strategy_a_counterexample :
  let c := new_corrector () ["hello"; "help"; "hold"] in
  let c' := (load_custom_dictionary c (Lines ["help -5"] None)).1 in
  _calculate_levenshtein_distance "helo" "help" = 1
  ∧ _get_candidates (Order := descending) c "helo" 2 = ["help"; "hello"; "hold"]
  ∧ ¬ ranked_before "hello" "help" (_get_candidates (Order := descending) c "helo" 2)
  ∧ _calculate_levenshtein_distance "helo" "hello" = 1
  ∧ word_freq c' !! "hello" = None
  ∧ word_freq c' !! "help" = Some (-5)%Z
  ∧ _get_candidates (Order := ascending) c' "helo" 2 = ["hello"; "help"; "hold"]
  ∧ _get_candidates (Order := descending) c' "helo" 2 = ["hello"; "help"; "hold"].
Proof.
  intros c c'. split; [reflexivity|].
  assert (E : _get_candidates (Order := descending) c "helo" 2 = ["help"; "hello"; "hold"])
    by (vm_compute; reflexivity).
  split; [exact E|]. split.
  { rewrite E. intros (i & j & Hi & Hj & Hij).
    destruct i as [|[|[|i]]]; try discriminate Hi.
    destruct j as [|[|[|j]]]; try discriminate Hj. lia. }
  split; [reflexivity|]. split; [vm_compute; reflexivity|].
  split; [vm_compute; reflexivity|]. split; vm_compute; reflexivity.
Qed.

Lemma hello_before_help :
  ranked_before "hello" "help"
    (set_iter (SetIter := ascending) (list_to_set ["hello"; "help"; "hold"])).
Proof.
  exists 1, 2. split; [vm_compute; reflexivity|]. split; [vm_compute; reflexivity|lia].
Qed.

Lemma strategy_a_ranking_witness :
  let c := with_frequencies () [("hello", 7%Z); ("help", 3%Z); ("hold", 9%Z)] in
  let c0 := new_corrector () ["hello"; "help"; "hold"] in
  ("helo" ∉ dictionary c)
  ∧ dictionary c = list_to_set ["hello"; "help"; "hold"]
  ∧ (freq c "help" < freq c "hello")%Z
  ∧ NoDup (_get_candidates c "helo" 2)
  ∧ StronglySorted (ranks_no_later c "helo") (_get_candidates c "helo" 2)
  ∧ _get_candidates c "helo" 2 = ["hello"; "help"; "hold"]
  ∧ _get_candidates c "hold" 2 = ["hold"]
  ∧ dictionary c0 = list_to_set ["hello"; "help"; "hold"]
  ∧ freq c0 "help" = freq c0 "hello"
  ∧ ranked_before "hello" "help" (set_iter (dictionary c0))
  ∧ _get_candidates c0 "helo" 2 = ["hello"; "help"; "hold"].
Proof.
  intros c c0.
  assert (Hd : "helo" ∉ dictionary c) by by_eval.
  assert (Hc : dictionary c = list_to_set ["hello"; "help"; "hold"]) by reflexivity.
  assert (Hf : (freq c "help" < freq c "hello")%Z) by by_eval.
  assert (Hk : "hold" ∈ dictionary c) by by_eval.
  assert (Hc0 : dictionary c0 = list_to_set ["hello"; "help"; "hold"]) by reflexivity.
  assert (Hf0 : freq c0 "help" = freq c0 "hello") by reflexivity.
  destruct (strategy_a_ranking (Order := ascending) (T := ())) as (_ & Hknown & Hscan & Hexample).
  destruct (Hscan c "helo" 2%Z Hd) as (Hnodup & _ & Hsorted & _).
  destruct (Hexample c Hc) as (_ & _ & _ & _ & Hfirst & _).
  destruct (Hexample c0 Hc0) as (_ & _ & _ & _ & _ & Htie).
  split; [exact Hd|]. split; [exact Hc|]. split; [exact Hf|].
  split; [exact Hnodup|]. split; [exact Hsorted|].
  split; [exact (Hfirst Hf)|]. split; [exact (Hknown c "hold" 2%Z Hk)|].
  split; [exact Hc0|]. split; [exact Hf0|]. split; [exact hello_before_help|].
  exact (proj2 (Htie Hf0) hello_before_help).
Defined.

Lemma no_evidence_falls_back_witness :
  let c := new_corrector () ["are"; "arm"; "how"; "you"] in
  let tokens := ["how"; "arr"; "you"] in
  tokens !! 1 = Some "arr"
  ∧ ("arr" ∉ dictionary c)
  ∧ (∀ candidate, candidate ∈ context_candidates c "arr" →
                  neighbour_score c tokens 1 candidate = 0%Z)
  ∧ correct_tokens_with_context c tokens !! 1 = correct_tokens c tokens !! 1
  ∧ correct_tokens_with_context c tokens !! 1 = Some (correct_word c "arr").
Proof.
  intros c tokens.
  assert (Hd : "arr" ∉ dictionary c) by by_eval.
  assert (Hz : ∀ candidate, candidate ∈ context_candidates c "arr" →
                 neighbour_score c tokens 1 candidate = 0%Z).
  { intros candidate _. unfold neighbour_score, pair_count, freq. simpl.
    by rewrite !lookup_empty. }
  destruct (no_evidence_falls_back c tokens 1 "arr" eq_refl Hd Hz) as [Hsame Hword].
  split; [reflexivity|]. split; [exact Hd|]. split; [exact Hz|].
  split; [exact Hsame|exact (Hword eq_refl)].
Defined.

(** A dictionary word with a capital is lowered first, is then no
    dictionary word, and the vote returns another spelling. *)
Lemma capital_is_lowered :
  let c := new_corrector () ["Aaron"] in
  "Aaron" ∈ dictionary c ∧ correct_word c "Aaron" = "aaron".
Proof.
  intros c. split; [by_eval|].
  unfold correct_word, corrections. eval_norvig. vm_compute. reflexivity.
Qed.

Lemma correct_word_fixed_point_example :
  let c := new_corrector () ["the"] in
  "the" ∈ dictionary c ∧ strip (lower "the") = "the" ∧ correct_word c "the" = "the".
Proof.
  intros c.
  assert (Hd : "the" ∈ dictionary c) by by_eval.
  split; [exact Hd|]. split; [reflexivity|].
  exact (correct_word_fixed_point c "the" Hd eq_refl).
Defined.

Lemma correct_word_without_candidates_witness :
  let c := new_corrector () ["the"] in
  let b := first_or (_get_norvig_candidates c "xyzzy" 2) "xyzzy" in
  ¬ blank "xyzzy"
  ∧ ("xyzzy" ∉ dictionary c)
  ∧ (∀ d, d ∈ dictionary c → 2 < _calculate_levenshtein_distance "xyzzy" d)
  ∧ _get_candidates c "xyzzy" 2 = []
  ∧ corrections c "xyzzy" = ["xyzzy"; "xyzzy"; b]
  ∧ correct_word c "xyzzy" = "xyzzy".
Proof.
  intros c b.
  assert (Hb : ¬ blank "xyzzy") by (intros [E|E]; discriminate E).
  assert (Hd : strip (lower "xyzzy") ∉ dictionary c) by by_eval.
  assert (Hfar : ∀ d, d ∈ dictionary c →
                   2 < _calculate_levenshtein_distance (strip (lower "xyzzy")) d).
  { intros d Hin. apply elem_of_list_to_set, list_elem_of_singleton in Hin as ->.
    vm_compute. lia. }
  destruct (correct_word_without_candidates c "xyzzy" Hb Hd Hfar) as (Hnil & Hc & Hr).
  split; [exact Hb|]. split; [exact Hd|]. split; [exact Hfar|].
  split; [exact Hnil|]. split; [exact Hc|].
  rewrite Hr. change (user_corrections c !! strip (lower "xyzzy")) with (@None string).
  destruct (decide _) as [[? ?]|?]; reflexivity.
Defined.

(** C9 fails on the code: the test [token in string.punctuation] asks
    whether the token is a slice of the punctuation string, which a run
    of two hyphens is not; the run goes to [correct_word] and comes
    back as a dictionary word, in both modes.  The number beside it is
    left alone. *)
Theorem punctuation_run_is_rewritten :
  let c := new_corrector () ["a"; "wait"] in
  let tokens := ["wait"; "--"; "42"] in
  solely_punctuation "--" = true
  ∧ skipped "--" = false
  ∧ correct_tokens c tokens = ["wait"; "a"; "42"]
  ∧ correct_tokens_with_context c tokens = ["wait"; "a"; "42"].
Proof.
  intros c tokens.
  assert (Hw : correct_word c "--" = "a").
  { unfold correct_word, corrections. eval_norvig. vm_compute. reflexivity. }
  assert (Hc : context_candidates c "--" = ["a"]) by (vm_compute; reflexivity).
  assert (Ha : correct_at c tokens 1 "--" = "a").
  { unfold correct_at. rewrite Hc, Hw.
    rewrite (decide_False (P := "--" ∈ dictionary c)) by by_eval. reflexivity. }
  split; [reflexivity|]. split; [reflexivity|]. split.
  - change (correct_tokens c tokens)
      with [correct_word c "wait"; correct_word c "--"; "42"].
    rewrite Hw. vm_compute. reflexivity.
  - change (correct_tokens_with_context c tokens)
      with [correct_at c tokens 0 "wait"; correct_at c tokens 1 "--";
            correct_at c tokens 2 "42"].
    rewrite Ha. vm_compute. reflexivity.
Qed.

(** *** Where the code leaves the spec *)

Lemma no_pair_keys_no_context_score {T} (c : Corrector T) context_before context_after
    candidate :
  no_pair_keys c → context_score c context_before context_after candidate = 0%Z.
Proof.
  intros Hkeys. unfold context_score, add_seen.
  destruct (last context_before) as [prev|]; destruct context_after as [|next rest];
    rewrite ?join_pair, ?Hkeys by apply pair_key_has_space; done.
Qed.

Lemma no_pair_keys_init {T} (checker : T) nltk_words custom_dict_path :
  no_pair_keys (__init__ nltk_words custom_dict_path checker).1.
Proof.
  unfold __init__. destruct custom_dict_path as [file|].
  - apply load_custom_dictionary_no_pair_keys. intros k _. apply lookup_empty.
  - intros k _. apply lookup_empty.
Qed.

(** C2: the code does not do what the claim says.  The scoring loop
    looks the pair up in [word_freq], the table of single words, under
    the key made of the two words and a space.  Neither the constructor
    nor [load_custom_dictionary] can put such a key on record, so in a
    corrector they build every candidate scores 0, whatever the
    neighbours are; the pair counts a [CorpusHandler] keeps are never
    read.  With a corpus that has how are twice and how arm once, and a
    dictionary file that lists are and arm (arm the more frequent), both
    at distance 1 from arr, the text how arr you becomes how arm you. *)
Theorem context_ignores_bigram_counts :
  (∀ (T : Type) (checker : T) nltk_words custom_dict_path
     context_before context_after candidate,
     context_score (__init__ nltk_words custom_dict_path checker).1
                   context_before context_after candidate = 0%Z)
  ∧ (let h := (corpus.load_custom_corpus empty_handler
                 (corpus.Txt (Some "how are you how are you how arm"))).1 in
     let c := (__init__ [] (Some (Lines ["how 10"; "are 20"; "arm 50"; "you 10"] None))
                        ()).1 in
     corpus.get_bigram_frequency h "how" "are" = 2%Z
     ∧ corpus.get_bigram_frequency h "how" "arm" = 1%Z
     ∧ ("arr" ∉ dictionary c)
     ∧ _calculate_levenshtein_distance "arr" "are" = 1
     ∧ _calculate_levenshtein_distance "arr" "arm" = 1
     ∧ context_candidates c "arr" = ["arm"; "are"]
     ∧ correct_with_context (H := whitespace) c "how arr you" = "how arm you").
Proof.
  split.
  - intros T checker nltk_words custom_dict_path context_before context_after candidate.
    apply no_pair_keys_no_context_score, no_pair_keys_init.
  - intros h c.
    split; [vm_compute; reflexivity|]. split; [vm_compute; reflexivity|].
    split; [by_eval|]. split; [reflexivity|]. split; [reflexivity|].
    split; vm_compute; reflexivity.
Qed.

(** C8: the code does not do what the claim says.  The constructor
    puts the words of the NLTK list into the dictionary as they are
    listed, capitals included, while [correct_word] looks a word up in
    lower case, as [add_to_dictionary] and [load_custom_dictionary]
    store it.  A listed word whose lowered form is not listed is
    therefore not recognised: it goes to the vote.  With Aaron listed
    (and aaron not), Aaron comes back as aaron; the same word entered
    through either of the two other paths is stored as aaron. *)
Theorem capitalised_entry_is_rewritten :
  (∀ (O : SetIter) (T : Type) (K : SpellChecker T) (checker : T) nltk_words w,
     let c := (__init__ nltk_words None checker).1 in
     w ∈ dictionary c → ¬ blank w → strip (lower w) ∉ dictionary c →
     correct_word (Order := O) (Checker := K) c w
     = vote (corrections (Order := O) (Checker := K) c (strip (lower w)))
            (strip (lower w)))
  ∧ (let c := (__init__ ["A"; "a"; "aa"; "Aaron"; "aardvark"] None ()).1 in
     "Aaron" ∈ dictionary c
     ∧ ("aaron" ∉ dictionary c)
     ∧ corrections c "aaron" = ["aaron"; "Aaron"; "aaron"]
     ∧ correct_word c "Aaron" = "aaron"
     ∧ "aaron" ∈ dictionary (add_to_dictionary c "Aaron" 1)
     ∧ "aaron" ∈ dictionary (load_custom_dictionary c (Lines ["Aaron 1"] None)).1).
Proof.
  split.
  - intros O T K checker nltk_words w c Hw Hb Hd.
    by apply correct_word_voted.
  - intros c.
    split; [by_eval|]. split; [by_eval|].
    assert (E : corrections c "aaron" = ["aaron"; "Aaron"; "aaron"]).
    { unfold corrections. eval_norvig. vm_compute. reflexivity. }
    split; [exact E|]. split.
    { unfold correct_word, corrections. eval_norvig. vm_compute. reflexivity. }
    split; by_eval.
Qed.

End Concrete.

(** ** The vote with a suggester that answers *)

Section Suggesting.
Import examples.
#[local] Existing Instance ascending.
#[local] Existing Instance from_table.

Lemma not_blank_thee : ¬ blank "thee".
Proof. intros [E|E]; discriminate E. Defined.

Lemma correct_word_plurality_witness :
  let c := with_frequencies [("teh", "tea"); ("thee", "tea")]
                            [("the", 100%Z); ("ten", 1%Z)] in
  ¬ blank "teh"
  ∧ ("teh" ∉ dictionary c)
  ∧ user_corrections c !! "teh" = None
  ∧ correction (spell_checker c) "teh" = Some "tea"
  ∧ corrections c "teh" = ["tea"; "ten"; "the"]
  ∧ correct_word c "teh" = "tea"
  ∧ ¬ blank "thee"
  ∧ ("thee" ∉ dictionary c)
  ∧ corrections c "thee" = ["tea"; "the"; "the"]
  ∧ correct_word c "thee" = "the".
Proof.
  intros c.
  assert (Hd : "teh" ∉ dictionary c) by by_eval.
  assert (Hu : user_corrections c !! "teh" = None) by reflexivity.
  assert (Hs : correction (spell_checker c) "teh" = Some "tea") by (vm_compute; reflexivity).
  destruct (correct_word_plurality c "teh" not_blank_teh Hd Hu)
    as (Hc & _ & _ & Hthree & _).
  assert (E0 : corrections c "teh" = ["tea"; "ten"; "the"]).
  { unfold corrections. eval_norvig. vm_compute. reflexivity. }
  pose proof E0 as E.
  change (corrections c "teh") with (corrections c (strip (lower "teh"))) in E.
  rewrite Hc in E. apply three_inj in E as (E1 & E2 & E3).
  assert (Hd' : "thee" ∉ dictionary c) by by_eval.
  assert (Hu' : user_corrections c !! "thee" = None) by reflexivity.
  destruct (correct_word_plurality c "thee" not_blank_thee Hd' Hu')
    as (Hc' & _ & _ & _ & Hpair).
  assert (E0' : corrections c "thee" = ["tea"; "the"; "the"]).
  { unfold corrections. eval_norvig. vm_compute. reflexivity. }
  pose proof E0' as E'.
  change (corrections c "thee") with (corrections c (strip (lower "thee"))) in E'.
  rewrite Hc' in E'. apply three_inj in E' as (E1' & E2' & E3').
  split; [exact not_blank_teh|]. split; [exact Hd|]. split; [exact Hu|].
  split; [exact Hs|]. split; [exact E0|]. split.
  { rewrite Hthree; [exact E1|rewrite E1, E2|rewrite E1, E3|rewrite E2, E3]; discriminate. }
  split; [exact not_blank_thee|]. split; [exact Hd'|]. split; [exact E0'|].
  rewrite Hpair; [exact E2'|rewrite E2', E3'; reflexivity|rewrite E1', E2'; discriminate].
Defined.

End Suggesting.

(** * Further properties of the engine *)

(** ** The edit distance *)

Section Table.
Variables a b : string.
Local Abbreviation T := (levenshtein_table a b).

Lemma table_down i j : T (S i) j ≤ T i j + 1.
Proof.
  destruct j as [|j]; [rewrite !levenshtein_table_0_r; lia|].
  rewrite levenshtein_table_step. lia.
Qed.

Lemma table_right i j : T i (S j) ≤ T i j + 1.
Proof.
  destruct i as [|i]; [simpl; lia|].
  rewrite levenshtein_table_step. lia.
Qed.

Lemma table_diagonal i j : T (S i) (S j) ≤ T i j + mismatch a b i j.
Proof. rewrite levenshtein_table_step. lia. Qed.

Lemma mismatch_le_1 i j : mismatch a b i j ≤ 1.
Proof. unfold mismatch. case_decide; lia. Qed.

(** Along equal characters the table does not grow. *)
Lemma table_along_equal n i j :
  (∀ k, k < n → String.get (i + k) a = String.get (j + k) b) →
  T (i + n) (j + n) ≤ T i j.
Proof.
  induction n as [|n IH]; intros Heq.
  - by rewrite !Nat.add_0_r.
  - replace (i + S n) with (S (i + n)) by lia.
    replace (j + S n) with (S (j + n)) by lia.
    etrans; [apply table_diagonal|].
    unfold mismatch. rewrite decide_True by (apply Heq; lia).
    rewrite Nat.add_0_r. apply IH. intros k Hk. apply Heq. lia.
Qed.

Lemma table_lower i j : i ≤ T i j + j ∧ j ≤ T i j + i.
Proof.
  revert j. induction i as [|i IHi]; intros j; [simpl; lia|].
  induction j as [|j IHj]; [rewrite levenshtein_table_0_r; lia|].
  rewrite levenshtein_table_step.
  pose proof (IHi j). pose proof (IHi (S j)). lia.
Qed.

Lemma table_upper i j : T i j ≤ i `max` j.
Proof.
  revert j. induction i as [|i IHi]; intros j; [simpl; lia|].
  destruct j as [|j]; [rewrite levenshtein_table_0_r; lia|].
  etrans; [apply table_diagonal|].
  pose proof (IHi j). pose proof (mismatch_le_1 i j). lia.
Qed.

Lemma table_zero i j :
  T i j = 0 → i = j ∧ ∀ k, k < i → String.get k a = String.get k b.
Proof.
  revert j. induction i as [|i IHi]; intros j.
  - simpl. intros ->. split; [done|]. intros k Hk. lia.
  - destruct j as [|j]; [rewrite levenshtein_table_0_r; lia|].
    rewrite levenshtein_table_step. intros Hz.
    assert (Hd : T i j = 0 ∧ mismatch a b i j = 0) by lia.
    destruct Hd as [Hd Hm]. apply IHi in Hd as [-> Hpre].
    split; [done|]. intros k Hk.
    destruct (decide (k = j)) as [->|Hne]; [|apply Hpre; lia].
    unfold mismatch in Hm. by case_decide.
Qed.

End Table.

Lemma get_length_None s : String.get (String.length s) s = None.
Proof. induction s as [|c s IH]; [done|]. exact IH. Qed.

Lemma string_ext s t :
  String.length s = String.length t →
  (∀ k, k < String.length s → String.get k s = String.get k t) →
  s = t.
Proof.
  revert t. induction s as [|c s IH]; intros [|d t] Hlen Hget; try done.
  simpl in Hlen. f_equal.
  - specialize (Hget 0). simpl in Hget. by injection (Hget ltac:(lia)).
  - apply IH; [lia|]. intros k Hk. apply (Hget (S k)). simpl. lia.
Qed.

Lemma length_append (s t : string) :
  String.length (s +:+ t) = String.length s + String.length t.
Proof.
  induction s as [|c s IH]; [by rewrite append_nil_l|].
  rewrite append_cons. simpl. by rewrite IH.
Qed.

Lemma get_append_r (s t : string) k :
  String.get (String.length s + k) (s +:+ t) = String.get k t.
Proof.
  induction s as [|c s IH]; [by rewrite append_nil_l|].
  rewrite append_cons. exact IH.
Qed.

Lemma get_append_same (s t t' : string) k :
  k < String.length s → String.get k (s +:+ t) = String.get k (s +:+ t').
Proof.
  revert k. induction s as [|c s IH]; intros k Hk; [simpl in Hk; lia|].
  rewrite !append_cons. destruct k as [|k]; [done|].
  apply IH. simpl in Hk. lia.
Qed.

(** Equal up to [n]: the table is 0 on the diagonal there. *)
Lemma table_common_prefix (L s t : string) :
  levenshtein_table (L +:+ s) (L +:+ t) (String.length L) (String.length L) = 0.
Proof.
  pose proof (table_along_equal (L +:+ s) (L +:+ t) (String.length L) 0 0) as H.
  simpl in H. apply Nat.le_0_r, H. intros k Hk. by apply get_append_same.
Qed.

Lemma levenshtein_same a : levenshtein a a = 0.
Proof.
  unfold levenshtein.
  pose proof (table_along_equal a a (String.length a) 0 0) as H.
  simpl in H. apply Nat.le_0_r, H. done.
Qed.

Lemma levenshtein_zero a b : levenshtein a b = 0 → a = b.
Proof.
  unfold levenshtein. intros [Hlen Hget]%table_zero. by apply string_ext.
Qed.

(** X1: the distance does not depend on the order of the two words. *)
Theorem distance_symmetric a b :
  _calculate_levenshtein_distance a b = _calculate_levenshtein_distance b a.
Proof. apply calculate_levenshtein_distance_sym. Qed.

(** X2: the distance is 0 exactly between a word and itself. *)
Theorem distance_zero_iff a b :
  _calculate_levenshtein_distance a b = 0 ↔ a = b.
Proof.
  rewrite calculate_levenshtein_distance_table. split.
  - apply levenshtein_zero.
  - intros ->. apply levenshtein_same.
Qed.

(** X3: the distance is at least the difference of the two lengths and
    at most the greater length; against the empty word it is the
    length. *)
Theorem distance_bounds a b :
  String.length a - String.length b ≤ _calculate_levenshtein_distance a b
  ∧ String.length b - String.length a ≤ _calculate_levenshtein_distance a b
  ∧ _calculate_levenshtein_distance a b ≤ String.length a `max` String.length b
  ∧ _calculate_levenshtein_distance a "" = String.length a
  ∧ _calculate_levenshtein_distance "" b = String.length b.
Proof.
  rewrite !calculate_levenshtein_distance_table. unfold levenshtein.
  pose proof (table_lower a b (String.length a) (String.length b)).
  pose proof (table_upper a b (String.length a) (String.length b)).
  repeat split; try lia.
  simpl. apply levenshtein_table_0_r.
Qed.

(** A single edit costs at most 2, and at most 1 unless it is a
    transposition. *)
Lemma one_edit_distance w x : one_edit w x → levenshtein w x ≤ 2.
Proof.
  unfold levenshtein.
  destruct 1 as [L c R|L c d R|L c R l _|L R l _];
    rewrite !length_append; simpl String.length.
  - set (s := L +:+ String c R). set (t := L +:+ R).
    replace (String.length L + S (String.length R))
      with (S (String.length L) + String.length R) by lia.
    etrans; [apply table_along_equal|].
    { intros k Hk. unfold s, t.
      replace (S (String.length L) + k) with (String.length L + S k) by lia.
      by rewrite !get_append_r. }
    etrans; [apply table_down|]. unfold s, t. rewrite table_common_prefix. lia.
  - set (s := L +:+ String c (String d R)). set (t := L +:+ String d (String c R)).
    replace (String.length L + S (S (String.length R)))
      with (S (S (String.length L)) + String.length R) by lia.
    etrans; [apply table_along_equal|].
    { intros k Hk. unfold s, t.
      replace (S (S (String.length L)) + k) with (String.length L + S (S k)) by lia.
      by rewrite !get_append_r. }
    etrans; [apply table_diagonal|].
    pose proof (table_diagonal s t (String.length L) (String.length L)).
    pose proof (mismatch_le_1 s t (String.length L) (String.length L)).
    pose proof (mismatch_le_1 s t (S (String.length L)) (S (String.length L))).
    unfold s, t in *. rewrite table_common_prefix in *. lia.
  - set (s := L +:+ String c R). set (t := L +:+ String l R).
    replace (String.length L + S (String.length R))
      with (S (String.length L) + String.length R) by lia.
    etrans; [apply table_along_equal|].
    { intros k Hk. unfold s, t.
      replace (S (String.length L) + k) with (String.length L + S k) by lia.
      by rewrite !get_append_r. }
    etrans; [apply table_diagonal|].
    pose proof (mismatch_le_1 s t (String.length L) (String.length L)).
    unfold s, t in *. rewrite table_common_prefix. lia.
  - set (s := L +:+ R). set (t := L +:+ String l R).
    replace (String.length L + S (String.length R))
      with (S (String.length L) + String.length R) by lia.
    etrans; [apply (table_along_equal s t (String.length R) (String.length L)
                      (S (String.length L)))|].
    { intros k Hk. unfold s, t.
      replace (S (String.length L) + k) with (String.length L + S k) by lia.
      by rewrite !get_append_r. }
    etrans; [apply table_right|]. unfold s, t. rewrite table_common_prefix. lia.
Qed.

(** ** The two strategies together *)

Lemma StronglySorted_mono {A} (R R' : relation A) l :
  (∀ x y, R x y → R' x y) → StronglySorted R l → StronglySorted R' l.
Proof.
  intros HR. induction 1 as [|x l Hs IH Hx]; constructor; [done|].
  eapply Forall_impl; [exact Hx|]. intros y. apply HR.
Qed.

Section Strategies.
Context `{Order : SetIter} {T : Type} `{Checker : SpellChecker T}.
Implicit Types (c : Corrector T) (w x : string) (md : Z).

(** X4: every word one edit away is within distance 2 (within 1 unless
    the edit is a transposition counted as two substitutions), so what
    Strategy B finds at radius 1 Strategy A finds at threshold 2. *)
Theorem near_edits_are_candidates :
  (∀ w x, x ∈ edits1 w → _calculate_levenshtein_distance w x ≤ 2)
  ∧ (∀ c w x, w ∉ dictionary c → known c (edits1 w) ≠ ∅ →
       x ∈ _get_norvig_candidates c w 2 → x ∈ _get_candidates c w 2).
Proof.
  assert (Hnear : ∀ w x, x ∈ edits1 w → _calculate_levenshtein_distance w x ≤ 2).
  { intros w x Hx. rewrite calculate_levenshtein_distance_table.
    by apply one_edit_distance, elem_of_edits1. }
  split; [done|]. intros c w x Hd Hne Hx.
  rewrite norvig_candidates_near in Hx by done.
  rewrite sort_by_perm, elem_of_set_iter in Hx.
  apply elem_of_known in Hx as [Hdict Hedit].
  apply elem_of_get_candidates; [done|]. split; [done|].
  apply Hnear in Hedit. lia.
Qed.

(** X5: Strategy A's first candidate is a nearest dictionary word, and
    among the nearest one of highest frequency. *)
Theorem top_candidate_is_nearest c w md x rest :
  w ∉ dictionary c →
  _get_candidates c w md = x :: rest →
  x ∈ dictionary c
  ∧ ∀ d, d ∈ dictionary c →
      _calculate_levenshtein_distance w x ≤ _calculate_levenshtein_distance w d
      ∧ (_calculate_levenshtein_distance w d = _calculate_levenshtein_distance w x →
         (freq c d ≤ freq c x)%Z).
Proof.
  intros Hd E.
  assert (Hx : x ∈ _get_candidates c w md) by (rewrite E; left).
  apply elem_of_get_candidates in Hx as [Hxd Hxle]; [|done].
  split; [done|]. intros d Hdd.
  destruct (decide (Z.of_nat (_calculate_levenshtein_distance w d) ≤ md)%Z) as [Hle|Hgt];
    [|lia].
  assert (Hin : d ∈ _get_candidates c w md) by (by apply elem_of_get_candidates).
  rewrite E in Hin. apply elem_of_cons in Hin as [->|Hin]; [lia|].
  pose proof (get_candidates_sorted c w md Hd) as Hs. rewrite E in Hs.
  apply StronglySorted_cons in Hs as [Hall _].
  rewrite Forall_forall in Hall. destruct (Hall d Hin) as [Hlt|[Heq Hf]]; lia.
Qed.

(** X6: raising the threshold only adds candidates, and below 1 a word
    outside the dictionary has none. *)
Theorem threshold_monotone c w md md' :
  w ∉ dictionary c →
  (md ≤ md')%Z →
  (∀ x, x ∈ _get_candidates c w md → x ∈ _get_candidates c w md')
  ∧ ((md < 1)%Z → _get_candidates c w md = []).
Proof.
  intros Hd Hle. split.
  - intros x. rewrite !elem_of_get_candidates by done. intros [? ?]. split; [done|lia].
  - intros Hlow. apply get_candidates_nil. split; [done|]. intros d Hdd.
    destruct (_calculate_levenshtein_distance w d) eqn:E; [|lia].
    rewrite calculate_levenshtein_distance_table in E.
    apply levenshtein_zero in E as ->. done.
Qed.

Lemma more_frequent_total c x y : more_frequent c x y = true ∨ more_frequent c y x = true.
Proof. unfold more_frequent. rewrite !Z.leb_le. lia. Qed.

Lemma more_frequent_trans c x y z :
  more_frequent c x y = true → more_frequent c y z = true → more_frequent c x z = true.
Proof. unfold more_frequent. rewrite !Z.leb_le. lia. Qed.

(** What Strategy B returns for a set of known words. *)
Lemma norvig_result_shape c w (X : gset string) :
  (∀ x, x ∈ X → x ∈ dictionary c) →
  let l := sort_by (more_frequent c) (set_iter X) in
  let r := match l with [] => [w] | _ => l end in
  r ≠ [] ∧ NoDup r
  ∧ StronglySorted (λ x y, (freq c y ≤ freq c x)%Z) r
  ∧ (∀ x, x ∈ r → x ∈ X ∨ (X = ∅ ∧ x = w)).
Proof.
  intros HX l r.
  assert (Hperm : l ≡ₚ set_iter X) by apply sort_by_perm.
  assert (Hsorted : StronglySorted (λ x y, (freq c y ≤ freq c x)%Z) l).
  { eapply StronglySorted_mono; [|apply sort_by_sorted;
      [apply more_frequent_total|apply more_frequent_trans]].
    intros x y Hxy. by apply Z.leb_le in Hxy. }
  subst r. destruct l as [|y l'] eqn:El.
  - assert (X = ∅) as -> by (apply set_iter_nil; by apply Permutation_nil_r).
    split; [done|]. split; [apply NoDup_singleton|].
    split; [repeat constructor|].
    intros x Hx. apply list_elem_of_singleton in Hx. by right.
  - split; [done|]. split; [rewrite Hperm; apply NoDup_set_iter|].
    split; [done|]. intros x Hx. left. by rewrite Hperm, elem_of_set_iter in Hx.
Qed.

(** The set Strategy B sorts: dictionary words only. *)
Lemma norvig_candidates_set c w md :
  ∃ X : gset string,
    (∀ x, x ∈ X → x ∈ dictionary c)
    ∧ (w ∈ dictionary c → w ∈ X)
    ∧ ((md < 1)%Z → w ∉ dictionary c → X = ∅)
    ∧ _get_norvig_candidates c w md
      = let l := sort_by (more_frequent c) (set_iter X) in
        match l with [] => [w] | _ => l end.
Proof.
  unfold _get_norvig_candidates.
  set (X1 := if decide (1 ≤ md)%Z then ∅ ∪ known c (edits1 w) else (∅ : gset string)).
  set (X2 := if decide (2 ≤ md)%Z
             then if decide (X1 = ∅) then X1 ∪ known c (edits2 w) else X1
             else X1).
  set (X3 := if decide (w ∈ dictionary c) then X2 ∪ {[w]} else X2).
  assert (H1 : ∀ x, x ∈ X1 → x ∈ dictionary c).
  { intros x. unfold X1. case_decide; [|by rewrite elem_of_empty].
    rewrite elem_of_union, elem_of_empty, elem_of_known. tauto. }
  assert (H2 : ∀ x, x ∈ X2 → x ∈ dictionary c).
  { intros x. unfold X2. repeat case_decide; try apply H1.
    rewrite elem_of_union, elem_of_known. intros [?|[? _]]; [by apply H1|done]. }
  exists X3. split; [|split; [|split; [|done]]].
  - intros x. unfold X3. case_decide; [|apply H2].
    rewrite elem_of_union, elem_of_singleton. intros [?| ->]; [by apply H2|done].
  - intros Hw. unfold X3. rewrite decide_True by done. apply elem_of_union. right.
    by apply elem_of_singleton.
  - intros Hlow Hw. unfold X3, X2, X1. by rewrite !decide_False by (done || lia).
Qed.

(** Strategy B proposes dictionary words, or the word itself. *)
Lemma elem_of_norvig_candidates c w md x :
  x ∈ _get_norvig_candidates c w md → x ∈ dictionary c ∨ x = w.
Proof.
  destruct (norvig_candidates_set c w md) as (X & HX & _ & _ & ->).
  destruct (norvig_result_shape c w X HX) as (_ & _ & _ & Hin).
  intros Hx. destruct (Hin x Hx) as [?|[_ ->]]; [left; by apply HX|by right].
Qed.

(** X7: Strategy B always returns at least one word and no word twice,
    in descending frequency; each is a dictionary word, unless nothing
    was found and the word itself is the single entry.  A dictionary
    word is always among its own candidates, and below radius 1 a word
    outside the dictionary is returned alone. *)
Theorem norvig_candidates_shape c w md :
  let r := _get_norvig_candidates c w md in
  r ≠ [] ∧ NoDup r
  ∧ StronglySorted (λ x y, (freq c y ≤ freq c x)%Z) r
  ∧ (∀ x, x ∈ r → x ∈ dictionary c ∨ r = [w])
  ∧ (w ∈ dictionary c → w ∈ r)
  ∧ ((md < 1)%Z → w ∉ dictionary c → r = [w]).
Proof.
  intros r. unfold r.
  destruct (norvig_candidates_set c w md) as (X & HX & Hself & Hlow & ->).
  destruct (norvig_result_shape c w X HX) as (Hne & Hnd & Hs & Hin).
  split; [done|]. split; [done|]. split; [done|]. split; [|split].
  - intros x Hx. destruct (Hin x Hx) as [Hx3|[He ->]]; [left; by apply HX|].
    right. rewrite He. by rewrite (proj2 (set_iter_nil ∅)).
  - intros Hw. apply Hself in Hw.
    assert (Hl : w ∈ sort_by (more_frequent c) (set_iter X))
      by (by rewrite sort_by_perm, elem_of_set_iter).
    revert Hl. simpl. generalize (sort_by (more_frequent c) (set_iter X)).
    intros [|y l] Hl; [by apply elem_of_nil in Hl|done].
  - intros Hl Hw. rewrite (Hlow Hl Hw). by rewrite (proj2 (set_iter_nil ∅)).
Qed.

End Strategies.

(** ** The vote, on any list of proposals *)

Lemma votes_for_snoc x y l :
  votes_for y (l ++ [x])%list = votes_for y l + (if decide (x = y) then 1 else 0).
Proof.
  unfold votes_for. rewrite filter_app, length_app. f_equal.
  rewrite filter_cons, filter_nil. by case_decide.
Qed.

Lemma votes_for_pos y l : 0 < votes_for y l ↔ y ∈ l.
Proof.
  unfold votes_for. induction l as [|x l IH]; [rewrite elem_of_nil; simpl; lia|].
  rewrite filter_cons, elem_of_cons. case_decide; simpl; [subst; intuition lia|].
  rewrite IH. intuition congruence.
Qed.

Lemma Counter_snoc l x : Counter (l ++ [x])%list = counter_add x (Counter l).
Proof. unfold Counter. by rewrite foldl_app. Qed.

Lemma counter_add_keys x items :
  (counter_add x items).*1
  = if decide (x ∈ items.*1) then items.*1 else (items.*1 ++ [x])%list.
Proof.
  induction items as [|[y n] items IH].
  - destruct (decide (x ∈ ([] : list (string * nat)).*1)) as [Hin|Hin]; [|done].
    by apply elem_of_nil in Hin.
  - cbn [counter_add]. rewrite fmap_cons. cbn [fst].
    destruct (decide (x = y)) as [->|Hne].
    + destruct (decide (y ∈ y :: items.*1)) as [Hin|Hin]; [done|].
      exfalso. apply Hin. left.
    + rewrite fmap_cons, IH. cbn [fst].
      destruct (decide (x ∈ items.*1)) as [Hin|Hin];
        destruct (decide (x ∈ y :: items.*1)) as [Hin'|Hin']; try done.
      * exfalso. apply Hin'. by right.
      * apply elem_of_cons in Hin' as [?|?]; done.
Qed.

Lemma counter_add_entry x items p :
  NoDup items.*1 →
  p ∈ counter_add x items →
  (p ∈ items ∧ p.1 ≠ x)
  ∨ (p = (x, 1) ∧ x ∉ items.*1)
  ∨ (∃ n, p = (x, S n) ∧ (x, n) ∈ items).
Proof.
  induction items as [|[y n] items IH]; simpl; intros Hnd Hp.
  - apply list_elem_of_singleton in Hp as ->. right. left.
    split; [done|apply not_elem_of_nil].
  - apply NoDup_cons in Hnd as [Hy Hnd]. destruct (decide (x = y)) as [->|Hne].
    + apply elem_of_cons in Hp as [->|Hp].
      * right. right. exists n. split; [done|left].
      * left. split; [by right|]. intros <-. apply Hy.
        apply list_elem_of_fmap. by exists p.
    + apply elem_of_cons in Hp as [->|Hp].
      * left. split; [left|]. simpl. congruence.
      * destruct (IH Hnd Hp) as [[? ?]|[[-> Hx]|(m & -> & Hm)]].
        -- left. split; [by right|done].
        -- right. left. split; [done|]. rewrite elem_of_cons. tauto.
        -- right. right. exists m. split; [done|by right].
Qed.

(** The counter lists every word of the list once, with its number of
    occurrences, in the order of first occurrence. *)
Lemma Counter_spec l :
  NoDup (Counter l).*1
  ∧ (∀ y, y ∈ (Counter l).*1 ↔ y ∈ l)
  ∧ (∀ p, p ∈ Counter l → p.2 = votes_for p.1 l)
  ∧ (∀ k1 k2 y1 y2, k1 < k2 →
       (Counter l).*1 !! k1 = Some y1 → (Counter l).*1 !! k2 = Some y2 →
       occurs_first y1 y2 l).
Proof.
  induction l as [|x l (Hnd & Hkeys & Hcount & Horder)] using rev_ind.
  - split; [constructor|]. split; [done|]. split; [by intros p ?%elem_of_nil|].
    by intros k1 k2 y1 y2 _ ?.
  - rewrite Counter_snoc, counter_add_keys.
    assert (Hold : ∀ y1 y2, occurs_first y1 y2 l → y2 ∈ l → occurs_first y1 y2 (l ++ [x])%list).
    { intros y1 y2 (i & Hi & Hlt) Hy2. exists i.
      split; [by apply lookup_app_l_Some|]. intros j Hj.
      apply lookup_app_Some in Hj as [Hj|[Hge Hj]]; [by apply Hlt|].
      apply lookup_lt_Some in Hi. lia. }
    assert (Hcounts : ∀ p, p ∈ counter_add x (Counter l) →
                           p.2 = votes_for p.1 (l ++ [x])%list).
    { intros p Hp. rewrite votes_for_snoc.
      destruct (counter_add_entry _ _ _ Hnd Hp) as [[Hin Hne]|[[-> Hx]|(n & -> & Hn)]].
      - rewrite decide_False by done. rewrite (Hcount p Hin). lia.
      - simpl. rewrite decide_True by done.
        destruct (votes_for x l) eqn:E; [done|]. exfalso.
        apply Hx, Hkeys, votes_for_pos. lia.
      - pose proof (Hcount _ Hn) as Hv. simpl in Hv |- *.
        rewrite decide_True by done. lia. }
    destruct (decide (x ∈ (Counter l).*1)) as [Hin|Hin].
    + split; [done|]. split; [|split; [done|]].
      * intros y. rewrite Hkeys, elem_of_app, list_elem_of_singleton.
        apply Hkeys in Hin. split; [tauto|]. intros [?| ->]; done.
      * intros k1 k2 y1 y2 Hk H1 H2.
        apply Hold; [exact (Horder k1 k2 y1 y2 Hk H1 H2)|].
        apply Hkeys. by eapply list_elem_of_lookup_2.
    + split; [|split; [|split; [done|]]].
      * apply NoDup_app. split; [done|]. split; [|apply NoDup_singleton].
        intros y Hy ->%list_elem_of_singleton. done.
      * intros y. rewrite !elem_of_app, Hkeys. done.
      * intros k1 k2 y1 y2 Hk H1 H2.
        apply lookup_app_Some in H2 as [H2|[Hge H2]].
        -- pose proof (lookup_lt_Some _ _ _ H2).
           rewrite lookup_app_l in H1 by lia.
           apply Hold; [exact (Horder k1 k2 y1 y2 Hk H1 H2)|].
           apply Hkeys. by eapply list_elem_of_lookup_2.
        -- apply list_lookup_singleton_Some in H2 as [Hk2 <-].
           rewrite lookup_app_l in H1 by lia.
           assert (Hy1 : y1 ∈ l) by (apply Hkeys; by eapply list_elem_of_lookup_2).
           apply list_elem_of_lookup in Hy1 as [i Hi]. exists i.
           split; [by apply lookup_app_l_Some|]. intros j Hj.
           apply lookup_app_Some in Hj as [Hj|[Hge' Hj]].
           ++ exfalso. apply Hin, Hkeys. by eapply list_elem_of_lookup_2.
           ++ apply lookup_lt_Some in Hi. lia.
Qed.

Lemma max_count_first_most seen best rest :
  first_most seen best → first_most (seen ++ rest)%list (max_count best rest).
Proof.
  revert seen best. induction rest as [|it rest IH]; intros seen best Hbest.
  - by rewrite app_nil_r.
  - simpl. replace (seen ++ it :: rest)%list with ((seen ++ [it]) ++ rest)%list
      by (by rewrite <- app_assoc).
    apply IH. destruct Hbest as (k & Hk & Hmax & Hbefore).
    destruct (Nat.ltb_spec best.2 it.2) as [Hlt|Hge].
    + exists (List.length seen). split; [by rewrite list_lookup_middle|]. split.
      * intros p [Hp| ->%list_elem_of_singleton]%elem_of_app; [|lia].
        apply Hmax in Hp. lia.
      * intros k' p Hk' Hp. rewrite lookup_app_l in Hp by lia.
        apply list_elem_of_lookup_2, Hmax in Hp. lia.
    + exists k. split; [by apply lookup_app_l_Some|]. split.
      * intros p [Hp| ->%list_elem_of_singleton]%elem_of_app; [by apply Hmax|lia].
      * intros k' p Hk' Hp. apply (Hbefore k' p Hk').
        apply lookup_lt_Some in Hk. by rewrite lookup_app_l in Hp by lia.
Qed.

Lemma most_common_1_first_most it items :
  ∃ res, most_common_1 (it :: items) = [res] ∧ first_most (it :: items) res.
Proof.
  exists (max_count it items). split; [done|].
  apply (max_count_first_most [it] it items).
  exists 0. split; [done|]. split; [|intros; lia].
  intros p ->%list_elem_of_singleton. lia.
Qed.

(** The vote returns one of the proposals. *)
Lemma vote_in_list l w : l ≠ [] → vote l w ∈ l.
Proof.
  intros Hl. destruct (Counter_spec l) as (_ & Hkeys & _ & _).
  unfold vote. destruct (Counter l) as [|it items] eqn:E.
  { destruct l as [|x l]; [done|]. exfalso.
    assert (Hx : x ∈ (@nil (string * nat)).*1) by (apply Hkeys; left).
    by apply elem_of_nil in Hx. }
  destruct (most_common_1_first_most it items) as ([x n] & -> & k & Hk & _).
  apply Hkeys, list_elem_of_fmap. exists (x, n).
  split; [done|]. by eapply list_elem_of_lookup_2.
Qed.

(** X8: over any list of proposals that is not empty the vote returns
    a proposal with the greatest number of occurrences, and of several
    such the one that occurs first in the list. *)
Theorem vote_first_plurality l w :
  l ≠ [] →
  vote l w ∈ l
  ∧ (∀ y, votes_for y l ≤ votes_for (vote l w) l)
  ∧ (∀ y, y ≠ vote l w → votes_for y l = votes_for (vote l w) l →
          occurs_first (vote l w) y l).
Proof.
  intros Hl. destruct (Counter_spec l) as (Hnd & Hkeys & Hcount & Horder).
  unfold vote. destruct (Counter l) as [|it items] eqn:E.
  { destruct l as [|x l]; [done|]. exfalso.
    assert (Hx : x ∈ (@nil (string * nat)).*1) by (apply Hkeys; left).
    by apply elem_of_nil in Hx. }
  destruct (most_common_1_first_most it items) as ([x n] & -> & k & Hk & Hmax & Hbefore).
  cbn [fst snd] in Hmax, Hbefore.
  assert (Hx : x ∈ l).
  { apply Hkeys, list_elem_of_fmap. exists (x, n).
    split; [done|]. by eapply list_elem_of_lookup_2. }
  assert (Hn : n = votes_for x l).
  { apply (Hcount (x, n)). by eapply list_elem_of_lookup_2. }
  assert (Hle : ∀ y, votes_for y l ≤ votes_for x l).
  { intros y. destruct (decide (y ∈ l)) as [Hy|Hy].
    - apply Hkeys, list_elem_of_fmap in Hy as ([y' m] & -> & Hy).
      rewrite <- (Hcount _ Hy), <- Hn. apply (Hmax _ Hy).
    - destruct (votes_for y l) eqn:Ey; [lia|]. exfalso.
      apply Hy, votes_for_pos. lia. }
  split; [done|]. split; [done|]. intros y Hne Heq.
  assert (Hy : y ∈ l).
  { apply votes_for_pos. rewrite Heq. by apply votes_for_pos. }
  apply Hkeys, list_elem_of_lookup in Hy as [k' Hk'].
  assert (Hkx : (it :: items).*1 !! k = Some x) by (by rewrite list_lookup_fmap, Hk).
  destruct (Nat.lt_total k k') as [Hlt|[->|Hgt]].
  - by apply (Horder k k').
  - congruence.
  - exfalso. rewrite list_lookup_fmap in Hk'.
    destruct ((it :: items) !! k') as [[y' m]|] eqn:Ep; [|done].
    simpl in Hk'. injection Hk' as ->.
    pose proof (Hbefore k' _ Hgt Ep) as Hm.
    pose proof (Hcount _ (list_elem_of_lookup_2 _ _ _ Ep)) as Hv.
    cbn [fst snd] in Hm, Hv. lia.
Qed.

(** ** What [correct_word] hands back, and what the mutators keep *)

Lemma lstrip_no_space s : all_chars (λ a, negb (isspace a)) s = true → lstrip s = s.
Proof.
  destruct s as [|a s]; simpl; [done|].
  intros [Ha _]%andb_true_iff. by destruct (isspace a).
Qed.

Lemma rstrip_no_space s : all_chars (λ a, negb (isspace a)) s = true → rstrip s = s.
Proof.
  induction s as [|a s IH]; simpl; [done|].
  intros [Ha Hs]%andb_true_iff. rewrite (IH Hs).
  destruct s; [by destruct (isspace a)|done].
Qed.

Lemma strip_no_space s : all_chars (λ a, negb (isspace a)) s = true → strip s = s.
Proof. intros Hs. unfold strip. by rewrite lstrip_no_space, rstrip_no_space. Qed.

Section Behaviour.
Context `{Order : SetIter} {T : Type} `{Checker : SpellChecker T}.
Implicit Types (c : Corrector T) (token w : string) (tokens : list string).

Lemma first_or_in (l : list string) w : first_or l w ∈ l ∨ first_or l w = w.
Proof. destruct l as [|x l]; [by right|left; left]. Qed.

(** X9: [correct_word] never makes a word up.  What it returns is the
    token itself, its normal form, a dictionary word, the user
    correction on record for the normal form, or the suggester's answer
    for it. *)
Theorem correct_word_provenance c token :
  let w := strip (lower token) in
  let r := correct_word c token in
  r = token ∨ r = w ∨ r ∈ dictionary c
  ∨ user_corrections c !! w = Some r
  ∨ correction (spell_checker c) w = Some r.
Proof.
  intros w r. unfold r. destruct (decide (blank token)) as [Hb|Hb].
  { left. by apply correct_word_blank. }
  rewrite correct_word_unfold by done. fold w. cbv zeta.
  destruct (decide (w ∈ dictionary c)) as [Hd|Hd]; [by right; left|].
  destruct (user_corrections c !! w) as [corr|] eqn:Hu; [by do 3 right; left|].
  assert (Hv : vote (corrections c w) w ∈ corrections c w) by (by apply vote_in_list).
  revert Hv. generalize (vote (corrections c w) w). intros x Hx.
  unfold corrections in Hx.
  apply elem_of_cons in Hx as [->|Hx].
  { destruct (correction (spell_checker c) w) as [[|a s]|] eqn:E; simpl.
    - by right; left.
    - by do 4 right.
    - by right; left. }
  apply elem_of_cons in Hx as [->|Hx].
  { destruct (first_or_in (_get_candidates c w 2) w) as [Hin| ->]; [|by right; left].
    apply elem_of_get_candidates in Hin as [Hin _]; [|done]. by do 2 right; left. }
  apply list_elem_of_singleton in Hx as ->.
  destruct (first_or_in (_get_norvig_candidates c w 2) w) as [Hin| ->]; [|by right; left].
  apply elem_of_norvig_candidates in Hin as [Hin| ->]; [by do 2 right; left|by right; left].
Qed.

(** X10: a word added with [add_to_dictionary] is found again: its
    normal form is in the dictionary with the frequency given, and
    [correct_word] returns it for the word as it was passed.  Other
    words keep their membership and frequency, and the user corrections
    are not touched. *)
Theorem add_to_dictionary_round_trip c word frequency :
  let c' := add_to_dictionary c word frequency in
  let w := strip (lower word) in
  w ∈ dictionary c' ∧ freq c' w = frequency
  ∧ (¬ blank word → correct_word c' word = w)
  ∧ (∀ x, x ≠ w → (x ∈ dictionary c' ↔ x ∈ dictionary c) ∧ freq c' x = freq c x)
  ∧ user_corrections c' = user_corrections c.
Proof.
  intros c' w.
  assert (Hw : w ∈ dictionary c').
  { unfold c', add_to_dictionary. simpl. apply elem_of_union. right.
    by apply elem_of_singleton. }
  split; [done|]. split; [|split; [|split; [|done]]].
  - unfold freq, c', add_to_dictionary. simpl. fold w. by rewrite lookup_insert_eq.
  - intros Hb. by apply correct_word_known.
  - intros x Hx. split.
    + unfold c', add_to_dictionary. simpl. fold w.
      rewrite elem_of_union, elem_of_singleton. tauto.
    + unfold freq, c', add_to_dictionary. simpl. fold w.
      by rewrite lookup_insert_ne.
Qed.

Lemma load_line_frame c c' line :
  load_line c line = Some c' →
  dictionary c ⊆ dictionary c'
  ∧ user_corrections c' = user_corrections c
  ∧ spell_checker c' = spell_checker c
  ∧ (∀ x, x ∈ dictionary c' → x ∈ dictionary c ∨ strip (lower x) = x).
Proof.
  unfold load_line.
  destruct (split (strip line)) as [|p0 [|p1 parts]] eqn:E;
    try (intros [= <-]; split; [done|]; split; [done|]; split; [done|]; by left).
  destruct (int p1) as [n|]; [|done]. simpl. intros [= <-]. simpl.
  split; [apply union_subseteq_l|]. split; [done|]. split; [done|].
  intros x [Hx| ->%elem_of_singleton]%elem_of_union; [by left|right].
  rewrite lower_idem. apply strip_no_space, lower_keeps_fields.
  apply (split_go_fields [] (strip line)); [constructor|].
  fold (split (strip line)). rewrite E. left.
Qed.

Lemma load_lines_frame c lines :
  let r := (load_lines c lines).1 in
  dictionary c ⊆ dictionary r
  ∧ user_corrections r = user_corrections c
  ∧ spell_checker r = spell_checker c
  ∧ (∀ x, x ∈ dictionary r → x ∈ dictionary c ∨ strip (lower x) = x).
Proof.
  revert c. induction lines as [|line lines IH]; intros c; simpl.
  { split; [done|]. split; [done|]. split; [done|]. by left. }
  destruct (load_line c line) as [c'|] eqn:E; simpl.
  - destruct (load_line_frame _ _ _ E) as (H1 & H2 & H3 & H4).
    destruct (IH c') as (I1 & I2 & I3 & I4).
    split; [by etrans|]. split; [congruence|]. split; [congruence|].
    intros x Hx. destruct (I4 x Hx) as [Hx'|?]; [by apply H4|by right].
  - split; [done|]. split; [done|]. split; [done|]. by left.
Qed.

(** X11: the three mutators never remove a word from the dictionary;
    [load_custom_dictionary] moreover leaves the user corrections and
    the suggester's own word list as they were, whether it ends with an
    error or not. *)
Theorem dictionary_only_grows c :
  (∀ word frequency, dictionary c ⊆ dictionary (add_to_dictionary c word frequency))
  ∧ (∀ m corr, dictionary c ⊆ dictionary (add_user_correction c m corr))
  ∧ (∀ file,
       let r := (load_custom_dictionary c file).1 in
       dictionary c ⊆ dictionary r
       ∧ user_corrections r = user_corrections c
       ∧ spell_checker r = spell_checker c).
Proof.
  split; [|split].
  - intros word frequency. unfold add_to_dictionary. simpl. apply union_subseteq_l.
  - intros m corr. rewrite add_user_correction_dictionary. apply union_subseteq_l.
  - intros [|lines ends]; [done|]. rewrite load_custom_dictionary_state.
    destruct (load_lines_frame c lines) as (H1 & H2 & H3 & _). done.
Qed.

(** X12: a dictionary whose words are all in normal form (lower case,
    no surrounding whitespace) stays so under the three mutators, and
    [correct_word] returns each of its words unchanged. *)
Theorem normal_dictionary_kept c :
  normal_dictionary c →
  (∀ word frequency, normal_dictionary (add_to_dictionary c word frequency))
  ∧ (∀ m corr, normal_dictionary (add_user_correction c m corr))
  ∧ (∀ file, normal_dictionary (load_custom_dictionary c file).1)
  ∧ (∀ w, w ∈ dictionary c → correct_word c w = w).
Proof.
  intros Hn. split; [|split; [|split]].
  - intros word frequency x. unfold add_to_dictionary. simpl.
    intros [Hx| ->%elem_of_singleton]%elem_of_union; [by apply Hn|apply normalise_idem].
  - intros m corr x. rewrite add_user_correction_dictionary.
    intros [Hx| ->%elem_of_singleton]%elem_of_union; [by apply Hn|apply normalise_idem].
  - intros [|lines ends]; [done|]. rewrite load_custom_dictionary_state. intros x Hx.
    destruct (load_lines_frame c lines) as (_ & _ & _ & H4).
    destruct (H4 x Hx) as [Hx'|?]; [by apply Hn|done].
  - intros w Hw. destruct (decide (blank w)) as [Hb|Hb].
    + by apply correct_word_blank.
    + rewrite correct_word_known; [by apply Hn|done|]. by rewrite (Hn w Hw).
Qed.

Lemma correct_at_known c tokens i token :
  token ∈ dictionary c → correct_at c tokens i token = token.
Proof.
  intros Hd. unfold correct_at. destruct (skipped token); [done|].
  by rewrite decide_True.
Qed.

Lemma correct_word_normal_known c token :
  normal_dictionary c → token ∈ dictionary c → correct_word c token = token.
Proof.
  intros Hn Hw. destruct (decide (blank token)) as [Hb|Hb].
  - by apply correct_word_blank.
  - rewrite correct_word_known; [by apply Hn|done|]. by rewrite (Hn _ Hw).
Qed.

Lemma context_tokens_without_pairs c tokens :
  no_pair_keys c → normal_dictionary c →
  correct_tokens_with_context c tokens = correct_tokens c tokens.
Proof.
  intros Hk Hn. apply list_eq. intros i.
  destruct (tokens !! i) as [token|] eqn:Hi.
  - destruct (decide (token ∈ dictionary c)) as [Hd|Hd].
    + rewrite (lookup_correct_tokens_with_context _ _ _ token) by done.
      rewrite (lookup_correct_tokens _ _ _ token) by done.
      rewrite correct_at_known by done.
      destruct (skipped token); [done|]. by rewrite correct_word_normal_known.
    + by apply (no_pair_keys_no_context c tokens i token).
  - unfold correct_tokens_with_context, correct_tokens.
    by rewrite list_lookup_imap, list_lookup_fmap, Hi.
Qed.

(** X13: the context-aware mode finds its evidence only in keys of the
    frequency table that hold a space.  With a table of single words
    and a dictionary in normal form, [correct_with_context] returns what
    [correct_text] returns, on every text and with every tokenizer; and
    [load_custom_dictionary] keeps both conditions. *)
Theorem context_needs_pair_keys `{Tokenizer} c text :
  no_pair_keys c → normal_dictionary c →
  correct_with_context c text = correct_text c text
  ∧ ∀ file, no_pair_keys (load_custom_dictionary c file).1
            ∧ normal_dictionary (load_custom_dictionary c file).1.
Proof.
  intros Hk Hn. split.
  - unfold correct_with_context, correct_text.
    by rewrite context_tokens_without_pairs.
  - intros file. split; [by apply load_custom_dictionary_no_pair_keys|].
    destruct file as [|lines ends]; [done|]. rewrite load_custom_dictionary_state.
    intros x Hx.
    destruct (load_lines_frame c lines) as (_ & _ & _ & H4).
    destruct (H4 x Hx) as [Hx'|?]; [by apply Hn|done].
Qed.

(** X14: tokens that are dictionary words in normal form, numbers or
    punctuation come back as they went in, in both modes: a text of
    known words is not altered token by token. *)
Theorem known_tokens_unchanged c tokens :
  normal_dictionary c →
  Forall (λ token, skipped token = true ∨ token ∈ dictionary c) tokens →
  correct_tokens c tokens = tokens
  ∧ correct_tokens_with_context c tokens = tokens.
Proof.
  intros Hn Hall.
  assert (H1 : correct_tokens c tokens = tokens).
  { unfold correct_tokens. induction Hall as [|token tokens Ht _ IH]; [done|].
    rewrite fmap_cons, IH. f_equal.
    destruct (skipped token) eqn:Hs; [done|].
    destruct Ht as [?|Hd]; [done|]. by apply correct_word_normal_known. }
  split; [done|]. apply list_eq. intros i.
  destruct (tokens !! i) as [token|] eqn:Hi.
  - rewrite (lookup_correct_tokens_with_context _ _ _ token) by done. f_equal.
    rewrite Forall_lookup in Hall. destruct (Hall i token Hi) as [Hs|Hd].
    + unfold correct_at. by rewrite Hs.
    + by apply correct_at_known.
  - unfold correct_tokens_with_context. by rewrite list_lookup_imap, Hi.
Qed.

End Behaviour.

(** ** The two text passes: [_preprocess] and the spacing fix *)

Lemma is_mark_not_space m : is_mark m = true → isspace m = false.
Proof.
  unfold is_mark. intros Hm%bool_decide_eq_true. vm_compute in Hm.
  repeat (apply elem_of_cons in Hm as [->|Hm]; [reflexivity|]).
  by apply elem_of_nil in Hm.
Qed.

Lemma fix_spacing_cons c t :
  fix_spacing (String c t)
  = match fix_spacing t with
    | String m r => if isspace c && is_mark m then String m r else String c (String m r)
    | "" => String c ""
    end.
Proof. simpl. by destruct (fix_spacing t). Qed.

Lemma fix_spacing_head a t :
  isspace a = false → ∃ r, fix_spacing (String a t) = String a r.
Proof.
  intros Ha. rewrite fix_spacing_cons. destruct (fix_spacing t) as [|m r]; [by eexists|].
  rewrite Ha. by eexists.
Qed.

Lemma fix_spacing_clean t : space_before_mark (fix_spacing t) = false.
Proof.
  induction t as [|c t IH]; [done|]. rewrite fix_spacing_cons.
  destruct (fix_spacing t) as [|m r] eqn:E; [done|].
  destruct (isspace c && is_mark m) eqn:Hc; [done|].
  change (space_before_mark (String c (String m r)))
    with ((isspace c && is_mark m) || space_before_mark (String m r)).
  by rewrite Hc, IH.
Qed.

Lemma fix_spacing_fixed t : space_before_mark t = false → fix_spacing t = t.
Proof.
  induction t as [|c t IH]; [done|]. intros Hs. rewrite fix_spacing_cons.
  destruct t as [|m t]; [done|].
  change (space_before_mark (String c (String m t)))
    with ((isspace c && is_mark m) || space_before_mark (String m t)) in Hs.
  apply orb_false_iff in Hs as [Hc Hs]. rewrite (IH Hs). by rewrite Hc.
Qed.

Lemma visible_cons a t :
  visible (String a t) = if isspace a then visible t else a :: visible t.
Proof. done. Qed.

Lemma fix_spacing_visible t : visible (fix_spacing t) = visible t.
Proof.
  induction t as [|c t IH]; [done|]. rewrite fix_spacing_cons, (visible_cons c t).
  destruct (fix_spacing t) as [|m r] eqn:E.
  - by rewrite visible_cons, IH.
  - destruct (isspace c && is_mark m) eqn:Hc.
    + apply andb_true_iff in Hc as [Hc _]. by rewrite Hc, <- IH.
    + by rewrite (visible_cons c), IH.
Qed.

Lemma fix_spacing_length t : String.length (fix_spacing t) ≤ String.length t.
Proof.
  induction t as [|c t IH]; [done|]. rewrite fix_spacing_cons.
  destruct (fix_spacing t) as [|m r] eqn:E; [simpl; lia|].
  destruct (isspace c && is_mark m); simpl in *; lia.
Qed.

(** X15: the spacing fix deletes whitespace and nothing else; after it
    no whitespace character stands directly before one of the marks
    [, . ! ? : ;]; a text that has none there is returned as it is, so
    the fix applied twice is the fix applied once. *)
Theorem fix_spacing_only_closes_gaps text :
  visible (fix_spacing text) = visible text
  ∧ String.length (fix_spacing text) ≤ String.length text
  ∧ space_before_mark (fix_spacing text) = false
  ∧ (space_before_mark text = false → fix_spacing text = text)
  ∧ fix_spacing (fix_spacing text) = fix_spacing text.
Proof.
  split; [apply fix_spacing_visible|]. split; [apply fix_spacing_length|].
  split; [apply fix_spacing_clean|]. split; [apply fix_spacing_fixed|].
  apply fix_spacing_fixed, fix_spacing_clean.
Qed.

(** *** [_preprocess] *)



Lemma lower_char_small a : between 97 122 a = true → lower_char a = a.
Proof. by destruct a as [[] [] [] [] [] [] [] []]. Qed.







(** ** [autocorrect/corpus.py]: what a load counts *)

Section Counting.
Import corpus.
Implicit Types (h : CorpusHandler) (words : list string) (w x y : string).

Lemma get0_incr (m : gmap string Z) k x :
  get0 (incr m k) x = (get0 m x + if decide (k = x) then 1 else 0)%Z.
Proof.
  unfold incr, get0. destruct (decide (k = x)) as [->|Hne].
  - by rewrite lookup_insert_eq.
  - rewrite lookup_insert_ne by done. lia.
Qed.

Lemma votes_for_cons x y l :
  votes_for y (x :: l) = (if decide (x = y) then 1 else 0) + votes_for y l.
Proof. unfold votes_for. rewrite filter_cons. by case_decide. Qed.

Lemma count_words_spec h words :
  bigram_freq (count_words h words) = bigram_freq h
  ∧ ∀ w, get0 (word_freq (count_words h words)) w
         = (get0 (word_freq h) w
            + if isalpha w then Z.of_nat (votes_for w words) else 0)%Z.
Proof.
  unfold count_words. revert h.
  induction words as [|x words IH]; intros h.
  { split; [done|]. intros w. unfold votes_for. simpl. destruct (isalpha w); lia. }
  cbn [foldl]. destruct (IH (if isalpha x
                             then {| word_freq := incr (word_freq h) x;
                                     bigram_freq := bigram_freq h |}
                             else h)) as [Hb Hw].
  split; [rewrite Hb; by destruct (isalpha x)|].
  intros w. rewrite Hw, votes_for_cons. destruct (isalpha x) eqn:Hx; simpl.
  - rewrite get0_incr. destruct (decide (x = w)) as [->|Hne].
    + rewrite Hx. lia.
    + destruct (isalpha w); lia.
  - destruct (decide (x = w)) as [->|Hne]; [rewrite Hx; lia|].
    destruct (isalpha w); lia.
Qed.

Lemma isalpha_no_space w : isalpha w = true → all_chars (λ a, negb (isspace a)) w = true.
Proof.
  unfold isalpha. intros [_ Hall]%andb_true_iff.
  induction w as [|a w IH]; [done|]. simpl in *.
  apply andb_true_iff in Hall as [Ha Hall]. rewrite (IH Hall), andb_true_r.
  revert Ha. by destruct a as [[] [] [] [] [] [] [] []].
Qed.

(** A key of two words without whitespace determines the two words. *)
Lemma pair_key_inj x y x' y' :
  all_chars (λ a, negb (isspace a)) x = true →
  all_chars (λ a, negb (isspace a)) x' = true →
  x +:+ " " +:+ y = x' +:+ " " +:+ y' → x = x' ∧ y = y'.
Proof.
  revert x'. induction x as [|a x IH]; intros [|a' x'] Hx Hx'.
  - rewrite !append_nil_l, !append_cons, !append_nil_l. by intros [= ->].
  - rewrite !append_nil_l, !append_cons, !append_nil_l. intros [= <- _].
    by simpl in Hx'.
  - rewrite !append_nil_l, !append_cons, !append_nil_l. intros [= -> _].
    by simpl in Hx.
  - rewrite !append_cons. intros [= -> E].
    simpl in Hx, Hx'. apply andb_true_iff in Hx as [_ Hx].
    apply andb_true_iff in Hx' as [_ Hx'].
    destruct (IH x' Hx Hx' E) as [-> ->]. done.
Qed.

Lemma bigrams_alpha (l : list string) bg :
  Forall (λ w, isalpha w = true) l → bg ∈ bigrams l →
  isalpha bg.1 = true ∧ isalpha bg.2 = true.
Proof.
  induction 1 as [|x l Hx Hl IH]; [by intros ?%elem_of_nil|].
  destruct l as [|y l]; [by intros ?%elem_of_nil|].
  cbn [bigrams]. intros [->|Hin]%elem_of_cons; [|by apply IH].
  split; [done|]. by apply Forall_cons in Hl as [? _].
Qed.

Lemma count_pairs_spec h (pairs : list (string * string)) :
  Forall (λ bg, isalpha bg.1 = true ∧ isalpha bg.2 = true) pairs →
  let h' := foldl (λ h bg,
                     {| word_freq := word_freq h;
                        bigram_freq := incr (bigram_freq h) (join " " [bg.1; bg.2]) |})
                  h pairs in
  word_freq h' = word_freq h
  ∧ ∀ x y, isalpha x = true →
      get0 (bigram_freq h') (x +:+ " " +:+ y)
      = (get0 (bigram_freq h) (x +:+ " " +:+ y)
         + Z.of_nat (List.length (filter (λ bg, bg = (x, y)) pairs)))%Z.
Proof.
  intros Hall. revert h. induction Hall as [|[a b] pairs [Ha Hb] _ IH]; intros h.
  { split; [done|]. intros x y _. simpl. lia. }
  cbn [foldl]. cbn [fst snd] in *.
  destruct (IH {| word_freq := word_freq h;
                  bigram_freq := incr (bigram_freq h) (join " " [a; b]) |}) as [Hw Hbg].
  split; [by rewrite Hw|]. intros x y Hx. rewrite (Hbg x y Hx). cbn [bigram_freq].
  rewrite get0_incr, join_pair, filter_cons.
  destruct (decide ((a, b) = (x, y))) as [[= -> ->]|Hne].
  - rewrite decide_True by done. cbn [List.length]. lia.
  - rewrite decide_False; [lia|]. intros E. apply Hne.
    apply pair_key_inj in E as [-> ->]; [done|by apply isalpha_no_space..].
Qed.

Lemma filter_isalpha words : Forall (λ w, isalpha w = true) (List.filter isalpha words).
Proof. apply Forall_forall. intros w Hw. apply list_elem_of_In, filter_In in Hw. tauto. Qed.

(** X17: loading a text adds, for every alphabetic word, the number of
    times it stands in the lowered text (special characters read as
    blanks), and for every pair of alphabetic words the number of times
    the first is directly followed by the second once the other tokens
    are dropped; nothing is reset, and a token such as a number does not
    separate its neighbours. *)
Theorem text_load_counts h content :
  let words := split (blank_special (lower content)) in
  let r := load_custom_corpus h (Txt (Some content)) in
  r.2 = Loaded
  ∧ (∀ w, get_word_frequency r.1 w
          = (get_word_frequency h w
             + if isalpha (lower w) then Z.of_nat (votes_for (lower w) words) else 0)%Z)
  ∧ (∀ w1 w2, isalpha (lower w1) = true →
       get_bigram_frequency r.1 w1 w2
       = (get_bigram_frequency h w1 w2
          + Z.of_nat (pair_occurrences (lower w1) (lower w2)
                        (List.filter isalpha words)))%Z).
Proof.
  intros words r. split; [done|].
  destruct (count_words_spec h words) as [Hcb Hcw].
  assert (Hpairs : Forall (λ bg, isalpha bg.1 = true ∧ isalpha bg.2 = true)
                     (bigrams (List.filter isalpha words))).
  { apply Forall_forall. intros bg. apply bigrams_alpha, filter_isalpha. }
  destruct (count_pairs_spec (count_words h words) _ Hpairs) as [Hbw Hbb].
  unfold r, load_custom_corpus. cbn [fst]. fold words. split.
  - intros w. unfold get_word_frequency, count_bigrams. rewrite Hbw. apply Hcw.
  - intros w1 w2 H1. unfold get_bigram_frequency, count_bigrams, pair_occurrences.
    rewrite (Hbb _ _ H1), Hcb. done.
Qed.

(** *** Tables *)

Lemma rows_for_snoc x rows row :
  rows_for x (rows ++ [row])%list
  = (rows_for x rows ++ if decide (lower row.1 = x) then [row] else [])%list.
Proof.
  unfold rows_for. rewrite filter_app, filter_cons, filter_nil. by case_decide.
Qed.

(** X18: a word/frequency table sets frequencies, it does not add to
    them: after a load that went through, an alphabetic word has the
    frequency of the last row about it, words without a row keep what
    they had, and the pair counts are not touched. *)
Theorem table_load_overwrites h rows h' x :
  load_custom_corpus h (Table (Some (WordFrequency rows))) = (h', Loaded) →
  bigram_freq h' = bigram_freq h
  ∧ word_freq h' !! x
    = match last (rows_for x rows) with
      | Some (_, Some f) => if isalpha x then Some f else word_freq h !! x
      | _ => word_freq h !! x
      end.
Proof.
  cbn [load_custom_corpus]. revert h'.
  induction rows as [|[w f] rows IH] using rev_ind; intros h'.
  { intros [= <-]. done. }
  rewrite load_rows_app.
  destruct (load_rows h rows) as [h1 []] eqn:E1; try done.
  destruct (IH h1 eq_refl) as [Hb Hw].
  cbn [load_rows]. destruct f as [f|]; [|done]. intros [= <-].
  rewrite rows_for_snoc. cbn [fst].
  destruct (isalpha (lower w)) eqn:Hal.
  - cbn [bigram_freq word_freq]. split; [done|].
    destruct (decide (lower w = x)) as [<-|Hne].
    + rewrite last_snoc, Hal. by rewrite lookup_insert_eq.
    + rewrite app_nil_r, lookup_insert_ne by done. apply Hw.
  - split; [done|]. destruct (decide (lower w = x)) as [<-|Hne].
    + rewrite last_snoc, Hal. rewrite Hw.
      destruct (last (rows_for (lower w) rows)) as [[? [?|]]|]; by rewrite ?Hal.
    + rewrite app_nil_r. apply Hw.
Qed.

End Counting.

(** ** What a corpus load leaves in the tables *)

Section CorpusKeys.
Import corpus.
Implicit Types (h : CorpusHandler) (words : list string).

Lemma grows_refl h : grows_alphabetically h h.
Proof. split; [done|]. split; [done|]. split; intros k Hk; by left. Qed.

Lemma grows_trans h1 h2 h3 :
  grows_alphabetically h1 h2 → grows_alphabetically h2 h3 → grows_alphabetically h1 h3.
Proof.
  intros (A1 & A2 & A3 & A4) (B1 & B2 & B3 & B4).
  split; [intros k Hk; by apply B1, A1|]. split; [intros k Hk; by apply B2, A2|]. split.
  - intros k Hk. destruct (B3 k Hk) as [Hk'|?]; [by apply A3|by right].
  - intros k Hk. destruct (B4 k Hk) as [Hk'|?]; [by apply A4|by right].
Qed.

Lemma grows_word h x v :
  isalpha x = true → lower x = x →
  grows_alphabetically h {| word_freq := <[x := v]> (word_freq h);
                            bigram_freq := bigram_freq h |}.
Proof.
  intros Hx Hl. split; [|split; [done|split]]; cbn [word_freq bigram_freq].
  - intros k Hk. destruct (decide (x = k)) as [->|Hne].
    + by rewrite lookup_insert_eq.
    + by rewrite lookup_insert_ne.
  - intros k Hk. destruct (decide (x = k)) as [<-|Hne]; [by right|].
    rewrite lookup_insert_ne in Hk by done. by left.
  - intros k Hk. by left.
Qed.

Lemma grows_pair h x y v :
  isalpha x = true → lower x = x → isalpha y = true → lower y = y →
  grows_alphabetically h {| word_freq := word_freq h;
                            bigram_freq := <[x +:+ " " +:+ y := v]> (bigram_freq h) |}.
Proof.
  intros Hx Hlx Hy Hly. split; [done|]. split; [|split]; cbn [word_freq bigram_freq].
  - intros k Hk. destruct (decide (x +:+ " " +:+ y = k)) as [<-|Hne].
    + by rewrite lookup_insert_eq.
    + by rewrite lookup_insert_ne.
  - intros k Hk. by left.
  - intros k Hk. destruct (decide (x +:+ " " +:+ y = k)) as [<-|Hne].
    + right. by exists x, y.
    + rewrite lookup_insert_ne in Hk by done. by left.
Qed.

(** The fields of a text are made of characters of the text. *)
Lemma split_go_all_chars (p : ascii → bool) cur s field :
  Forall (λ a, p a = true) cur → all_chars p s = true →
  field ∈ split_go cur s → all_chars p field = true.
Proof.
  revert cur. induction s as [|a s IH]; intros cur Hcur Hs Hin.
  - simpl in Hin. destruct cur as [|b cur]; [by apply elem_of_nil in Hin|].
    apply list_elem_of_singleton in Hin as ->.
    by apply all_chars_of_list, List.Forall_rev.
  - simpl in Hs. apply andb_true_iff in Hs as [Ha Hs]. simpl in Hin.
    destruct (isspace a).
    + apply elem_of_app in Hin as [Hin|Hin]; [|by apply (IH [])].
      destruct cur as [|b cur]; [by apply elem_of_nil in Hin|].
      apply list_elem_of_singleton in Hin as ->.
      by apply all_chars_of_list, List.Forall_rev.
    + apply (IH (a :: cur)); [by constructor|done..].
Qed.

Lemma all_chars_lower s : all_chars unchanged_by_lower (lower s) = true.
Proof.
  induction s as [|a s IH]; [done|]. simpl. rewrite IH, andb_true_r.
  apply bool_decide_eq_true_2, lower_char_idem.
Qed.

Lemma lower_unchanged s : all_chars unchanged_by_lower s = true → lower s = s.
Proof.
  induction s as [|a s IH]; [done|]. simpl.
  intros [Ha%bool_decide_eq_true Hs]%andb_true_iff. by rewrite Ha, IH.
Qed.

Lemma blank_special_unchanged s :
  all_chars unchanged_by_lower s = true →
  all_chars unchanged_by_lower (blank_special s) = true.
Proof.
  induction s as [|a s IH]; [done|]. simpl.
  intros [Ha Hs]%andb_true_iff. rewrite (IH Hs), andb_true_r.
  by destruct (isword_char a || isspace a).
Qed.

Lemma words_lower s w : w ∈ split (blank_special (lower s)) → lower w = w.
Proof.
  intros Hw. apply lower_unchanged.
  apply (split_go_all_chars _ [] (blank_special (lower s))); [constructor| |done].
  apply blank_special_unchanged, all_chars_lower.
Qed.

Lemma grows_count_words h words :
  Forall (λ w, lower w = w) words → grows_alphabetically h (count_words h words).
Proof.
  unfold count_words. intros Hall. revert h.
  induction Hall as [|x words Hx _ IH]; intros h; [apply grows_refl|].
  cbn [foldl]. eapply grows_trans; [|apply IH].
  destruct (isalpha x) eqn:Hal; [by apply grows_word|apply grows_refl].
Qed.

Lemma bigrams_elem (l : list string) bg : bg ∈ bigrams l → bg.1 ∈ l ∧ bg.2 ∈ l.
Proof.
  induction l as [|x l IH]; [by intros ?%elem_of_nil|].
  destruct l as [|y l]; [by intros ?%elem_of_nil|].
  cbn [bigrams]. intros [->|Hin]%elem_of_cons.
  - split; [left|right; left].
  - destruct (IH Hin). split; by right.
Qed.

Lemma grows_count_bigrams h words :
  Forall (λ w, lower w = w) words → grows_alphabetically h (count_bigrams h words).
Proof.
  intros Hall. unfold count_bigrams.
  assert (Hp : Forall (λ bg, (isalpha bg.1 = true ∧ lower bg.1 = bg.1)
                             ∧ (isalpha bg.2 = true ∧ lower bg.2 = bg.2))
                 (bigrams (List.filter isalpha words))).
  { apply Forall_forall. intros bg [H1 H2]%bigrams_elem.
    rewrite Forall_forall in Hall.
    apply list_elem_of_In, filter_In in H1 as [H1 ?].
    apply list_elem_of_In, filter_In in H2 as [H2 ?].
    apply list_elem_of_In in H1, H2. split; split; try done; by apply Hall. }
  revert h. induction Hp as [|[x y] pairs [[? ?] [? ?]] _ IH]; intros h; [apply grows_refl|].
  cbn [foldl]. eapply grows_trans; [|apply IH].
  cbn [fst snd] in *. rewrite join_pair. by apply grows_pair.
Qed.

Lemma grows_load_rows h rows : grows_alphabetically h (load_rows h rows).1.
Proof.
  revert h. induction rows as [|[w [f|]] rows IH]; intros h; cbn [load_rows];
    [apply grows_refl| |apply grows_refl].
  eapply grows_trans; [|apply IH].
  destruct (isalpha (lower w)) eqn:Hal; [|apply grows_refl].
  apply grows_word; [done|apply lower_idem].
Qed.

Lemma grows_load_item h item : grows_alphabetically h (load_item h item).
Proof.
  destruct item as [s|]; [|apply grows_refl]. cbn [load_item].
  apply grows_count_words, Forall_forall. intros w. apply words_lower.
Qed.

Lemma grows_foldl {A} (f : CorpusHandler → A → CorpusHandler) h (l : list A) :
  (∀ h x, grows_alphabetically h (f h x)) → grows_alphabetically h (foldl f h l).
Proof.
  intros Hf. revert h. induction l as [|x l IH]; intros h; [apply grows_refl|].
  cbn [foldl]. eapply grows_trans; [apply Hf|apply IH].
Qed.

(** X19: whatever it is given, [load_custom_corpus] removes no key from
    either table, and the only keys it adds are lower-case alphabetic
    words, and pairs of such words joined by one space; this holds as
    well when the load ends with an error or an unsupported file
    type. *)
Theorem corpus_keys_alphabetic h src :
  grows_alphabetically h (load_custom_corpus h src).1.
Proof.
  destruct src as [[content|]|[[rows|cols]|]|]; cbn [load_custom_corpus fst];
    try apply grows_refl.
  - assert (Hw : Forall (λ w, lower w = w) (split (blank_special (lower content)))).
    { apply Forall_forall. intros w. apply words_lower. }
    eapply grows_trans; [by apply grows_count_words|by apply grows_count_bigrams].
  - apply grows_load_rows.
  - apply grows_foldl. intros h' col. apply grows_foldl. apply grows_load_item.
Qed.

End CorpusKeys.

(** ** The most frequent words, and the confusion set built from them *)

Section TopWords.
Import corpus.
Context `{Items : DictIter}.
Implicit Types (h : CorpusHandler) (n : Z).

Lemma higher_count_total x y : higher_count x y = true ∨ higher_count y x = true.
Proof. unfold higher_count. rewrite !Z.leb_le. lia. Qed.

Lemma higher_count_trans x y z :
  higher_count x y = true → higher_count y z = true → higher_count x z = true.
Proof. unfold higher_count. rewrite !Z.leb_le. lia. Qed.

(** The items of a table in descending count. *)
Lemma sorted_items (m : gmap string Z) :
  let l := sort_by higher_count (dict_items m) in
  l ≡ₚ map_to_list m
  ∧ NoDup l.*1
  ∧ StronglySorted (λ x y, (y.2 ≤ x.2)%Z) l.
Proof.
  intros l.
  assert (Hperm : l ≡ₚ map_to_list m).
  { unfold l. by rewrite sort_by_perm, dict_items_perm. }
  split; [done|]. split.
  - rewrite Hperm. apply NoDup_fst_map_to_list.
  - eapply StronglySorted_mono;
      [|apply sort_by_sorted; [apply higher_count_total|apply higher_count_trans]].
    intros x y. unfold higher_count. by rewrite Z.leb_le.
Qed.

(** X20: [get_top_words n] holds [n] words, or all of them when the
    table has fewer, and none for [n <= 0]; each with the frequency the
    table has for it, no word twice, in descending frequency; and no
    word left out is more frequent than a word taken. *)
Theorem top_words_are_the_most_frequent h n :
  let top := get_top_words h n in
  NoDup top.*1
  ∧ List.length top = Z.to_nat n `min` size (word_freq h)
  ∧ (∀ w f, (w, f) ∈ top → word_freq h !! w = Some f)
  ∧ StronglySorted (λ x y, (y.2 ≤ x.2)%Z) top
  ∧ (∀ w f w' f', (w, f) ∈ top → word_freq h !! w' = Some f' → w' ∉ top.*1 →
       (f' ≤ f)%Z).
Proof.
  intros top. unfold top, get_top_words, most_common.
  destruct (sorted_items (word_freq h)) as (Hperm & Hnd & Hs).
  set (l := sort_by higher_count (dict_items (word_freq h))) in *.
  set (k := Z.to_nat n).
  assert (Hsplit : l = (take k l ++ drop k l)%list) by (by rewrite take_drop).
  split; [|split; [|split; [|split]]].
  - rewrite Hsplit, fmap_app in Hnd. by apply NoDup_app in Hnd as [? _].
  - by rewrite length_take, Hperm, length_map_to_list.
  - intros w f Hin. apply elem_of_map_to_list. rewrite <- Hperm.
    rewrite Hsplit. apply elem_of_app. by left.
  - rewrite Hsplit in Hs. by apply StronglySorted_app_1_l in Hs.
  - intros w f w' f' Hin Hw' Hout.
    apply elem_of_map_to_list in Hw'. rewrite <- Hperm, Hsplit in Hw'.
    apply elem_of_app in Hw' as [Hw'|Hw'].
    + exfalso. apply Hout, list_elem_of_fmap. by exists (w', f').
    + rewrite Hsplit in Hs.
      apply (StronglySorted_app_1_elem_of _ _ _ (w, f) (w', f') Hs Hin Hw').
Qed.

(** *** [generate_confusion_set] *)

Lemma confuse_entries top_words word (cs : gmap string string) :
  word ∈ top_words → 3 < String.length word →
  (∀ k v, cs !! k = Some v → confusion_entry top_words k v) →
  ∀ k v, confuse top_words word cs !! k = Some v → confusion_entry top_words k v.
Proof.
  intros Hw Hlen. unfold confuse.
  assert (Hsub : ∀ p, p ∈ patterns → p ∈ patterns) by done.
  revert Hsub. generalize patterns at 1 3. intros ps. revert cs.
  induction ps as [|[orig repl] ps IH]; intros cs Hsub Hcs; [done|].
  cbn [foldl]. apply IH; [intros p Hp; apply Hsub; by right|].
  destruct (contains word orig) eqn:Hc; [|done].
  cbv zeta. case_bool_decide as Hin; [done|].
  intros k v. destruct (decide (replace word orig repl = k)) as [<-|Hne].
  - rewrite lookup_insert_eq. intros [= <-].
    split; [done|]. split; [done|]. split; [done|].
    exists orig, repl. split; [apply Hsub; left|done].
  - rewrite lookup_insert_ne by done. apply Hcs.
Qed.

(** X21: every entry of the confusion set maps a string that is not
    among the top words to a top word of more than three characters, of
    which it is the rewriting by one of the patterns; no word is paired
    with itself, and without top words the set is empty. *)
Theorem confusion_set_entries h n misspelled word :
  generate_confusion_set h n !! misspelled = Some word →
  let top_words := (get_top_words h n).*1 in
  word ∈ top_words ∧ 3 < String.length word ∧ (misspelled ∉ top_words)
  ∧ misspelled ≠ word
  ∧ (0 < n)%Z
  ∧ ∃ orig repl, (orig, repl) ∈ patterns ∧ contains word orig = true
                 ∧ misspelled = replace word orig repl.
Proof.
  intros Hl top_words.
  assert (Hall : confusion_entry top_words misspelled word).
  { revert Hl. unfold generate_confusion_set. fold top_words.
    assert (Hsub : ∀ w, w ∈ top_words → w ∈ top_words) by done.
    revert Hsub. generalize top_words at 1 4. intros ws.
    assert (Hcs : ∀ k v, (∅ : gmap string string) !! k = Some v
                         → confusion_entry top_words k v) by done.
    revert Hcs. generalize (∅ : gmap string string). intros cs Hcs Hsub.
    revert cs Hcs. induction ws as [|w ws IH]; intros cs Hcs; [apply Hcs|].
    cbn [foldl]. apply IH; [intros x Hx; apply Hsub; by right|].
    destruct (Nat.leb_spec (String.length w) 3) as [Hle|Hgt]; [done|].
    apply confuse_entries; [apply Hsub; left|done..]. }
  destruct Hall as (Hw & Hlen & Hm & Hpat).
  split; [done|]. split; [done|]. split; [done|]. split; [by intros ->|].
  split; [|done].
  destruct (decide (0 < n)%Z) as [|Hn]; [done|]. exfalso.
  unfold top_words, get_top_words, most_common in Hw.
  replace (Z.to_nat n) with 0 in Hw by lia. by apply elem_of_nil in Hw.
Qed.

End TopWords.

(** ** Exported frequencies read back as a dictionary *)

(** *** [int] undoes [str] *)

(** One decimal digit read by [int_digits]. *)
Ltac read_digit :=
  match goal with
  | |- int_digits ?a ?b (String ?c ?s) = _ =>
      let v := eval vm_compute in (Z.of_N (N_of_ascii c) - 48)%Z in
      transitivity (int_digits (10 * a + v)%Z true s); [reflexivity|]
  end.

Lemma int_digits_acc d acc :
  int_digits (Z.pos acc) true (NilEmpty.string_of_uint d)
  = Some (Z.pos (Pos.of_uint_acc d acc)).
Proof.
  revert acc.
  induction d as [|d IH|d IH|d IH|d IH|d IH|d IH|d IH|d IH|d IH|d IH]; intros acc;
    cbn [NilEmpty.string_of_uint Pos.of_uint_acc]; [done|..];
    read_digit; rewrite <- IH; f_equal; lia.
Qed.

Lemma int_digits_uint d :
  int_digits 0 true (NilEmpty.string_of_uint d) = Some (Z.of_N (Pos.of_uint d)).
Proof.
  induction d as [|d IH|d IH|d IH|d IH|d IH|d IH|d IH|d IH|d IH|d IH];
    cbn [NilEmpty.string_of_uint Pos.of_uint]; [done|by read_digit|..];
    read_digit; cbn [Z.of_N]; rewrite <- int_digits_acc; f_equal.
Qed.

Lemma int_uint d :
  d ≠ Decimal.Nil →
  int (NilEmpty.string_of_uint d) = Some (Z.of_N (Pos.of_uint d))
  ∧ int_digits 0 false (NilEmpty.string_of_uint d) = Some (Z.of_N (Pos.of_uint d)).
Proof.
  intros Hd. rewrite <- int_digits_uint.
  destruct d; [done|..]; split; reflexivity.
Qed.

Lemma to_uint_not_nil p : Pos.to_uint p ≠ Decimal.Nil.
Proof.
  intros E. pose proof (DecimalPos.Unsigned.of_to p) as Hp. rewrite E in Hp. done.
Qed.

Lemma nil_zero_uint d : d ≠ Decimal.Nil → NilZero.string_of_uint d = NilEmpty.string_of_uint d.
Proof. by destruct d. Qed.

Lemma int_str z : int (str z) = Some z.
Proof.
  unfold str. destruct z as [|p|p]; [done|..]; cbn [Z.to_int NilZero.string_of_int].
  - rewrite nil_zero_uint by apply to_uint_not_nil.
    rewrite (proj1 (int_uint _ (to_uint_not_nil p))).
    by rewrite DecimalPos.Unsigned.of_to.
  - rewrite nil_zero_uint by apply to_uint_not_nil.
    change (int (String "-" ?s)) with (Z.opp <$> int_digits 0 false s).
    rewrite (proj2 (int_uint _ (to_uint_not_nil p))).
    by rewrite DecimalPos.Unsigned.of_to.
Qed.

Lemma uint_no_space d :
  all_chars (λ a, negb (isspace a)) (NilEmpty.string_of_uint d) = true.
Proof. induction d; simpl; done. Qed.

Lemma str_no_space z :
  str z ≠ "" ∧ all_chars (λ a, negb (isspace a)) (str z) = true.
Proof.
  unfold str. destruct z as [|p|p]; [done|..]; cbn [Z.to_int NilZero.string_of_int].
  - rewrite nil_zero_uint by apply to_uint_not_nil. split; [|apply uint_no_space].
    pose proof (to_uint_not_nil p). by destruct (Pos.to_uint p).
  - split; [done|]. rewrite nil_zero_uint by apply to_uint_not_nil.
    simpl. apply uint_no_space.
Qed.

(** *** The line written for an item, split again *)

Lemma rstrip_app s t : rstrip t ≠ "" → rstrip (s +:+ t) = s +:+ rstrip t.
Proof.
  intros Ht. induction s as [|a s IH]; [by rewrite !append_nil_l|].
  rewrite !append_cons. cbn [rstrip]. rewrite IH.
  destruct (s +:+ rstrip t) as [|b r] eqn:E; [|done].
  destruct s; [by rewrite append_nil_l in E|by rewrite append_cons in E].
Qed.

Lemma rstrip_trailing_space s ws :
  isspace ws = true → rstrip (s +:+ String ws "") = rstrip s.
Proof.
  intros Hws. induction s as [|a s IH].
  - rewrite append_nil_l. simpl. by rewrite Hws.
  - rewrite append_cons. cbn [rstrip]. by rewrite IH.
Qed.

Lemma split_go_word cur k s :
  all_chars (λ a, negb (isspace a)) k = true →
  split_go cur (k +:+ s) = split_go (rev (list_ascii_of_string k) ++ cur)%list s.
Proof.
  revert cur. induction k as [|a k IH]; intros cur Hk.
  - by rewrite append_nil_l.
  - simpl in Hk. apply andb_true_iff in Hk as [Ha Hk].
    rewrite append_cons. cbn [split_go]. apply negb_true_iff in Ha. rewrite Ha.
    rewrite (IH _ Hk). cbn [list_ascii_of_string rev]. by rewrite <- app_assoc.
Qed.

Lemma word_of_rev k :
  string_of_list_ascii (rev (rev (list_ascii_of_string k) ++ [])%list) = k.
Proof. by rewrite app_nil_r, rev_involutive, string_of_list_ascii_of_string. Qed.

Lemma append_nil_r s : s +:+ "" = s.
Proof.
  induction s as [|a s IH]; [by rewrite append_nil_l|]. by rewrite append_cons, IH.
Qed.

Lemma split_two_fields k d :
  k ≠ "" → all_chars (λ a, negb (isspace a)) k = true →
  d ≠ "" → all_chars (λ a, negb (isspace a)) d = true →
  split (k +:+ " " +:+ d) = [k; d].
Proof.
  intros Hk Hks Hd Hds. unfold split. rewrite split_go_word by done.
  rewrite append_cons, append_nil_l. cbn [split_go]. change (isspace " ") with true.
  cbv iota. rewrite <- (append_nil_r d) at 1.
  rewrite split_go_word by done. cbn [split_go].
  assert (Hne : ∀ s, s ≠ "" → (rev (list_ascii_of_string s) ++ [])%list ≠ []).
  { intros [|a s] Hs; [done|]. simpl. rewrite app_nil_r.
    intros E. by apply app_eq_nil in E as [_ ?]. }
  pose proof (Hne k Hk) as Hk'. pose proof (Hne d Hd) as Hd'.
  pose proof (word_of_rev k) as Ek. pose proof (word_of_rev d) as Ed.
  destruct (rev (list_ascii_of_string k) ++ [])%list; [done|].
  destruct (rev (list_ascii_of_string d) ++ [])%list; [done|].
  by rewrite Ek, Ed.
Qed.

Lemma strip_export_line k f :
  k ≠ "" → all_chars (λ a, negb (isspace a)) k = true →
  strip (corpus.export_line (k, f)) = k +:+ " " +:+ str f.
Proof.
  intros Hk Hks. unfold corpus.export_line, strip. cbn [fst snd].
  destruct (str_no_space f) as [Hd Hds].
  assert (Hl : lstrip (k +:+ " " +:+ str f +:+ String (ascii_of_N 10) "")
               = k +:+ " " +:+ str f +:+ String (ascii_of_N 10) "").
  { destruct k as [|a k]; [done|]. rewrite append_cons. cbn [lstrip].
    simpl in Hks. apply andb_true_iff in Hks as [Ha _].
    apply negb_true_iff in Ha. by rewrite Ha. }
  rewrite Hl.
  assert (Hr : rstrip (str f +:+ String (ascii_of_N 10) "") = str f).
  { rewrite rstrip_trailing_space by done. by apply rstrip_no_space. }
  rewrite rstrip_app.
  - f_equal. rewrite rstrip_app; [by rewrite Hr|by rewrite Hr].
  - rewrite rstrip_app; [|by rewrite Hr]. by rewrite append_cons.
Qed.

Section RoundTrip.
Context `{Items : corpus.DictIter} {T : Type}.
Implicit Types (c : Corrector T) (h : corpus.CorpusHandler) (items : list (string * Z)).

Lemma load_export_line c k f :
  isalpha k = true → lower k = k →
  load_line c (corpus.export_line (k, f))
  = Some {| dictionary := dictionary c ∪ {[k]};
            word_freq := <[k := f]> (word_freq c);
            spell_checker := spell_checker c;
            user_corrections := user_corrections c |}.
Proof.
  intros Hal Hlow.
  assert (Hk : k ≠ "") by (by destruct k).
  assert (Hks := isalpha_no_space k Hal).
  destruct (str_no_space f) as [Hd Hds].
  unfold load_line. rewrite strip_export_line, split_two_fields by done.
  by rewrite int_str, Hlow.
Qed.

Lemma load_exported_items c items :
  Forall (λ it, isalpha it.1 = true ∧ lower it.1 = it.1) items →
  NoDup items.*1 →
  ∃ c', load_lines c (corpus.export_line <$> items) = (c', None)
        ∧ dictionary c' = dictionary c ∪ list_to_set items.*1
        ∧ (∀ k f, (k, f) ∈ items → word_freq c' !! k = Some f)
        ∧ (∀ k, k ∉ items.*1 → word_freq c' !! k = word_freq c !! k)
        ∧ user_corrections c' = user_corrections c.
Proof.
  induction items as [|[k f] items IH] using rev_ind; intros Hall Hnd.
  { exists c. split; [done|]. split; [|split; [|done]].
    - simpl. apply set_eq. intros x. rewrite elem_of_union, elem_of_empty. tauto.
    - by intros k f ?%elem_of_nil. }
  apply Forall_app in Hall as [Hall Hlast].
  apply Forall_singleton in Hlast as [Hal Hlow]. cbn [fst] in Hal, Hlow.
  rewrite fmap_app in Hnd. apply NoDup_app in Hnd as (Hnd & Hfresh & _).
  destruct (IH Hall Hnd) as (c1 & Hload & Hdict & Hin & Hout & Hu).
  eexists. rewrite fmap_app, load_lines_app, Hload. cbn [fmap list_fmap load_lines].
  rewrite load_export_line by done. split; [done|]. cbn [dictionary word_freq user_corrections].
  split; [|split; [|split; [|done]]].
  - rewrite Hdict. apply set_eq. intros x.
    rewrite !elem_of_union, !elem_of_list_to_set, fmap_app, elem_of_app.
    cbn [fmap list_fmap fst]. rewrite list_elem_of_singleton, elem_of_singleton. tauto.
  - intros k' f' [Hk'|[= -> ->]%list_elem_of_singleton]%elem_of_app.
    + rewrite lookup_insert_ne; [by apply Hin|]. intros <-.
      apply (Hfresh k); [|left]. apply list_elem_of_fmap. by exists (k, f').
    + by rewrite lookup_insert_eq.
  - intros k' Hk'. rewrite fmap_app, elem_of_app in Hk'.
    rewrite lookup_insert_ne; [apply Hout; tauto|].
    intros <-. apply Hk'. right. left.
Qed.

(** X22: what [export_word_frequencies] writes, [load_custom_dictionary]
    reads back.  For a table whose keys are lower-case alphabetic words
    (the keys the corpus loaders add), loading the exported lines ends
    without error, adds exactly the words of the table to the
    dictionary, and gives each of them the frequency the table had;
    other frequencies and the user corrections stay. *)
Theorem export_then_load c h :
  (∀ k, is_Some (corpus.word_freq h !! k) → isalpha k = true ∧ lower k = k) →
  let r := load_custom_dictionary c (Lines (corpus.export_word_frequencies h) None) in
  r.2 = None
  ∧ dictionary r.1 = dictionary c ∪ dom (corpus.word_freq h)
  ∧ (∀ k f, corpus.word_freq h !! k = Some f → freq r.1 k = f)
  ∧ (∀ k, corpus.word_freq h !! k = None → freq r.1 k = freq c k)
  ∧ user_corrections r.1 = user_corrections c.
Proof.
  intros Hkeys r. unfold r, corpus.export_word_frequencies. cbn [load_custom_dictionary].
  destruct (sorted_items (corpus.word_freq h)) as (Hperm & Hnd & _).
  set (items := sort_by corpus.higher_count (corpus.dict_items (corpus.word_freq h))) in *.
  assert (Hmem : ∀ k f, (k, f) ∈ items ↔ corpus.word_freq h !! k = Some f).
  { intros k f. by rewrite Hperm, elem_of_map_to_list. }
  assert (Hall : Forall (λ it, isalpha it.1 = true ∧ lower it.1 = it.1) items).
  { apply Forall_forall. intros [k f] Hin. apply Hkeys. exists f. by apply Hmem. }
  destruct (load_exported_items c items Hall Hnd) as (c' & -> & Hdict & Hin & Hout & Hu).
  cbn [fst snd]. split; [done|]. split; [|split; [|split; [|done]]].
  - rewrite Hdict. f_equal. apply set_eq. intros k.
    rewrite elem_of_list_to_set, elem_of_dom, list_elem_of_fmap. split.
    + intros ([k' f] & -> & Hk). exists f. by apply Hmem.
    + intros [f Hf]. exists (k, f). split; [done|]. by apply Hmem.
  - intros k f Hf. unfold freq. by rewrite (Hin k f) by (by apply Hmem).
  - intros k Hk. unfold freq. rewrite Hout; [done|].
    intros ([k' f] & -> & Hin')%list_elem_of_fmap. apply Hmem in Hin'.
    cbn [fst] in Hk. congruence.
Qed.

End RoundTrip.

(** ** [main_corrector.py]: the nearest word *)

Section BestMatch.
Import main_corrector.
Context `{Order : SetIter}.
Implicit Types (sc : SimpleCorrector) (word w : string).

Lemma levenshtein_is_distance s1 s2 : _levenshtein s1 s2 = levenshtein s1 s2.
Proof. apply calculate_levenshtein_distance_table. Qed.

Lemma best_match_loop_nearest word rest seen m b :
  (∀ w, w ∈ (seen ++ rest)%list → 1 ≤ _levenshtein word w) →
  b ∈ seen → m = _levenshtein word b →
  (∀ w, w ∈ seen → m ≤ _levenshtein word w) →
  let r := best_match_loop word rest (Some m) b in
  r ∈ (seen ++ rest)%list
  ∧ ∀ w, w ∈ (seen ++ rest)%list → _levenshtein word r ≤ _levenshtein word w.
Proof.
  revert seen m b. induction rest as [|x rest IH]; intros seen m b Hfar Hb Hm Hmin.
  { cbn [best_match_loop]. rewrite app_nil_r. split; [done|]. intros w Hw.
    rewrite <- Hm. by apply Hmin. }
  cbn [best_match_loop].
  set (dist := _levenshtein word x).
  set (st := if (dist <? m)%nat then (Some dist, x) else (Some m, b)).
  assert (Hst : ∃ m' b', st = (Some m', b') ∧ b' ∈ (seen ++ [x])%list
                         ∧ m' = _levenshtein word b'
                         ∧ ∀ w, w ∈ (seen ++ [x])%list → m' ≤ _levenshtein word w).
  { unfold st. destruct (Nat.ltb_spec dist m) as [Hlt|Hge].
    - exists dist, x. split; [done|]. split; [apply elem_of_app; right; left|].
      split; [done|]. intros w [Hw| ->%list_elem_of_singleton]%elem_of_app; [|done].
      apply Hmin in Hw. lia.
    - exists m, b. split; [done|]. split; [apply elem_of_app; by left|].
      split; [done|]. intros w [Hw| ->%list_elem_of_singleton]%elem_of_app; [|done].
      by apply Hmin. }
  destruct Hst as (m' & b' & -> & Hb' & Hm' & Hmin').
  replace (seen ++ x :: rest)%list with ((seen ++ [x]) ++ rest)%list in *
    by (by rewrite <- app_assoc).
  case_bool_decide as Hone.
  - injection Hone as ->. split; [apply elem_of_app; by left|].
    intros w Hw. rewrite <- Hm'. by apply Hfar.
  - by apply IH.
Qed.

(** X23: [_get_best_match] returns a nearest word.  For a word that is
    not in the word list, and a list that is not empty, the result is a
    word of the list at the least edit distance from the word: stopping
    at the first word at distance 1 loses nothing, no listed word being
    nearer than that.  With an empty list the word itself comes back. *)
Theorem best_match_is_nearest sc word :
  (words sc = ∅ → _get_best_match sc word = word)
  ∧ (word ∉ words sc → words sc ≠ ∅ →
     _get_best_match sc word ∈ words sc
     ∧ ∀ w, w ∈ words sc →
         levenshtein word (_get_best_match sc word) ≤ levenshtein word w).
Proof.
  unfold _get_best_match. split.
  - intros ->. by rewrite bool_decide_eq_true_2.
  - intros Hout Hne. rewrite bool_decide_eq_false_2 by done.
    assert (Hfar : ∀ w, w ∈ set_iter (words sc) → 1 ≤ _levenshtein word w).
    { intros w Hw%elem_of_set_iter. rewrite levenshtein_is_distance.
      destruct (levenshtein word w) eqn:E; [|lia].
      apply levenshtein_zero in E as ->. done. }
    assert (Hgoal : ∀ r, (r ∈ set_iter (words sc)
                          ∧ ∀ w, w ∈ set_iter (words sc) →
                                 _levenshtein word r ≤ _levenshtein word w) →
                         r ∈ words sc
                         ∧ ∀ w, w ∈ words sc → levenshtein word r ≤ levenshtein word w).
    { intros r [Hr Hmin]. split; [by apply elem_of_set_iter|].
      intros w Hw%elem_of_set_iter. rewrite <- !levenshtein_is_distance. by apply Hmin. }
    apply Hgoal. clear Hgoal.
    destruct (set_iter (words sc)) as [|x rest] eqn:E.
    { exfalso. apply Hne, set_iter_nil. done. }
    cbn [best_match_loop]. case_bool_decide as Hone.
    + injection Hone as Hone. split; [left|]. intros w Hw. rewrite Hone. by apply Hfar.
    + apply (best_match_loop_nearest word rest [x] _ x); [done|left|done|].
      by intros w ->%list_elem_of_singleton.
Qed.

End BestMatch.

(** ** [autocorrect/evaluation.py]: the tallies *)

Section Tallies.
Import evaluation.
Context `{Order : SetIter} {T : Type} `{Checker : SpellChecker T}.
Implicit Types (c : Corrector T) (t : tallies) (test_data : list (string * string)).

Lemma tally_steps c t pair :
  let t' := tally c t pair in
  let changed := if decide (pair.1 = pair.2) then 0%Z else 1%Z in
  (true_positives t' - true_positives t
   = correct_predictions t' - correct_predictions t)%Z
  ∧ (false_positives t' - false_positives t
     = false_negatives t' - false_negatives t)%Z
  ∧ ((true_positives t' - true_positives t) + (false_positives t' - false_positives t)
     = changed)%Z
  ∧ (0 ≤ true_positives t' - true_positives t)%Z
  ∧ (0 ≤ false_positives t' - false_positives t)%Z.
Proof.
  destruct pair as [misspelled original]. cbn [tally fst snd].
  destruct (decide (misspelled = original)) as [->|Hne].
  - rewrite bool_decide_eq_true_2 by done. lia.
  - rewrite bool_decide_eq_false_2 by done. rewrite bool_decide_eq_true_2 by done.
    case_bool_decide; cbn; lia.
Qed.

Lemma tally_run c t test_data :
  let t' := foldl (tally c) t test_data in
  let changed := Z.of_nat (List.length (filter (λ pair, pair.1 ≠ pair.2) test_data)) in
  (true_positives t' - true_positives t
   = correct_predictions t' - correct_predictions t)%Z
  ∧ (false_positives t' - false_positives t
     = false_negatives t' - false_negatives t)%Z
  ∧ ((true_positives t' - true_positives t) + (false_positives t' - false_positives t)
     = changed)%Z
  ∧ (0 ≤ true_positives t' - true_positives t)%Z
  ∧ (0 ≤ false_positives t' - false_positives t)%Z.
Proof.
  revert t. induction test_data as [|pair test_data IH]; intros t.
  { cbn. lia. }
  cbn [foldl]. rewrite filter_cons.
  pose proof (tally_steps c t pair) as Hs. pose proof (IH (tally c t pair)) as Hr.
  cbv zeta in Hs, Hr |- *.
  destruct (decide (pair.1 = pair.2)) as [E|E].
  - rewrite decide_False by (by intros ?). lia.
  - rewrite decide_True by done. cbn [List.length]. lia.
Qed.

(** X24: in [evaluate_word_correction] the pairs whose two words are
    equal are passed over but still counted in [total].  Of the other
    pairs each is tallied once, as a true positive when the prediction
    is right and as both a false positive and a false negative when it
    is not: so [true_positives] is [correct_predictions], the false
    positives and the false negatives are equal in number (precision
    and recall are the same quotient), and [correct_predictions] cannot
    exceed the number of pairs that differ. *)
Theorem evaluation_tallies c test_data t total :
  evaluate_word_correction c test_data = Some (t, total) →
  let changed := Z.of_nat (List.length (filter (λ pair, pair.1 ≠ pair.2) test_data)) in
  true_positives t = correct_predictions t
  ∧ false_positives t = false_negatives t
  ∧ (true_positives t + false_positives t = changed)%Z
  ∧ (0 ≤ correct_predictions t ≤ changed)%Z
  ∧ (changed ≤ total)%Z
  ∧ total = Z.of_nat (List.length test_data).
Proof.
  intros Hrun changed.
  assert (Hres : t = foldl (tally c)
                       {| correct_predictions := 0; true_positives := 0;
                          false_positives := 0; false_negatives := 0 |} test_data
                 ∧ total = Z.of_nat (List.length test_data)).
  { unfold evaluate_word_correction in Hrun.
    destruct test_data as [|pair rest]; [discriminate Hrun|].
    injection Hrun as <- <-. done. }
  destruct Hres as [-> ->].
  pose proof (tally_run c {| correct_predictions := 0; true_positives := 0;
                             false_positives := 0; false_negatives := 0 |} test_data) as H.
  cbv zeta in H. cbn [correct_predictions true_positives false_positives false_negatives] in H.
  fold changed in H.
  assert (Hle : List.length (filter (λ pair : string * string, pair.1 ≠ pair.2) test_data)
                ≤ List.length test_data) by apply length_filter.
  unfold changed in *. lia.
Qed.

End Tallies.

(** ** A user correction, once recorded *)

Section UserCorrections.
Context `{Order : SetIter} {T : Type} `{Checker : SpellChecker T}.
Implicit Types (c : Corrector T) (m corr : string).

(** X25: [add_user_correction m corr] makes the normal form of [corr] a
    dictionary word, with frequency 1 unless it was one already, in
    which case its frequency stays.  What [correct_word] then answers
    for [m] is answered for the answer again (a corrected word is not
    corrected further), and a later correction recorded for [m]
    replaces the earlier one. *)
Theorem user_correction_is_final c m corr :
  let c' := add_user_correction c m corr in
  let w := strip (lower corr) in
  w ∈ dictionary c'
  ∧ freq c' w = (if decide (w ∈ dictionary c) then freq c w else 1%Z)
  ∧ correct_word c' w = w
  ∧ (¬ blank m → strip (lower m) ∉ dictionary c →
     correct_word c' (correct_word c' m) = correct_word c' m)
  ∧ (∀ corr', user_corrections (add_user_correction c' m corr') !! strip (lower m)
              = Some (strip (lower corr'))).
Proof.
  intros c' w.
  assert (Hw : w ∈ dictionary c').
  { unfold c'. rewrite add_user_correction_dictionary.
    apply elem_of_union. right. by apply elem_of_singleton. }
  assert (Hfix : correct_word c' w = w).
  { destruct (decide (blank w)) as [Hb|Hb]; [by apply correct_word_blank|].
    rewrite correct_word_known; [apply normalise_idem|done|].
    unfold w. by rewrite normalise_idem. }
  split; [done|]. split; [|split; [done|split]].
  - unfold c', add_user_correction. cbv zeta. fold w.
    cbn [dictionary]. destruct (decide (w ∈ dictionary c)) as [Hin|Hin]; [done|].
    unfold freq, add_to_dictionary. cbn [word_freq]. fold w.
    assert (E : strip (lower w) = w) by apply normalise_idem.
    rewrite E. by rewrite lookup_insert_eq.
  - intros Hb Hd.
    assert (Hm : correct_word c' m = w).
    { destruct (decide (strip (lower m) = w)) as [E|E].
      - rewrite correct_word_known; [done..|]. by rewrite E.
      - apply correct_word_user; [done| |apply add_user_correction_entry].
        unfold c'. rewrite add_user_correction_dictionary, elem_of_union, elem_of_singleton.
        tauto. }
    by rewrite Hm.
  - intros corr'. apply add_user_correction_entry.
Qed.

End UserCorrections.

(** ** The added properties at concrete inputs *)

Section MoreConcrete.
Import examples.
#[local] Existing Instance ascending.
#[local] Existing Instance silent.
#[local] Existing Instance in_key_order.

Lemma normal_dictionary_the : normal_dictionary (new_corrector () ["the"]).
Proof.
  intros w Hw. unfold new_corrector in Hw. cbn [dictionary] in Hw.
  apply elem_of_list_to_set, list_elem_of_singleton in Hw. rewrite Hw. reflexivity.
Qed.

Lemma no_pair_keys_new (words : list string) : no_pair_keys (new_corrector () words).
Proof. intros k _. apply lookup_empty. Qed.

Lemma near_edits_are_candidates_witness :
  let c := new_corrector () ["ten"] in
  ("teh" ∉ dictionary c)
  ∧ known c (edits1 "teh") ≠ ∅
  ∧ "ten" ∈ _get_norvig_candidates c "teh" 2
  ∧ "ten" ∈ _get_candidates c "teh" 2.
Proof.
  intros c.
  assert (H1 : "teh" ∉ dictionary c) by by_eval.
  assert (H2 : known c (edits1 "teh") ≠ ∅) by (rewrite known_edits1; by_eval).
  assert (H3 : "ten" ∈ _get_norvig_candidates c "teh" 2).
  { eval_norvig. by_eval. }
  split; [exact H1|]. split; [exact H2|]. split; [exact H3|].
  exact (proj2 (near_edits_are_candidates (Order := ascending) (T := ())) c "teh" "ten" H1 H2 H3).
Defined.

Lemma top_candidate_is_nearest_witness :
  let c := with_frequencies () [("the", 100%Z); ("ten", 1%Z)] in
  ("teh" ∉ dictionary c)
  ∧ _get_candidates c "teh" 2 = ["ten"; "the"]
  ∧ "ten" ∈ dictionary c
  ∧ ∀ d, d ∈ dictionary c →
      _calculate_levenshtein_distance "teh" "ten" ≤ _calculate_levenshtein_distance "teh" d
      ∧ (_calculate_levenshtein_distance "teh" d = _calculate_levenshtein_distance "teh" "ten" →
         (freq c d ≤ freq c "ten")%Z).
Proof.
  intros c.
  assert (H1 : "teh" ∉ dictionary c) by by_eval.
  assert (H2 : _get_candidates c "teh" 2 = ["ten"; "the"]) by (vm_compute; reflexivity).
  split; [exact H1|]. split; [exact H2|].
  exact (top_candidate_is_nearest c "teh" 2 "ten" ["the"] H1 H2).
Defined.

Lemma threshold_monotone_witness :
  let c := with_frequencies () [("the", 100%Z); ("ten", 1%Z)] in
  ("teh" ∉ dictionary c)
  ∧ (1 ≤ 2)%Z
  ∧ (∀ x, x ∈ _get_candidates c "teh" 1 → x ∈ _get_candidates c "teh" 2)
  ∧ ((1 < 1)%Z → _get_candidates c "teh" 1 = []).
Proof.
  intros c.
  assert (H1 : "teh" ∉ dictionary c) by by_eval.
  assert (H2 : (1 ≤ 2)%Z) by lia.
  split; [exact H1|]. split; [exact H2|].
  exact (threshold_monotone c "teh" 1 2 H1 H2).
Defined.

Lemma vote_first_plurality_witness :
  let l := ["b"; "a"; "a"; "b"; "c"] in
  l ≠ []
  ∧ vote l "w" = "b"
  ∧ vote l "w" ∈ l
  ∧ (∀ y, votes_for y l ≤ votes_for (vote l "w") l)
  ∧ (∀ y, y ≠ vote l "w" → votes_for y l = votes_for (vote l "w") l →
          occurs_first (vote l "w") y l).
Proof.
  intros l.
  assert (H1 : l ≠ []) by discriminate.
  split; [exact H1|]. split; [reflexivity|].
  exact (vote_first_plurality l "w" H1).
Defined.

Lemma normal_dictionary_kept_witness :
  let c := new_corrector () ["the"] in
  normal_dictionary c
  ∧ normal_dictionary (add_to_dictionary c " Cat " 3)
  ∧ correct_word c "the" = "the".
Proof.
  intros c.
  destruct (normal_dictionary_kept c normal_dictionary_the) as (Hadd & _ & _ & Hfix).
  split; [exact normal_dictionary_the|]. split; [exact (Hadd " Cat " 3%Z)|].
  apply Hfix. by_eval.
Defined.

Lemma context_needs_pair_keys_witness :
  let c := new_corrector () ["the"] in
  no_pair_keys c
  ∧ normal_dictionary c
  ∧ correct_with_context (H := whitespace) c "teh cat"
    = correct_text (H := whitespace) c "teh cat".
Proof.
  intros c.
  split; [exact (no_pair_keys_new ["the"])|]. split; [exact normal_dictionary_the|].
  exact (proj1 (context_needs_pair_keys (H := whitespace) c "teh cat"
                  (no_pair_keys_new ["the"]) normal_dictionary_the)).
Defined.

Lemma known_tokens_unchanged_witness :
  let c := new_corrector () ["the"] in
  let tokens := ["the"; "42"; ","; "the"] in
  normal_dictionary c
  ∧ Forall (λ token, skipped token = true ∨ token ∈ dictionary c) tokens
  ∧ correct_tokens c tokens = tokens
  ∧ correct_tokens_with_context c tokens = tokens.
Proof.
  intros c tokens.
  assert (Hthe : "the" ∈ dictionary c) by by_eval.
  assert (Hall : Forall (λ token, skipped token = true ∨ token ∈ dictionary c) tokens).
  { repeat constructor; first [by right | by left]. }
  split; [exact normal_dictionary_the|]. split; [exact Hall|].
  exact (known_tokens_unchanged c tokens normal_dictionary_the Hall).
Defined.

Lemma table_load_overwrites_witness :
  let src := corpus.Table (Some (corpus.WordFrequency
               [("the", Some 3%Z); ("cat", Some 1%Z); ("The", Some 7%Z)])) in
  let h' := (corpus.load_custom_corpus empty_handler src).1 in
  corpus.load_custom_corpus empty_handler src = (h', corpus.Loaded)
  ∧ corpus.word_freq h' !! "the" = Some 7%Z.
Proof.
  intros src h'.
  assert (H1 : corpus.load_custom_corpus empty_handler src = (h', corpus.Loaded))
    by reflexivity.
  split; [exact H1|].
  exact (proj2 (table_load_overwrites empty_handler _ h' "the" H1)).
Defined.

Lemma confusion_set_entries_witness :
  let h := {| corpus.word_freq := {["their" := 9%Z]}; corpus.bigram_freq := ∅ |} in
  corpus.generate_confusion_set h 10 !! "thier" = Some "their"
  ∧ "their" ∈ (corpus.get_top_words h 10).*1
  ∧ 3 < String.length "their"
  ∧ ("thier" ∉ (corpus.get_top_words h 10).*1)
  ∧ "thier" ≠ "their".
Proof.
  intros h.
  assert (H1 : corpus.generate_confusion_set h 10 !! "thier" = Some "their")
    by (vm_compute; reflexivity).
  destruct (confusion_set_entries h 10 "thier" "their" H1) as (H2 & H3 & H4 & H5 & _).
  split; [exact H1|]. split; [exact H2|]. split; [exact H3|]. split; [exact H4|exact H5].
Defined.

Lemma export_keys_alphabetic :
  let h := {| corpus.word_freq := <["the" := 5%Z]> {["cat" := 2%Z]};
              corpus.bigram_freq := ∅ |} in
  ∀ k, is_Some (corpus.word_freq h !! k) → isalpha k = true ∧ lower k = k.
Proof.
  intros h k [f Hf]. cbn [corpus.word_freq h] in Hf.
  apply lookup_insert_Some in Hf as [[<- _]|[_ Hf]]; [split; reflexivity|].
  apply lookup_singleton_Some in Hf as [<- _]. split; reflexivity.
Qed.

Lemma export_then_load_witness :
  let h := {| corpus.word_freq := <["the" := 5%Z]> {["cat" := 2%Z]};
              corpus.bigram_freq := ∅ |} in
  let c := new_corrector () ["dog"] in
  let r := load_custom_dictionary c (Lines (corpus.export_word_frequencies h) None) in
  (∀ k, is_Some (corpus.word_freq h !! k) → isalpha k = true ∧ lower k = k)
  ∧ r.2 = None
  ∧ dictionary r.1 = dictionary c ∪ dom (corpus.word_freq h)
  ∧ freq r.1 "the" = 5%Z.
Proof.
  intros h c r.
  destruct (export_then_load c h export_keys_alphabetic) as (H1 & H2 & H3 & _).
  split; [exact export_keys_alphabetic|]. split; [exact H1|]. split; [exact H2|].
  apply H3. vm_compute. reflexivity.
Defined.

Lemma best_match_is_nearest_witness :
  let sc := {| main_corrector.words := {["the"; "cat"]} |} in
  ("teh" ∉ main_corrector.words sc)
  ∧ main_corrector.words sc ≠ ∅
  ∧ main_corrector._get_best_match sc "teh" ∈ main_corrector.words sc
  ∧ ∀ w, w ∈ main_corrector.words sc →
      levenshtein "teh" (main_corrector._get_best_match sc "teh") ≤ levenshtein "teh" w.
Proof.
  intros sc.
  assert (H1 : "teh" ∉ main_corrector.words sc) by by_eval.
  assert (H2 : main_corrector.words sc ≠ ∅) by by_eval.
  split; [exact H1|]. split; [exact H2|].
  exact (proj2 (best_match_is_nearest sc "teh") H1 H2).
Defined.

Lemma evaluation_tallies_witness :
  let c := new_corrector () ["the"; "ten"] in
  let test_data := [("thee", "the"); ("the", "the"); ("tan", "tin")] in
  let t := {| evaluation.correct_predictions := 1; evaluation.true_positives := 1;
              evaluation.false_positives := 1; evaluation.false_negatives := 1 |} in
  evaluation.evaluate_word_correction c test_data = Some (t, 3%Z)
  ∧ evaluation.true_positives t = evaluation.correct_predictions t
  ∧ evaluation.false_positives t = evaluation.false_negatives t
  ∧ (evaluation.true_positives t + evaluation.false_positives t = 2)%Z.
Proof.
  intros c test_data t.
  assert (H1 : evaluation.evaluate_word_correction c test_data = Some (t, 3%Z))
    by (vm_compute; reflexivity).
  destruct (evaluation_tallies c test_data t 3%Z H1) as (H2 & H3 & H4 & _).
  split; [exact H1|]. split; [exact H2|]. split; [exact H3|exact H4].
Defined.

End MoreConcrete.
